(** * Marian / amun: tensor node operators, the device communicator and TMatrix

    A shallow embedding of
    - [src/gpu/mblas/matrix.h] : [TMatrix] (Resize, Reshape) and, in the second
      half of the file, [Communicator] / [DefaultCommunicator];
    - the unary node operators ([ScalarAddNodeOp] ... [StepNodeOp]).

    Conventions.  C++ [int] is 32 bit two's complement, [size_t] is 64 bit
    unsigned and [float] is IEEE-754 binary32; all three are written out over
    [Z].  An operation of the program is a function into [outcome]: it
    finishes ([Done]), stops in [ABORT_IF] ([Abort] with the message), or
    touches memory outside the buffer it was given ([OutOfBounds], which is
    undefined behaviour in the C++ program). *)

From Stdlib Require Import ZArith Lia String Bool.
From Stdlib Require Import SpecFloat.
From Stdlib Require Import Ring_theory Ring.
From stdpp Require Import base tactics option list gmap.

Local Open Scope Z_scope.

(** ** Outcomes *)

Inductive outcome (A : Type) : Type :=
| Done (a : A)
| Abort (msg : string)
| OutOfBounds.
Arguments Done {A} a.
Arguments Abort {A} msg.
Arguments OutOfBounds {A}.

#[global] Instance outcome_ret : MRet outcome := fun A a => Done a.
#[global] Instance outcome_bind : MBind outcome := fun A B f x =>
  match x with
  | Done a => f a
  | Abort msg => Abort msg
  | OutOfBounds => OutOfBounds
  end.

(** [ABORT_IF(cond, msg)] *)
Definition ABORT_IF (cond : bool) (msg : string) : outcome unit :=
  if cond then Abort msg else Done tt.

(** The operation touches memory outside a buffer, or finishes with [P]. *)
Definition leaves_or {A} (P : A -> Prop) (e : outcome A) : Prop :=
  e = OutOfBounds \/ exists a, e = Done a /\ P a.

(** ** Machine integers *)

(** [(int)x] : reduction into [-2^31, 2^31). *)
Definition to_int (z : Z) : Z := (z + 2 ^ 31) mod 2 ^ 32 - 2 ^ 31.

(** [(size_t)x] : reduction into [0, 2^64). *)
Definition to_size_t (z : Z) : Z := z mod 2 ^ 64.

(** ** binary32 arithmetic used by the shard size

    [(int)ceil(totalSize / (float)graphs_.size())] converts both operands to
    [float], divides in [float] and takes the ceiling.  A finite float is
    kept as [f32_m * 2 ^ f32_e]; rounding is to nearest, ties to even, on a
    24 bit significand.  The exponent range of binary32 is never reached by
    quotients of an [int] by a [size_t], so it is left out. *)
Module F32.

Record f32 : Type := F32 { f32_m : Z; f32_e : Z }.

(** Nearest integer to [n / d] for [0 <= n], [0 < d], ties to even. *)
Definition rne (n d : Z) : Z :=
  let q := n / d in
  let r := n mod d in
  if 2 * r <? d then q
  else if d <? 2 * r then q + 1
  else if Z.even q then q else q + 1.

(** [floor (log2 (n / d))] for [0 < n], [0 < d]. *)
Definition ilog2_ratio (n d : Z) : Z :=
  let k := Z.log2 n - Z.log2 d in
  if (if 0 <=? k then d * 2 ^ k <=? n else d <=? n * 2 ^ (- k))
  then k else k - 1.

(** The binary32 nearest to [n / d], for [0 < n], [0 < d]. *)
Definition round_pos (n d : Z) : f32 :=
  let e := ilog2_ratio n d - 23 in
  let m := if 0 <=? e then rne n (d * 2 ^ e) else rne (n * 2 ^ (- e)) d in
  F32 m e.

(** The binary32 nearest to [n / d], for [0 < d]. *)
Definition round (n d : Z) : f32 :=
  match n with
  | 0 => F32 0 0
  | Zpos _ => round_pos n d
  | Zneg _ => let r := round_pos (- n) d in F32 (- f32_m r) (f32_e r)
  end.

(** [(float)z] for an integer [z]. *)
Definition of_Z (z : Z) : f32 := round z 1.

(** [a / b] in binary32, for [b] positive. *)
Definition div (a b : f32) : f32 :=
  let s := Z.min (f32_e a) (f32_e b) in
  round (f32_m a * 2 ^ (f32_e a - s)) (f32_m b * 2 ^ (f32_e b - s)).

(** [ceil(a)], as an integer. *)
Definition ceil (a : f32) : Z :=
  if 0 <=? f32_e a then f32_m a * 2 ^ f32_e a
  else - ((- f32_m a) / 2 ^ (- f32_e a)).

(** Two floats denote the same number. *)
Definition same_value (a b : f32) : bool :=
  let s := Z.min (f32_e a) (f32_e b) in
  f32_m a * 2 ^ (f32_e a - s) =? f32_m b * 2 ^ (f32_e b - s).

(** The same computation with the Standard Library's IEEE-754
    specification at precision 24 and maximal exponent 128. *)
Definition of_spec (x : spec_float) : option f32 :=
  match x with
  | S754_zero _ => Some (F32 0 0)
  | S754_finite s m e => Some (F32 (if s then Z.neg m else Z.pos m) e)
  | _ => None
  end.

Definition spec_div (a b : Z) : option f32 :=
  of_spec (SFdiv 24 128 (binary_normalize 24 128 a 0 false)
                        (binary_normalize 24 128 b 0 false)).

Definition agrees_with_spec (a b : Z) : bool :=
  match spec_div a b with
  | Some q => same_value q (div (of_Z a) (of_Z b))
  | None => false
  end.

(** [x] denotes the whole number [v]. *)
Definition int_value (x : f32) (v : Z) : Prop :=
  (f32_e x < 0 /\ f32_m x = v * 2 ^ (- f32_e x)) \/
  (0 <= f32_e x /\ v = f32_m x * 2 ^ f32_e x).

End F32.

(** [(int)ceil(totalSize / (float)n)], with [totalSize] an [int] and [n] a
    [size_t]. *)
Definition shardSize (totalSize n : Z) : Z :=
  to_int (F32.ceil (F32.div (F32.of_Z totalSize) (F32.of_Z n))).

(** The integer the expression is meant to compute. *)
Definition ceil_div (a b : Z) : Z := (a + b - 1) / b.

(** The shards of [Communicator::foreach]: for each iteration of its loop the
    index [idx], the position [pos] handed to [func], and the local [size].
    [n] counts the iterations that remain.  [pos] and [totalSize] stay
    between [0] and the initial [totalSize], so [int] arithmetic does not
    wrap. *)
Fixpoint shards (shardSize : Z) (n idx : nat) (pos totalSize : Z)
    : list (nat * Z * Z) :=
  match n with
  | O => []
  | S n' =>
      let size := Z.min shardSize totalSize in
      (idx, pos, size) :: shards shardSize n' (S idx) (pos + size) (totalSize - size)
  end.

(** Element [k] of the parameter vector lies in the shard [s]. *)
Definition in_shard (s : nat * Z * Z) (k : Z) : Prop :=
  s.1.2 <= k < s.1.2 + s.2.

(** [f] applied to the first [i] elements. *)
Definition upto {A} (i : nat) (f : A -> A) (l : list A) : list A :=
  imap (fun j x => if decide (j < i)%nat then f x else x) l.

(** [f j] applied to element [j], for the first [k] elements. *)
Definition iupto {A} (k : nat) (f : nat -> A -> A) (l : list A) : list A :=
  imap (fun j x => if decide (j < k)%nat then f j x else x) l.

(** ** Tensor elements

    The elements of a tensor are [float]s.  Their arithmetic is kept
    abstract: [Scalar T] lists the operations the program applies to them. *)
Class Scalar (T : Type) : Type := {
  zero : T;
  one : T;
  add : T -> T -> T;
  mul : T -> T -> T;
  sub : T -> T -> T;
  neg : T -> T;
  div : T -> T -> T
}.

(** What exact arithmetic satisfies: the ring laws, and division by a fixed
    divisor is additive.  Rounding is not part of this interface. *)
Class ExactArithmetic (T : Type) `{Scalar T} : Prop := {
  scalar_ring : ring_theory zero one add mul sub neg eq;
  div_add_distr a b c : div (add a b) c = add (div a c) (div b c)
}.

(** Integers, for examples. *)
#[global] Instance Z_scalar : Scalar Z := {|
  zero := 0; one := 1;
  add := Z.add; mul := Z.mul; sub := Z.sub; neg := Z.opp; div := Z.div
|}.

(** The field with two elements, an instance of exact arithmetic that
    computes. *)
#[global] Instance bool_scalar : Scalar bool := {|
  zero := false; one := true;
  add := xorb; mul := andb; sub := xorb; neg := fun b => b; div := andb
|}.

(** Single precision: the elements as the program has them, with the
    arithmetic of the Standard Library's IEEE-754 specification at
    precision 24 and maximal exponent 128.  Every operation rounds. *)
Definition float32 : Type := spec_float.

Definition float32_of_Z (z : Z) : float32 := binary_normalize 24 128 z 0 false.

#[global] Instance float32_scalar : Scalar float32 := {|
  zero := S754_zero false; one := float32_of_Z 1;
  add := SFadd 24 128; mul := SFmul 24 128; sub := SFsub 24 128;
  neg := SFopp; div := SFdiv 24 128
|}.

(** ** The communicator ([Communicator], [DefaultCommunicator]) *)
Section Communicator.
Context {T : Type} `{Scalar T}.

(** What [Ptr<TensorAllocator>::allocate] leaves in a fresh tensor. *)
Variable uninit : T.

(** One replica: [graph->params()->vals()] and [graph->params()->grads()],
    each a flat buffer. *)
Record Graph : Type := { vals : list T; grads : list T }.

(** The buffers a collective call can reach: the two parameter buffers of
    replica [g], the scratch tensor [tmpTensors_[i]], and the tensor
    [params[i]] handed in by the caller. *)
Inductive Buffer : Type :=
| ValsOf (g : nat)
| GradsOf (g : nat)
| TmpOf (i : nat)
| ParamOf (i : nat).

(** The communicator ([graphs_], [tmpTensors_]) together with the tensors
    of the vector [params] that [swapParams] is called with. *)
Record State : Type := {
  graphs_ : list Graph;
  tmpTensors_ : list (list T);
  params : list (list T)
}.

Definition memory (st : State) (b : Buffer) : option (list T) :=
  match b with
  | ValsOf g => vals <$> graphs_ st !! g
  | GradsOf g => grads <$> graphs_ st !! g
  | TmpOf i => tmpTensors_ st !! i
  | ParamOf i => params st !! i
  end.

Definition set_memory (st : State) (b : Buffer) (l : list T) : State :=
  match b with
  | ValsOf g =>
      {| graphs_ := alter (fun gr => {| vals := l; grads := grads gr |}) g (graphs_ st);
         tmpTensors_ := tmpTensors_ st; params := params st |}
  | GradsOf g =>
      {| graphs_ := alter (fun gr => {| vals := vals gr; grads := l |}) g (graphs_ st);
         tmpTensors_ := tmpTensors_ st; params := params st |}
  | TmpOf i =>
      {| graphs_ := graphs_ st; tmpTensors_ := <[i := l]> (tmpTensors_ st);
         params := params st |}
  | ParamOf i =>
      {| graphs_ := graphs_ st; tmpTensors_ := tmpTensors_ st;
         params := <[i := l]> (params st) |}
  end.

(** Modelled from the spec: the tensor class ([tensors/tensor.h]) is not
    part of the sources.  A tensor is a window of [size] elements at
    [offset] into a buffer; [subtensor] is the "sub-range view (offset +
    length -> new tensor sharing memory)" and [copyFrom] the "copy-from" of
    the tensor interface.  A view is plain address arithmetic: nothing is
    checked when it is built, and reading or writing through a window that
    leaves its buffer is [OutOfBounds]. *)
Record Tensor : Type := { buffer : Buffer; offset : Z; size : Z }.

(** The tensor spanning a whole buffer, as in [graphs_[g]->params()->grads()],
    [tmpTensors_[i]] or [params[i]]. *)
Definition tensor (st : State) (b : Buffer) : outcome Tensor :=
  match memory st b with
  | Some l => Done {| buffer := b; offset := 0; size := Z.of_nat (length l) |}
  | None => OutOfBounds
  end.

Definition subtensor (t : Tensor) (pos n : Z) : Tensor :=
  {| buffer := buffer t; offset := offset t + pos; size := n |}.

Definition in_range (off n : Z) (l : list T) : bool :=
  (0 <=? off) && (0 <=? n) && (off + n <=? Z.of_nat (length l)).

(** The elements seen through [t]. *)
Definition data (st : State) (t : Tensor) : outcome (list T) :=
  match memory st (buffer t) with
  | Some l =>
      if in_range (offset t) (size t) l
      then Done (take (Z.to_nat (size t)) (drop (Z.to_nat (offset t)) l))
      else OutOfBounds
  | None => OutOfBounds
  end.

(** Write [v] through [t], starting at its first element. *)
Definition write (st : State) (t : Tensor) (v : list T) : outcome State :=
  match memory st (buffer t) with
  | Some l =>
      if in_range (offset t) (Z.of_nat (length v)) l
      then Done (set_memory st (buffer t) (list_inserts (Z.to_nat (offset t)) v l))
      else OutOfBounds
  | None => OutOfBounds
  end.

(** [dst->copyFrom(src)] copies the [src->size()] elements of [src]. *)
Definition copyFrom (dst src : Tensor) (st : State) : outcome State :=
  v ← data st src; write st dst v.

(** Modelled from the spec: the element-wise kernel ([Element] of
    [tensors/tensor_operators.h], not part of the sources) at the functor
    [_1 = _1 + _2], for two operands with the same number of elements;
    other shapes are not modelled. *)
Definition Element_add (out inp : Tensor) (st : State) : outcome State :=
  a ← data st out;
  b ← data st inp;
  if Z.of_nat (length a) =? Z.of_nat (length b)
  then write st out (zip_with add a b)
  else OutOfBounds.

(** [(int)graphs_[0]->params()->vals()->size()] *)
Definition totalSize (st : State) : outcome Z :=
  match graphs_ st with
  | [] => OutOfBounds
  | g0 :: _ => Done (to_int (Z.of_nat (length (vals g0))))
  end.

(** [graphs_.size()] *)
Definition graphs_size (st : State) : Z := Z.of_nat (length (graphs_ st)).

(** The loop of [Communicator::foreach].  [n] counts the iterations that
    remain; [size], [pos] and [totalSize] are the locals of the source.
    The source starts one thread for every call of [func] and joins them
    all before it returns.  The model runs the calls one after the other,
    in the order the threads are started: one of the schedules, and the
    result of every schedule of whole calls where the calls work on
    disjoint ranges, as the lambdas of this file do when they stay inside
    their shard.  A call that leaves its tensors makes the whole operation
    undefined, and the model stops there. *)
Fixpoint foreach_loop (func : nat -> Z -> State -> outcome State)
    (shardSize : Z) (n idx : nat) (pos totalSize : Z) (st : State)
    : outcome State :=
  match n with
  | O => Done st
  | S n' =>
      let size := Z.min shardSize totalSize in
      st' ← func idx pos st;
      foreach_loop func shardSize n' (S idx) (pos + size) (totalSize - size) st'
  end.

Definition foreach (func : nat -> Z -> State -> outcome State) (st : State)
    : outcome State :=
  total ← totalSize st;
  foreach_loop func (shardSize total (graphs_size st))
               (length (graphs_ st)) 0 0 total st.

(** [for(auto graph : graphs_) body], with the position of [graph] in
    [graphs_]; the replicas are distinct objects, so [graph != graphs_[idx]]
    compares positions. *)
Fixpoint for_graphs (body : nat -> State -> outcome State) (n j : nat)
    (st : State) : outcome State :=
  match n with
  | O => Done st
  | S n' => st' ← body j st; for_graphs body n' (S j) st'
  end.

(** The loop of [DefaultCommunicator::init]. *)
Fixpoint init_loop (shardSize : Z) (n : nat) (pos totalSize : Z)
    (tmp : list (list T)) : list (list T) :=
  match n with
  | O => tmp
  | S n' =>
      let size__ := Z.min shardSize totalSize in
      init_loop shardSize n' (pos + size__) (totalSize - size__)
                (tmp ++ [replicate (Z.to_nat size__) uninit])
  end.

Definition init (st : State) : outcome State :=
  if Nat.eqb (length (tmpTensors_ st)) 0 then
    total ← totalSize st;
    Done {| graphs_ := graphs_ st;
            tmpTensors_ := init_loop (shardSize total (graphs_size st))
                             (length (graphs_ st)) 0 total (tmpTensors_ st);
            params := params st |}
  else Done st.

Definition scatter (shardSize : Z) (idx : nat) (pos : Z) (st : State)
    : outcome State :=
  g ← tensor st (GradsOf idx);
  let curGrad := subtensor g pos shardSize in
  for_graphs (fun j st =>
    if decide (j ≠ idx) then
      g' ← tensor st (GradsOf j);
      let subGrad := subtensor g' pos shardSize in
      tmp ← tensor st (TmpOf idx);
      st1 ← copyFrom tmp subGrad st;
      Element_add curGrad tmp st1
    else Done st) (length (graphs_ st)) 0 st.

Definition scatterReduce (st : State) : outcome State :=
  st ← init st;
  total ← totalSize st;
  foreach (scatter (shardSize total (graphs_size st))) st.

Definition getShard (is_vals : bool) (j : nat) (pos shardSize : Z) (st : State)
    : outcome Tensor :=
  t ← tensor st (if is_vals then ValsOf j else GradsOf j);
  Done (subtensor t pos shardSize).

Definition gather (shardSize : Z) (is_vals : bool) (idx : nat) (pos : Z)
    (st : State) : outcome State :=
  curShard ← getShard is_vals idx pos shardSize st;
  for_graphs (fun j st =>
    if decide (j ≠ idx) then
      subShard ← getShard is_vals j pos shardSize st;
      copyFrom subShard curShard st
    else Done st) (length (graphs_ st)) 0 st.

Definition allGather (is_vals : bool) (st : State) : outcome State :=
  total ← totalSize st;
  foreach (gather (shardSize total (graphs_size st)) is_vals) st.

Definition allReduceGrads (st : State) : outcome State :=
  if 1 <? graphs_size st then
    st ← scatterReduce st; allGather false st
  else Done st.

Definition reduceGrads (root : Z) (st : State) : outcome State :=
  allReduceGrads st.

(** The loop [for(int i = 0; i < (int)graphs_.size() - 1; ++i)] of
    [swapParams]; [n] counts the iterations that remain. *)
Fixpoint swap_loop (p : Tensor) (pos : Z) (n i : nat) (st : State)
    : outcome State :=
  match n with
  | O => Done st
  | S n' =>
      v ← tensor st (ValsOf i);
      let subParam := subtensor v pos (to_int (size p)) in
      st' ← copyFrom subParam p st;
      swap_loop p pos n' (S i) st'
  end.

Definition swap (idx : nat) (pos : Z) (st : State) : outcome State :=
  p ← tensor st (ParamOf idx);
  st1 ← swap_loop p pos (Z.to_nat (to_int (graphs_size st) - 1)) 0 st;
  last ← tensor st1 (ValsOf (length (graphs_ st1) - 1));
  let subParamLast := subtensor last pos (to_int (size p)) in
  st2 ← copyFrom p subParamLast st1;
  first ← tensor st2 (ValsOf 0);
  let subParamFirst := subtensor first pos (to_int (size p)) in
  copyFrom subParamLast subParamFirst st2.

(** [swapParams(params)].  The vector holds pointers to the caller's
    tensors, which the call overwrites: they are the [params] of the state
    that is returned. *)
Definition swapParams (shards : list (list T)) (st : State) : outcome State :=
  ABORT_IF (graphs_size st <? 2) "Swap requires at least two graphs";;
  foreach swap {| graphs_ := graphs_ st; tmpTensors_ := tmpTensors_ st;
                  params := shards |}.

(** The [n] elements of [l] from position [pos] on. *)
Definition slice (pos n : Z) (l : list T) : list T :=
  take (Z.to_nat n) (drop (Z.to_nat pos) l).

(** The replica with other parameter values, or other gradients. *)
Definition with_vals (l : list T) (g : Graph) : Graph :=
  {| vals := l; grads := grads g |}.
Definition with_grads (l : list T) (g : Graph) : Graph :=
  {| vals := vals g; grads := l |}.

Definition set_graphs (st : State) (gs : list Graph) : State :=
  {| graphs_ := gs; tmpTensors_ := tmpTensors_ st; params := params st |}.

(** The parameter values or the gradients of a replica, as [getShard]
    chooses. *)
Definition field (is_vals : bool) (g : Graph) : list T :=
  if is_vals then vals g else grads g.
Definition with_field (is_vals : bool) (l : list T) (g : Graph) : Graph :=
  if is_vals then with_vals l g else with_grads l g.
Definition FieldOf (is_vals : bool) (j : nat) : Buffer :=
  if is_vals then ValsOf j else GradsOf j.

(** What a copy does to a replica: [P] goes to position [pos]. *)
Definition put (is_vals : bool) (pos : Z) (P : list T) (g : Graph) : Graph :=
  with_field is_vals (list_inserts (Z.to_nat pos) P (field is_vals g)) g.

(** The replica whose first [length C] values are [C]. *)
Definition filled (is_vals : bool) (C : list T) (g : Graph) : Graph :=
  with_field is_vals (C ++ drop (length C) (field is_vals g)) g.

(** What [allGather] collects from position [pos] on: [n] shards of
    [shardSize] elements, shard [idx] from replica [idx], and so on. *)
Fixpoint gathered (is_vals : bool) (shardSize : Z) (gs : list Graph)
    (n idx : nat) (pos : Z) : list T :=
  match n with
  | O => []
  | S n' =>
      match gs !! idx with
      | Some g => slice pos shardSize (field is_vals g)
      | None => []
      end ++ gathered is_vals shardSize gs n' (S idx) (pos + shardSize)
  end.

(** What the loop of [scatter] leaves in [curGrad]: [acc] with the shard of
    every replica but [idx] added to it, in the order of [graphs_]; [j] is
    the position of the first replica of [gs]. *)
Fixpoint reduce_loop (shardSize pos : Z) (idx : nat) (acc : list T)
    (gs : list Graph) (j : nat) : list T :=
  match gs with
  | [] => acc
  | g :: gs' =>
      reduce_loop shardSize pos idx
        (if decide (j ≠ idx)
         then zip_with add acc (slice pos shardSize (grads g))
         else acc)
        gs' (S j)
  end.

(** Shard [idx] of replica [g], the replica at [idx], after [scatter]. *)
Definition reduced (shardSize : Z) (gs : list Graph) (idx : nat) (g : Graph)
    : list T :=
  let pos := Z.of_nat idx * shardSize in
  reduce_loop shardSize pos idx (slice pos shardSize (grads g)) gs 0.

(** The replica at [idx] after [scatterReduce], when every shard has
    [shardSize] elements. *)
Definition scattered (shardSize : Z) (gs : list Graph) (idx : nat) (g : Graph)
    : Graph :=
  put false (Z.of_nat idx * shardSize) (reduced shardSize gs idx g) g.

(** Gradient [k] of a replica, and the sum of the gradients [k] of all the
    replicas. *)
Definition grad_at (k : nat) (g : Graph) : T := default zero (grads g !! k).

Definition grad_sum (gs : list Graph) (k : nat) : T :=
  foldr (fun g s => add (grad_at k g) s) zero gs.

(** [tmpTensors_] is still empty, or holds one tensor of [shardSize] elements
    for each of the [n] replicas. *)
Definition tmp_ready (shardSize : Z) (n : nat) (tmp : list (list T)) : Prop :=
  tmp = [] \/
  (length tmp = n /\ Forall (fun t => Z.of_nat (length t) = shardSize) tmp).

(** The caller's tensors have the sizes of the shards. *)
Definition shard_sized (sh : list (nat * Z * Z)) (Ps : list (list T)) : Prop :=
  Forall2 (fun s P => Z.of_nat (length P) = s.2) sh Ps.

(** Every replica holds [total] parameter values and [total] gradients. *)
Definition uniform (total : Z) (gs : list Graph) : Prop :=
  Forall (fun g => Z.of_nat (length (vals g)) = total /\
                   Z.of_nat (length (grads g)) = total) gs.

(** [n] replicas of [total] parameter values and gradients each. *)
Definition shaped (total : Z) (n : nat) (st : State) : Prop :=
  uniform total (graphs_ st) /\ length (graphs_ st) = n.

(** The lambda [copy] of [pushParams]: shard [idx] of replica [idx] goes to
    [params[idx]]. *)
Definition push (idx : nat) (pos : Z) (st : State) : outcome State :=
  p ← tensor st (ParamOf idx);
  v ← tensor st (ValsOf idx);
  let subParam := subtensor v pos (to_int (size p)) in
  copyFrom p subParam st.

(** [pushParams(params)]; as for [swapParams], the caller's tensors are the
    [params] of the state. *)
Definition pushParams (shards : list (list T)) (st : State) : outcome State :=
  foreach push {| graphs_ := graphs_ st; tmpTensors_ := tmpTensors_ st;
                  params := shards |}.

(** The lambda [gather] of [pullParams]: [params[idx]] goes to every
    replica. *)
Definition pull (idx : nat) (pos : Z) (st : State) : outcome State :=
  for_graphs (fun j st =>
    p ← tensor st (ParamOf idx);
    v ← tensor st (ValsOf j);
    let subParam := subtensor v pos (to_int (size p)) in
    copyFrom subParam p st) (length (graphs_ st)) 0 st.

Definition pullParams (shards : list (list T)) (st : State) : outcome State :=
  foreach pull {| graphs_ := graphs_ st; tmpTensors_ := tmpTensors_ st;
                  params := shards |}.

(** [func] called for each shard of a list, first to last. *)
Fixpoint run_shards (func : nat -> Z -> State -> outcome State)
    (sh : list (nat * Z * Z)) (st : State) : outcome State :=
  match sh with
  | [] => Done st
  | s :: sh' => st' ← func s.1.1 s.1.2 st; run_shards func sh' st'
  end.

(** What the call of the lambda of [pullParams] for shard [s] does to the
    replicas, the caller's tensors being [Ps]. *)
Definition pulled (Ps : list (list T)) (s : nat * Z * Z) (gs : list Graph)
    : list Graph :=
  put true s.1.2 (default [] (Ps !! s.1.1)) <$> gs.

(** Shard [s] of the parameter values of the replica it belongs to. *)
Definition own_shard (gs : list Graph) (s : nat * Z * Z) : list T :=
  match gs !! s.1.1 with
  | Some g => slice s.1.2 s.2 (vals g)
  | None => []
  end.


End Communicator.

Arguments Graph T : clear implicits.
Arguments State T : clear implicits.

(** Two replicas of two parameters each, for examples. *)
Definition two_replicas : State Z :=
  {| graphs_ := [ {| vals := [1; 2]; grads := [0; 0] |};
                  {| vals := [3; 4]; grads := [0; 0] |} ];
     tmpTensors_ := []; params := [] |}.

(** Two replicas of two parameters each, with gradients. *)
Definition even_replicas : State Z :=
  {| graphs_ := [ {| vals := [1; 2]; grads := [1; 2] |};
                  {| vals := [3; 4]; grads := [10; 20] |} ];
     tmpTensors_ := []; params := [] |}.

(** Two replicas over the field with two elements. *)
Definition bool_replicas : State bool :=
  {| graphs_ := [ {| vals := [true; false]; grads := [true; true] |};
                  {| vals := [false; false]; grads := [true; false] |} ];
     tmpTensors_ := []; params := [] |}.

(** Two replicas of three parameters each: the shards have two elements and
    one. *)
Definition uneven_replicas : State Z :=
  {| graphs_ := [ {| vals := [1; 2; 3]; grads := [1; 2; 3] |};
                  {| vals := [4; 5; 6]; grads := [10; 20; 30] |} ];
     tmpTensors_ := []; params := [] |}.

(** [DefaultCommunicator(graphs, mpi)]: [mpi] is [None] for [nullptr]. *)
Inductive IMPIWrapper : Type := MPIWrapper (myRank commWorldSize : Z).

Definition DefaultCommunicator {T} (graphs : list (Graph T))
    (mpi : option IMPIWrapper) : outcome (State T) :=
  ABORT_IF (bool_decide (mpi ≠ None))
    "DefaultCommunicator support for MPI is not yet implemented";;
  Done {| graphs_ := graphs; tmpTensors_ := []; params := [] |}.

(** ** [TMatrix<T>] of [gpu/mblas/matrix.h] *)

(** Whether the device has room for a new [DeviceVector] of [n] elements.
    [new VecType(n)] throws when it has not ([std::length_error] beyond the
    largest size of a vector, the allocator's [bad_alloc] otherwise); the
    sources do not say when, so the answer is a parameter of the model. *)
Class Allocator : Type := allocates : Z -> bool.

(** A device that has room for every vector, and one with room for vectors
    of at most [max] elements, for examples. *)
Definition unlimited : Allocator := fun _ => true.
Definition limited (max : Z) : Allocator := fun n => n <=? max.

Module TMatrix.
Section TMatrix.
Context {T : Type} `{Scalar T} {device : Allocator}.

(** [data_] is [None] for [nullptr]; a [DeviceVector] is the list of its
    elements. *)
Record TMatrix : Type := {
  rows_ : Z;
  cols_ : Z;
  arrSize_ : Z;
  data_ : option (list T)
}.

(** An exception thrown by the allocation leaves the member function at
    once, before any member is assigned; it is reported as [Abort]. *)
Definition alloc_failure {A} : outcome A := Abort "allocation failed".

(** [new VecType(n)]: [n] value-initialised elements, or the exception. *)
Definition VecType (n : Z) : outcome (list T) :=
  if allocates n then Done (replicate (Z.to_nat n) zero) else alloc_failure.

(** [new VecType(v)]: a copy of the vector [v], or the exception. *)
Definition VecType_copy (v : list T) : outcome (list T) :=
  if allocates (Z.of_nat (length v)) then Done v else alloc_failure.

Definition Rows (m : TMatrix) : Z := rows_ m.
Definition Cols (m : TMatrix) : Z := cols_ m.

(** [size()] is [cols_ * rows_] in [size_t]. *)
Definition size (m : TMatrix) : Z := to_size_t (cols_ m * rows_ m).

(** [TMatrix()] *)
Definition empty : TMatrix :=
  {| rows_ := 0; cols_ := 0; arrSize_ := 0; data_ := None |}.

(** [TMatrix(rows, cols, zero)]; both branches of [if (zero)] give zeroes. *)
Definition make (rows cols : Z) : outcome TMatrix :=
  let n := to_size_t (cols * rows) in
  d ← VecType n;
  Done {| rows_ := rows; cols_ := cols; arrSize_ := n; data_ := Some d |}.

(** [thrust::copy(src.begin(), src.begin() + n, dst.begin())] *)
Definition copy (src : list T) (n : Z) (dst : list T) : outcome (list T) :=
  if (0 <=? n) && (n <=? Z.of_nat (length src)) && (n <=? Z.of_nat (length dst))
  then Done (take (Z.to_nat n) src ++ drop (Z.to_nat n) dst)
  else OutOfBounds.

Definition Resize (rows cols : Z) (m : TMatrix) : outcome TMatrix :=
  m' ← match data_ m with
       | Some d =>
           if arrSize_ m <? to_size_t (rows * cols) then
             newData ← VecType (to_size_t (rows * cols));
             newData' ← copy d (size m) newData;
             Done {| rows_ := rows_ m; cols_ := cols_ m;
                     arrSize_ := to_size_t (rows * cols);
                     data_ := Some newData' |}
           else Done m
       | None =>
           newData ← VecType (to_size_t (rows * cols));
           Done {| rows_ := rows_ m; cols_ := cols_ m;
                   arrSize_ := to_size_t (rows * cols);
                   data_ := Some newData |}
       end;
  Done {| rows_ := rows; cols_ := cols;
          arrSize_ := arrSize_ m'; data_ := data_ m' |}.

Definition Reshape (rows cols : Z) (m : TMatrix) : TMatrix :=
  {| rows_ := rows; cols_ := cols; arrSize_ := arrSize_ m; data_ := data_ m |}.

(** A [size_t] value. *)
Definition is_size_t (z : Z) : Prop := 0 <= z < 2 ^ 64.

(** [Clear()] *)
Definition Clear (m : TMatrix) : TMatrix :=
  {| rows_ := 0; cols_ := 0; arrSize_ := 0; data_ := None |}.

(** [swap(other)]: this matrix and [other] afterwards. *)
Definition swap (m other : TMatrix) : TMatrix * TMatrix := (other, m).

(** [TMatrix(TMatrix&& m)]: the new matrix, and [m] afterwards. *)
Definition move (m : TMatrix) : TMatrix * TMatrix := swap empty m.

(** [TMatrix(const TMatrix& m)].  The members are initialised in the order
    [rows_], [cols_], [arrSize_], [data_], so [arrSize_(size())] sees the
    new counts.  [*m.data_] on a null [data_] is undefined; it is reported
    as [OutOfBounds]. *)
Definition copy_of (m : TMatrix) : outcome TMatrix :=
  match data_ m with
  | Some d =>
      d' ← VecType_copy d;
      Done {| rows_ := rows_ m; cols_ := cols_ m;
              arrSize_ := to_size_t (cols_ m * rows_ m);
              data_ := Some d' |}
  | None => OutOfBounds
  end.

(** The element count does not exceed the recorded capacity, and the
    recorded capacity does not exceed the buffer.  Every member function
    keeps the second part; [Reshape] can break the first. *)
Definition sound (m : TMatrix) : Prop :=
  match data_ m with
  | Some d => size m <= arrSize_ m <= Z.of_nat (length d)
  | None => True
  end.

(** The capacity is that of the buffer, as the members assign it:
    [arrSize_] is set together with [data_], to the size of the new vector
    or to 0 with the null pointer. *)
Definition capacity_recorded (m : TMatrix) : Prop :=
  match data_ m with
  | Some d => arrSize_ m <= Z.of_nat (length d)
  | None => arrSize_ m = 0
  end.

End TMatrix.
Arguments TMatrix T : clear implicits.
End TMatrix.

(** ** Shapes

    Modelled from the spec: the [Shape] class is not part of the sources.  A
    shape is the list of its extents, outermost first; [elements] is their
    product; an index outside [[0, rank)] is not modelled ([OutOfBounds]). *)
Definition Shape : Type := list Z.

Definition elements (s : Shape) : Z := foldr Z.mul 1 s.

(** [v[i]] for a [std::vector] or a [Shape] and an [int] or [size_t] index. *)
Definition at_ {A} (v : list A) (i : Z) : outcome A :=
  if 0 <=? i then
    match v !! Z.to_nat i with
    | Some a => Done a
    | None => OutOfBounds
    end
  else OutOfBounds.

(** [v[i] = a], or [shape.set(i, a)]. *)
Definition set_at {A} (v : list A) (i : Z) (a : A) : outcome (list A) :=
  if (0 <=? i) && (i <? Z.of_nat (length v))
  then Done (<[Z.to_nat i := a]> v)
  else OutOfBounds.

(** ** [TransposeNodeOp] *)
Module TransposeNodeOp.

(** The loop of [newShape]: [shape.set(i, a->shape()[axes[i]])]; [n] counts
    the iterations that remain. *)
Fixpoint newShape_loop (a_shape : Shape) (axes : list Z) (n : nat) (i : Z)
    (shape : Shape) : outcome Shape :=
  match n with
  | O => Done shape
  | S n' =>
      ax ← at_ axes i;
      d ← at_ a_shape ax;
      shape' ← set_at shape i d;
      newShape_loop a_shape axes n' (i + 1) shape'
  end.

Definition newShape (a_shape : Shape) (axes : list Z) : outcome Shape :=
  let shape := a_shape in
  ABORT_IF (negb (Nat.eqb (length shape) (length axes)))
    "Shape and transpose axes have different number of dimensions";;
  newShape_loop a_shape axes (length shape) 0 shape.

(** The loop of the constructor: [axesBw_[axes_[i]] = i]. *)
Fixpoint axesBw_loop (axes_ : list Z) (n : nat) (i : Z) (axesBw_ : list Z)
    : outcome (list Z) :=
  match n with
  | O => Done axesBw_
  | S n' =>
      ax ← at_ axes_ i;
      axesBw' ← set_at axesBw_ ax i;
      axesBw_loop axes_ n' (i + 1) axesBw'
  end.

Record TransposeNodeOp : Type := {
  shape : Shape;
  axes_ : list Z;
  axesBw_ : list Z
}.

(** [TransposeNodeOp(a, axes)], with [a] given by its shape. *)
Definition new (a_shape : Shape) (axes : list Z) : outcome TransposeNodeOp :=
  shape ← newShape a_shape axes;
  axesBw ← axesBw_loop axes (length axes) 0 (replicate (length axes) 0);
  Done {| shape := shape; axes_ := axes; axesBw_ := axesBw |}.

(** Every axis names a dimension of the child. *)
Definition axes_in_range (rank : nat) (axes : list Z) : Prop :=
  Forall (fun ax => 0 <= ax < Z.of_nat rank) axes.

End TransposeNodeOp.

(** ** Node operators with a backward pass

    The functions of [functional/functional.h] that the functors of this file
    apply, and the [float] constants they mention.  The header is not part of
    the sources; its functions are parameters.  [float_2] and [float_0_5]
    are the literals [2.f] and [0.5f], [of_int] the conversion of an [int]. *)
Class Functional (T : Type) : Type := {
  sigmoid : T -> T;
  bump : T -> T -> T;
  ReLUback : T -> T;
  PReLUback : T -> T -> T;
  exp : T -> T;
  float_2 : T;
  float_0_5 : T;
  of_int : Z -> T
}.

(** An instance over the field with two elements, for examples. *)
#[global] Instance bool_functional : Functional bool := {|
  sigmoid := fun b => b; bump := andb; ReLUback := fun b => b;
  PReLUback := orb; exp := fun _ => true; float_2 := false; float_0_5 := true;
  of_int := Z.odd
|}.

(** Single precision.  The comparisons and constants are computed; the
    transcendental functions [sigmoid] and [exp] are not, and are arguments
    of the instance. *)
Definition float32_functional (sigmoid exp : float32 -> float32)
    : Functional float32 := {|
  sigmoid := sigmoid;
  bump := fun x c => if SFltb (SFabs x) c then float32_of_Z 1 else S754_zero false;
  ReLUback := fun x => if SFltb (S754_zero false) x then float32_of_Z 1
                       else S754_zero false;
  PReLUback := fun x alpha => if SFltb (S754_zero false) x then float32_of_Z 1
                              else alpha;
  exp := exp;
  float_2 := float32_of_Z 2;
  float_0_5 := SFdiv 24 128 (float32_of_Z 1) (float32_of_Z 2);
  of_int := float32_of_Z
|}.

(** The instance for examples with operators that apply neither [sigmoid]
    nor [exp]: both are the identity here. *)
#[global] Instance float32_plain : Functional float32 :=
  float32_functional (fun x => x) (fun x => x).

Module NodeOps.
Section NodeOps.
Context {T : Type} `{Scalar T} `{Functional T}.

(** A child expression: [shape()], [val()] and [grad()]. *)
Record Expr : Type := {
  shape : Shape;
  val : list T;
  grad : list T
}.

(** The node itself.  [children_] holds the children as positions in the
    list of all expressions of the graph, so that one expression can be a
    child twice. *)
Record Node : Type := {
  shape_ : Shape;
  val_ : list T;
  adj_ : list T;
  children_ : list nat
}.

(** The tensors a backward functor reads. *)
Inductive Operand : Type :=
| Adj
| Val
| ChildVal (i : nat).

(** [NodeOp(Add(functor, scale, child(target)->grad(), operands...))].  The
    functor gets the elements of the operands at one position, [_1] first. *)
Record NodeOp : Type := {
  target : nat;
  functor : list T -> T;
  scale : option T;
  operands : list Operand
}.

(** The operators of the file whose [backwardOps] are written with [Add]. *)
Inductive Kind : Type :=
| ScalarAddNodeOp (scalar_ : T)
| ScalarMultNodeOp (scalar_ : T)
| ClipNodeOp (clip_ : T)
| SigmoidNodeOp
| TanhNodeOp
| ReLUNodeOp
| PReLUNodeOp (alpha_ : T)
| SwishNodeOp
| SumNodeOp
| MeanNodeOp
| LogNodeOp
| ExpNodeOp
| SqrtNodeOp (epsilon_ : T)
| SquareNodeOp
| NegNodeOp.

(** [_1], [_2], [_3] of a functor. *)
Definition arg (i : nat) (args : list T) : T := default zero (args !! i).
Notation "'_1'" := (arg 0).
Notation "'_2'" := (arg 1).
Notation "'_3'" := (arg 2).

Definition unary (f : list T -> T) (ops : list Operand) : list NodeOp :=
  [{| target := 0; functor := f; scale := None; operands := ops |}].

(** [child(i)], with the expressions [graph] of the graph. *)
Definition child (node : Node) (graph : list Expr) (i : nat) : outcome Expr :=
  match children_ node !! i with
  | Some id =>
      match graph !! id with
      | Some e => Done e
      | None => OutOfBounds
      end
  | None => OutOfBounds
  end.

(** [backwardOps()] of each operator.  The [int] division by zero in
    [MeanNodeOp], undefined like an access outside a buffer, is reported as
    [OutOfBounds]. *)
Definition backwardOps (k : Kind) (node : Node) (graph : list Expr)
    : outcome (list NodeOp) :=
  match k with
  | ScalarAddNodeOp _ =>
      Done (unary (fun a => _1 a) [Adj])
  | ScalarMultNodeOp scalar_ =>
      Done (unary (fun a => mul scalar_ (_1 a)) [Adj])
  | ClipNodeOp clip_ =>
      Done (unary (fun a => mul (bump (_1 a) clip_) (_2 a)) [ChildVal 0; Adj])
  | SigmoidNodeOp =>
      Done (unary (fun a => mul (mul (_1 a) (_2 a)) (sub one (_2 a))) [Adj; Val])
  | TanhNodeOp =>
      Done ((fun i =>
               {| target := i;
                  functor := fun a => mul (_1 a) (sub one (mul (_2 a) (_2 a)));
                  scale := None;
                  operands := [Adj; Val] |})
            <$> seq 0 (length (children_ node)))
  | ReLUNodeOp =>
      Done (unary (fun a => mul (_1 a) (ReLUback (_2 a))) [Adj; ChildVal 0])
  | PReLUNodeOp alpha_ =>
      Done (unary (fun a => mul (_1 a) (PReLUback (_2 a) alpha_))
                  [Adj; ChildVal 0])
  | SwishNodeOp =>
      Done (unary (fun a => mul (_1 a)
                              (add (_3 a) (mul (sigmoid (_2 a)) (sub one (_3 a)))))
                  [Adj; ChildVal 0; Val])
  | SumNodeOp =>
      Done (unary (fun a => _1 a) [Adj])
  | MeanNodeOp =>
      c ← child node graph 0;
      if elements (shape_ node) =? 0 then OutOfBounds
      else
        let left := to_int (elements (shape c) `quot` elements (shape_ node)) in
        let scale := div one (of_int left) in
        Done [{| target := 0; functor := fun a => _1 a; scale := Some scale;
                 operands := [Adj] |}]
  | LogNodeOp =>
      Done (unary (fun a => div (_1 a) (_2 a)) [Adj; ChildVal 0])
  | ExpNodeOp =>
      Done (unary (fun a => mul (_1 a) (exp (_2 a))) [Adj; ChildVal 0])
  | SqrtNodeOp _ =>
      Done (unary (fun a => mul (mul float_0_5 (div one (_1 a))) (_2 a)) [Val; Adj])
  | SquareNodeOp =>
      Done (unary (fun a => mul (mul float_2 (_1 a)) (_2 a)) [ChildVal 0; Adj])
  | NegNodeOp =>
      Done (unary (fun a => neg (_1 a)) [Adj])
  end.

(** The tensor an operand stands for, with its shape. *)
Definition operand (node : Node) (graph : list Expr) (o : Operand)
    : outcome (Shape * list T) :=
  match o with
  | Adj => Done (shape_ node, adj_ node)
  | Val => Done (shape_ node, val_ node)
  | ChildVal i => c ← child node graph i; Done (shape c, val c)
  end.

(** Modelled from the spec: the kernel [Add] of
    [tensors/tensor_operators.h] and [Shape::broadcast] are not part of the
    sources.  [Add] is the kernel of the kernel interface that applies a
    scalar expression "across tensor elements with broadcasting", used for
    "grad += ...".  The functor is applied at every position of the
    broadcast shape, the shape that has on every axis the largest extent of
    the output and the inputs; a tensor with extent 1 on an axis is read at
    index 0 along it ([bindex]).  Element [j] of the output gets added the
    sum, scaled, of the functor over the positions that fall on it: one
    position where the output has the broadcast shape, and a reduction
    along the axes where its extent is 1.  Tensors of different ranks are
    not modelled. *)
Definition broadcast (a b : Shape) : Shape := zip_with Z.max a b.

(** Modelled from the spec: the broadcast shape of a call of [Add], over
    the output and the inputs. *)
Definition full_shape (out_shape : Shape) (ins : list (Shape * list T))
    : Shape :=
  foldr (fun i s => broadcast i.1 s) out_shape ins.

(** Modelled from the spec: the position in a tensor of shape [shp] that
    position [k] of the broadcast shape [full] falls on. *)
Fixpoint bindex (full shp : Shape) (k : Z) : Z :=
  match full, shp with
  | _ :: full', s :: shp' =>
      (if s =? 1 then 0 else k / elements full' * elements shp')
      + bindex full' shp' (k mod elements full')
  | _, _ => 0
  end.

(** Modelled from the spec: the positions of [full] that fall on element
    [j] of the output. *)
Definition positions (full out_shape : Shape) (j : nat) : list nat :=
  filter (fun i => bindex full out_shape (Z.of_nat i) = Z.of_nat j)
         (seq 0 (Z.to_nat (elements full))).

(** The sum of the elements of a list, from the left. *)
Definition sum (l : list T) : T :=
  match l with
  | [] => zero
  | x :: l' => foldl add x l'
  end.

Definition scaled (scale : option T) (x : T) : T :=
  match scale with
  | Some s => mul x s
  | None => x
  end.

(** Modelled from the spec: the functor at position [i] of the broadcast
    shape. *)
Definition value_at (f : list T -> T) (full : Shape)
    (ins : list (Shape * list T)) (i : nat) : outcome T :=
  args ← mapM (fun '(shp, l) => at_ l (bindex full shp (Z.of_nat i))) ins;
  Done (f args).

(** Modelled from the spec: what [Add] adds to element [j] of the
    output. *)
Definition contribution_at (f : list T -> T) (scale : option T)
    (full out_shape : Shape) (ins : list (Shape * list T)) (j : nat)
    : outcome T :=
  xs ← mapM (value_at f full ins) (positions full out_shape j);
  Done (scaled scale (sum xs)).

(** Modelled from the spec: what [Add] adds to the output, element by
    element. *)
Definition contribution (f : list T -> T) (scale : option T)
    (out_shape : Shape) (ins : list (Shape * list T)) : outcome (list T) :=
  mapM (contribution_at f scale (full_shape out_shape ins) out_shape ins)
       (seq 0 (Z.to_nat (elements out_shape))).

(** Modelled from the spec: [Add(functor, [scale,] out, in...)], the
    contribution added to the output ("grad += ..."). *)
Definition Add (f : list T -> T) (scale : option T) (out_shape : Shape)
    (out : list T) (ins : list (Shape * list T)) : outcome (list T) :=
  K ← contribution f scale out_shape ins;
  if Nat.eqb (length out) (length K)
  then Done (zip_with add out K)
  else OutOfBounds.

(** Modelled from the spec: one [NodeOp] of the list, run.  The macro
    [NodeOp] and [Node::runBackward] are not part of the sources; the
    operation is the call of [Add] it wraps, on the tensors of the node and
    of its children as they are when it runs. *)
Definition runOp (node : Node) (graph : list Expr) (op : NodeOp)
    : outcome (list Expr) :=
  match children_ node !! target op with
  | Some id =>
      match graph !! id with
      | Some c =>
          ins ← mapM (operand node graph) (operands op);
          g ← Add (functor op) (scale op) (shape c) (grad c) ins;
          Done (<[id := {| shape := shape c; val := val c; grad := g |}]> graph)
      | None => OutOfBounds
      end
  | None => OutOfBounds
  end.

(** Modelled from the spec: [runBackward(ops)], the operations one after
    the other. *)
Fixpoint runBackward (node : Node) (ops : list NodeOp) (graph : list Expr)
    : outcome (list Expr) :=
  match ops with
  | [] => Done graph
  | op :: ops' => graph' ← runOp node graph op; runBackward node ops' graph'
  end.

(** [backward()] of an operator of kind [k]. *)
Definition backward (k : Kind) (node : Node) (graph : list Expr)
    : outcome (list Expr) :=
  ops ← backwardOps k node graph;
  runBackward node ops graph.

(** What one [NodeOp] adds, and to which expression: the second half of
    [runOp] without the update. *)
Definition op_contribution (node : Node) (graph : list Expr) (op : NodeOp)
    : outcome (nat * list T) :=
  match children_ node !! target op with
  | Some id =>
      match graph !! id with
      | Some c =>
          ins ← mapM (operand node graph) (operands op);
          K ← contribution (functor op) (scale op) (shape c) ins;
          if Nat.eqb (length (grad c)) (length K)
          then Done (id, K) else OutOfBounds
      | None => OutOfBounds
      end
  | None => OutOfBounds
  end.


(** [K] added, element by element, to the gradient of expression [id]. *)
Definition accumulate (graph : list Expr) (c : nat * list T) : list Expr :=
  alter (fun e => {| shape := shape e; val := val e;
                     grad := zip_with add (grad e) c.2 |}) c.1 graph.

(** Two graphs with the same shapes and values; the gradients may differ. *)
Definition same_values (g1 g2 : list Expr) : Prop :=
  Forall2 (fun e1 e2 => shape e1 = shape e2 /\ val e1 = val e2 /\
                        length (grad e1) = length (grad e2)) g1 g2.










(** [SumNodeOp::newShape] and [MeanNodeOp::newShape], which are the same
    code: the shape of [a] with the extent of the axis set to 1.
    [axis_ = shape.axis(axis)] is taken as it is: [Shape::axis] is not part
    of the sources. *)
Definition newShape (a_shape : Shape) (axis_ : Z) : outcome Shape :=
  set_at a_shape axis_ 1.

(** Element [j] of the tensor an operand stands for, in a node whose
    children are all [c]. *)
Definition operand_value (node : Node) (c : Expr) (j : nat) (o : Operand) : T :=
  default zero (match o with
                | Adj => adj_ node
                | Val => val_ node
                | ChildVal _ => val c
                end !! j).

(** The [n] elements a [NodeOp] adds when its operands have the shape of
    its output: element [j] is the functor at the elements [j] of the
    operands, scaled. *)
Definition elementwise (node : Node) (c : Expr) (op : NodeOp) (n : nat)
    : list T :=
  (fun j => scaled (scale op)
                   (functor op (operand_value node c j <$> operands op)))
    <$> seq 0 n.



End NodeOps.
Arguments Expr T : clear implicits.
Arguments Node T : clear implicits.
Arguments Kind T : clear implicits.
Arguments NodeOp T : clear implicits.
End NodeOps.

(** ** [PoolingWithMaskingOp]: the shape *)
Module PoolingWithMaskingOp.

(** The constructor's [shape_ = {dimBatch, dimWord, dimSentence}], in [int]
    arithmetic.  Division by zero, and the division of the least [int] by
    -1, undefined like an access outside a buffer, are reported as
    [OutOfBounds]. *)
Definition new_shape (xShape : Shape) (width_ : Z) (isEven_ : bool)
    : outcome Shape :=
  dimBatch ← at_ xShape 0;
  dimWord ← at_ xShape 1;
  x2 ← at_ xShape 2;
  let cols := if isEven_ then to_int (x2 - 1) else x2 in
  if width_ =? 0 then OutOfBounds
  else if (cols =? - 2 ^ 31) && (width_ =? -1) then OutOfBounds
  else
    let dimSentence :=
      to_int (to_int (cols `quot` width_)
              + (if cols `rem` width_ =? 0 then 0 else 1)) in
    Done [dimBatch; dimWord; dimSentence].

End PoolingWithMaskingOp.

(** ** Aliasing nodes: [ReshapeNodeOp] and [StepNodeOp] *)
Module Aliasing.
Section Aliasing.
Context {T : Type}.

(** [sizeof(float)] *)
Definition sizeof_float : Z := 4.

(** [MemoryPiece(data, size)]: a byte address on the device and a number of
    bytes. *)
Record MemoryPiece : Type := { data : Z; size : Z }.

(** [TensorBase(memory, shape, backend)] *)
Record TensorBase : Type := {
  memory : MemoryPiece;
  shape : Shape;
  getBackend : Z
}.

(** The device memory, one element per address of a [float], and the
    [TensorBase] objects made so far.  A [Tensor] (a shared pointer) is the
    position of its object in [tensors]; [None] is the null pointer. *)
Record World : Type := {
  heap : gmap Z T;
  tensors : list TensorBase
}.

(** [new TensorBase(...)] *)
Definition New (t : TensorBase) (w : World) : nat * World :=
  (length (tensors w), {| heap := heap w; tensors := tensors w ++ [t] |}).

(** Modelled from the spec: the "raw element pointer" of the tensor
    interface.  Element [i] of a tensor lives [i * sizeof(float)] bytes
    after the start of its memory piece. *)
Definition get (w : World) (t : TensorBase) (i : Z) : option T :=
  heap w !! (data (memory t) + i * sizeof_float).

Definition set (w : World) (t : TensorBase) (i : Z) (x : T) : World :=
  {| heap := <[data (memory t) + i * sizeof_float := x]> (heap w);
     tensors := tensors w |}.

(** The expression an aliasing node looks at, [reshapee_] or [stepNode_]:
    an expression that owns its tensors, so that [val()] and [grad()]
    return the pointers it holds. *)
Record Expr : Type := { val : nat; grad : nat }.

Record ReshapeNodeOp : Type := {
  reshapee_ : Expr;
  reshape_shape : Shape;
  reshape_val_ : option nat;
  reshape_adj_ : option nat
}.

(** [size_t allocate() override { return 0; }] *)
Definition reshape_allocate (n : ReshapeNodeOp) : Z := 0.

(** [void forward() override {}] and [void backward() override {}] *)
Definition reshape_forward (n : ReshapeNodeOp) (w : World) : World := w.
Definition reshape_backward (n : ReshapeNodeOp) (w : World) : World := w.

(** [Tensor& val()]: the pointer that is returned, the node with [val_]
    reset to it, and the world with the new object. *)
Definition reshape_val (n : ReshapeNodeOp) (w : World)
    : outcome (nat * ReshapeNodeOp * World) :=
  match tensors w !! val (reshapee_ n) with
  | Some childVal =>
      let '(p, w') := New {| memory := memory childVal;
                             shape := reshape_shape n;
                             getBackend := getBackend childVal |} w in
      Done (p, {| reshapee_ := reshapee_ n; reshape_shape := reshape_shape n;
                  reshape_val_ := Some p; reshape_adj_ := reshape_adj_ n |}, w')
  | None => OutOfBounds
  end.

Definition reshape_grad (n : ReshapeNodeOp) (w : World)
    : outcome (nat * ReshapeNodeOp * World) :=
  match tensors w !! grad (reshapee_ n) with
  | Some childGrad =>
      let '(p, w') := New {| memory := memory childGrad;
                             shape := reshape_shape n;
                             getBackend := getBackend childGrad |} w in
      Done (p, {| reshapee_ := reshapee_ n; reshape_shape := reshape_shape n;
                  reshape_val_ := reshape_val_ n; reshape_adj_ := Some p |}, w')
  | None => OutOfBounds
  end.

Record StepNodeOp : Type := {
  stepNode_ : Expr;
  step_ : Z;
  axis_ : Z;
  step_shape : Shape;
  step_val_ : option nat;
  step_adj_ : option nat
}.

(** [newShape(a, axis)]: the shape of [a] with the extent of the axis set
    to 1.  [Shape::axis] is taken to return an axis in [[0, rank)] as it
    is. *)
Definition step_newShape (a_shape : Shape) (axis : Z) : outcome Shape :=
  set_at a_shape axis 1.

(** [StepNodeOp(a, step, axis)] *)
Definition step_new (a : Expr) (a_shape : Shape) (step axis : Z)
    : outcome StepNodeOp :=
  s ← step_newShape a_shape axis;
  Done {| stepNode_ := a; step_ := step; axis_ := axis; step_shape := s;
          step_val_ := None; step_adj_ := None |}.

Definition step_allocate (n : StepNodeOp) : Z := 0.
Definition step_forward (n : StepNodeOp) (w : World) : World := w.
Definition step_backward (n : StepNodeOp) (w : World) : World := w.

(** [size_t offset = step_ * shape().elements() * sizeof(float)]: the
    product of the two [int]s, converted to [size_t] and multiplied there.
    The address [data() + offset] of the view is not wrapped: for a negative
    [step_] it lies beyond the address space. *)
Definition step_offset (n : StepNodeOp) : Z :=
  to_size_t (to_int (step_ n * elements (step_shape n)) * sizeof_float).

Definition step_val (n : StepNodeOp) (w : World)
    : outcome (nat * StepNodeOp * World) :=
  match tensors w !! val (stepNode_ n) with
  | Some childVal =>
      let offset := step_offset n in
      let mem := {| data := data (memory childVal) + offset;
                    size := size (memory childVal) |} in
      let '(p, w') := New {| memory := mem; shape := step_shape n;
                             getBackend := getBackend childVal |} w in
      Done (p, {| stepNode_ := stepNode_ n; step_ := step_ n; axis_ := axis_ n;
                  step_shape := step_shape n;
                  step_val_ := Some p; step_adj_ := step_adj_ n |}, w')
  | None => OutOfBounds
  end.

Definition step_grad (n : StepNodeOp) (w : World)
    : outcome (nat * StepNodeOp * World) :=
  match tensors w !! grad (stepNode_ n) with
  | Some childGrad =>
      let offset := step_offset n in
      let mem := {| data := data (memory childGrad) + offset;
                    size := size (memory childGrad) |} in
      let '(p, w') := New {| memory := mem; shape := step_shape n;
                             getBackend := getBackend childGrad |} w in
      Done (p, {| stepNode_ := stepNode_ n; step_ := step_ n; axis_ := axis_ n;
                  step_shape := step_shape n;
                  step_val_ := step_val_ n; step_adj_ := Some p |}, w')
  | None => OutOfBounds
  end.

(** The tensor of [shp] over the memory of [c], [bytes] bytes further. *)
Definition view (c : TensorBase) (shp : Shape) (bytes : Z) : TensorBase :=
  {| memory := {| data := data (memory c) + bytes; size := size (memory c) |};
     shape := shp; getBackend := getBackend c |}.

(** Two calls of the accessor [acc] in a row each return a pointer to a new
    object: a position [p], then [p'], that held no object before the call
    and holds [t] after it.  The objects made before, the first view among
    them, and the device memory stay as they are. *)
Definition fresh_view {N : Type}
    (acc : N -> World -> outcome (nat * N * World)) (n : N) (w : World)
    (t : TensorBase) : Prop :=
  exists (p : nat) (n' : N) (w' : World) (p' : nat) (n'' : N) (w'' : World),
    acc n w = Done (p, n', w') /\
    acc n' w' = Done (p', n'', w'') /\
    tensors w !! p = None /\ tensors w' !! p = Some t /\
    tensors w' !! p' = None /\ tensors w'' !! p' = Some t /\
    tensors w'' !! p = Some t /\
    heap w' = heap w /\ heap w'' = heap w /\
    (forall i c, tensors w !! i = Some c -> tensors w'' !! i = Some c).

End Aliasing.
Arguments World T : clear implicits.
End Aliasing.

(** * Properties *)

Module F32Facts.
Import F32.

Lemma rne_exact n d : 0 < d -> rne (n * d) d = n.
Proof.
  intros Hd. unfold rne.
  rewrite Z.div_mul, Z.mod_mul by lia.
  destruct (Z.ltb_spec (2 * 0) d); [reflexivity | lia].
Qed.

Lemma rne_le n d K : 0 < d -> n <= K * d -> rne n d <= K.
Proof.
  intros Hd Hn. unfold rne.
  pose proof (Z.div_mod n d ltac:(lia)) as E.
  pose proof (Z.mod_pos_bound n d Hd) as B.
  repeat case_match; try nia.
  all: repeat match goal with
       | H : (_ <? _) = true |- _ => apply Z.ltb_lt in H
       | H : (_ <? _) = false |- _ => apply Z.ltb_ge in H
       end; nia.
Qed.

Lemma rne_ge n d K : 0 < d -> K * d <= n -> K <= rne n d.
Proof.
  intros Hd Hn. unfold rne.
  pose proof (Z.div_mod n d ltac:(lia)) as E.
  pose proof (Z.mod_pos_bound n d Hd) as B.
  repeat case_match; nia.
Qed.

Lemma rne_above_half n d K :
  0 < d -> d < 2 * (n - K * d) -> K + 1 <= rne n d.
Proof.
  intros Hd Hn. unfold rne.
  pose proof (Z.div_mod n d ltac:(lia)) as E.
  pose proof (Z.mod_pos_bound n d Hd) as B.
  repeat case_match;
  repeat match goal with
       | H : (_ <? _) = true |- _ => apply Z.ltb_lt in H
       | H : (_ <? _) = false |- _ => apply Z.ltb_ge in H
       end; nia.
Qed.

Lemma rne_scale k n d : 0 < k -> 0 < d -> rne (k * n) (k * d) = rne n d.
Proof.
  intros Hk Hd. unfold rne.
  rewrite Z.div_mul_cancel_l, Z.mul_mod_distr_l by lia.
  replace (2 * (k * (n mod d)) <? k * d) with (2 * (n mod d) <? d).
  2:{ destruct (Z.ltb_spec (2 * (n mod d)) d), (Z.ltb_spec (2 * (k * (n mod d))) (k * d));
      try reflexivity; nia. }
  replace (k * d <? 2 * (k * (n mod d))) with (d <? 2 * (n mod d)).
  2:{ destruct (Z.ltb_spec d (2 * (n mod d))), (Z.ltb_spec (k * d) (2 * (k * (n mod d))));
      try reflexivity; nia. }
  reflexivity.
Qed.


Lemma ilog2_ratio_spec n d :
  0 < n -> 0 < d ->
  let E := ilog2_ratio n d in
  (0 <= E -> d * 2 ^ E <= n < d * 2 ^ (E + 1)) /\
  (E < 0 -> d <= n * 2 ^ (- E) /\ n * 2 ^ (- E - 1) < d).
Proof.
  intros Hn Hd. unfold ilog2_ratio.
  destruct (Z.log2_spec n Hn) as [Ln Un].
  destruct (Z.log2_spec d Hd) as [Ld Ud].
  pose proof (Z.log2_nonneg n) as Nn. pose proof (Z.log2_nonneg d) as Nd.
  set (ln := Z.log2 n) in *. set (ld := Z.log2 d) in *.
  rewrite <- !Z.add_1_r in *.
  rewrite Z.pow_add_r in Un, Ud by lia. change (2 ^ 1) with 2 in *.
  assert (Pn : 0 < 2 ^ ln) by (apply Z.pow_pos_nonneg; lia).
  assert (Pd : 0 < 2 ^ ld) by (apply Z.pow_pos_nonneg; lia).
  destruct (Z.leb_spec 0 (ln - ld)) as [Hk | Hk].
  - assert (Ek : 2 ^ ln = 2 ^ ld * 2 ^ (ln - ld)).
    { rewrite <- Z.pow_add_r by lia. f_equal; lia. }
    assert (Pk : 0 < 2 ^ (ln - ld)) by (apply Z.pow_pos_nonneg; lia).
    destruct (Z.leb_spec (d * 2 ^ (ln - ld)) n) as [Ht | Ht]; cbv zeta.
    + split; [intros _ | lia].
      rewrite Z.pow_add_r by lia. change (2 ^ 1) with 2. nia.
    + destruct (Z.eq_dec (ln - ld) 0) as [E0 | E0].
      * rewrite E0 in *. change (2 ^ 0) with 1 in *.
        split; [lia | intros _]. change (- (0 - 1)) with 1.
        change (1 - 1) with 0. change (2 ^ 1) with 2. change (2 ^ 0) with 1. nia.
      * split; [intros _ | lia].
        replace (ln - ld - 1 + 1) with (ln - ld) by lia.
        assert (Ek' : 2 ^ (ln - ld) = 2 * 2 ^ (ln - ld - 1)).
        { rewrite <- (Z.pow_succ_r 2) by lia. f_equal; lia. }
        nia.
  - assert (Ek : 2 ^ ld = 2 ^ ln * 2 ^ (- (ln - ld))).
    { rewrite <- Z.pow_add_r by lia. f_equal; lia. }
    assert (Pk : 0 < 2 ^ (- (ln - ld))) by (apply Z.pow_pos_nonneg; lia).
    assert (Ek' : 2 ^ (- (ln - ld)) = 2 * 2 ^ (- (ln - ld) - 1)).
    { rewrite <- (Z.pow_succ_r 2) by lia. f_equal; lia. }
    destruct (Z.leb_spec d (n * 2 ^ (- (ln - ld)))) as [Ht | Ht]; cbv zeta.
    + split; [lia | intros _]. nia.
    + split; [lia | intros _].
      replace (- (ln - ld - 1)) with (- (ln - ld) + 1) by lia.
      replace (- (ln - ld) + 1 - 1) with (- (ln - ld)) by lia.
      rewrite Z.pow_add_r by lia. change (2 ^ 1) with 2. nia.
Qed.


Lemma ceil_div_spec a b :
  0 < b -> (ceil_div a b - 1) * b < a <= ceil_div a b * b.
Proof.
  intros Hb. unfold ceil_div.
  pose proof (Z.div_mod (a + b - 1) b ltac:(lia)) as E.
  pose proof (Z.mod_pos_bound (a + b - 1) b Hb) as B. nia.
Qed.

Lemma ceil_div_unique a b c :
  0 < b -> (c - 1) * b < a <= c * b -> ceil_div a b = c.
Proof.
  intros Hb H. pose proof (ceil_div_spec a b Hb). nia.
Qed.

(** Rounding a quotient with [a <= 2^24] never crosses an integer. *)
Lemma ceil_round_pos a b :
  0 < a <= 2 ^ 24 -> 0 < b -> ceil (round_pos a b) = ceil_div a b.
Proof.
  intros Ha Hb.
  pose proof (ilog2_ratio_spec a b ltac:(lia) Hb) as [Sp Sn]. cbv zeta in *.
  pose proof (ceil_div_spec a b Hb) as Hc.
  unfold round_pos. set (E := ilog2_ratio a b) in *.
  set (c := ceil_div a b) in *.
  assert (HE : E <= 24).
  { destruct (Z.le_gt_cases E 24) as [|HE]; [done|]. exfalso.
    destruct Sp as [Sp _]; [lia|].
    assert (2 ^ 25 <= 2 ^ E) by (apply Z.pow_le_mono_r; lia).
    change (2 ^ 24) with 16777216 in *. change (2 ^ 25) with 33554432 in *. nia. }
  destruct (Z.eq_dec E 24) as [E24 | E24].
  { rewrite E24 in *. destruct Sp as [Sp _]; [lia|].
    change (2 ^ 24) with 16777216 in *.
    assert (b = 1) by nia. assert (a = 16777216) by nia. subst a b.
    vm_compute. reflexivity. }
  set (s := 23 - E). assert (Hs : 0 <= s) by lia.
  assert (Ps : 0 < 2 ^ s) by (apply Z.pow_pos_nonneg; lia).
  assert (Hm : (if 0 <=? E - 23 then rne a (b * 2 ^ (E - 23))
                else rne (a * 2 ^ (- (E - 23))) b) = rne (a * 2 ^ s) b).
  { destruct (Z.leb_spec 0 (E - 23)).
    - replace (E - 23) with 0 by lia. replace s with 0 by lia.
      change (2 ^ 0) with 1. by rewrite !Z.mul_1_r.
    - by replace (- (E - 23)) with s by lia. }
  assert (Hb2 : b <= 2 * 2 ^ s /\ (b = 2 * 2 ^ s -> a = 2 ^ 24)).
  { destruct (Z.le_gt_cases 0 E) as [HE0 | HE0].
    - destruct Sp as [Sp _]; [done|].
      assert (2 ^ 24 = 2 ^ E * (2 * 2 ^ s)) as ->.
      { rewrite <- (Z.pow_succ_r 2), <- Z.pow_add_r by lia. f_equal; lia. }
      assert (0 < 2 ^ E) by (apply Z.pow_pos_nonneg; lia).
      assert (a <= 2 ^ E * (2 * 2 ^ s)).
      { replace (2 ^ E * (2 * 2 ^ s)) with (2 ^ 24); [lia|].
        rewrite <- (Z.pow_succ_r 2), <- Z.pow_add_r by lia. f_equal; lia. }
      split; nia.
    - destruct Sn as [Sn _]; [done|].
      assert (2 * 2 ^ s = 2 ^ 24 * 2 ^ (- E)) as ->.
      { rewrite <- (Z.pow_succ_r 2), <- Z.pow_add_r by lia. f_equal; lia. }
      assert (0 < 2 ^ (- E)) by (apply Z.pow_pos_nonneg; lia).
      split; nia. }
  destruct Hb2 as [Hb2 Hb3].
  assert (Hup : rne (a * 2 ^ s) b <= c * 2 ^ s) by (apply rne_le; nia).
  assert (Hlo : (c - 1) * 2 ^ s + 1 <= rne (a * 2 ^ s) b).
  { destruct (Z.le_gt_cases b ((a - (c - 1) * b) * 2 ^ s)) as [Hge | Hlt].
    - apply rne_ge; nia.
    - apply rne_above_half; [done|].
      assert (a - (c - 1) * b = 1) as Ht by nia.
      replace (a * 2 ^ s - (c - 1) * 2 ^ s * b) with (2 ^ s) by nia.
      destruct (Z.eq_dec b (2 * 2 ^ s)) as [Eb | Eb]; [exfalso | lia].
      specialize (Hb3 Eb). change (2 ^ 24) with 16777216 in Hb3.
      rewrite Eb in Ht. lia. }
  unfold ceil. cbn [f32_m f32_e]. rewrite Hm.
  set (m := rne (a * 2 ^ s) b) in *.
  destruct (Z.leb_spec 0 (E - 23)).
  - replace (E - 23) with 0 by lia. replace s with 0 in * by lia.
    change (2 ^ 0) with 1 in *. lia.
  - replace (- (E - 23)) with s by lia.
    assert ((- m) / 2 ^ s = - c); [|lia].
    symmetry. apply (Z.div_unique_pos _ _ _ (c * 2 ^ s - m)); nia.
Qed.


Lemma ilog2_ratio_scale n d j :
  0 < n -> 0 < d -> 0 <= j ->
  ilog2_ratio (n * 2 ^ j) (d * 2 ^ j) = ilog2_ratio n d.
Proof.
  intros Hn Hd Hj. unfold ilog2_ratio.
  rewrite !Z.log2_mul_pow2 by lia.
  replace (j + Z.log2 n - (j + Z.log2 d)) with (Z.log2 n - Z.log2 d) by lia.
  set (k := Z.log2 n - Z.log2 d).
  assert (Pj : 0 < 2 ^ j) by (apply Z.pow_pos_nonneg; lia).
  destruct (Z.leb_spec 0 k) as [Hk | Hk].
  - assert (Pk : 0 < 2 ^ k) by (apply Z.pow_pos_nonneg; lia).
    destruct (Z.leb_spec (d * 2 ^ k) n), (Z.leb_spec (d * 2 ^ j * 2 ^ k) (n * 2 ^ j));
      try reflexivity; nia.
  - assert (Pk : 0 < 2 ^ (- k)) by (apply Z.pow_pos_nonneg; lia).
    destruct (Z.leb_spec d (n * 2 ^ (- k))), (Z.leb_spec (d * 2 ^ j) (n * 2 ^ j * 2 ^ (- k)));
      try reflexivity; nia.
Qed.

Lemma round_pos_scale n d j :
  0 < n -> 0 < d -> 0 <= j ->
  round_pos (n * 2 ^ j) (d * 2 ^ j) = round_pos n d.
Proof.
  intros Hn Hd Hj. unfold round_pos.
  rewrite ilog2_ratio_scale by done.
  assert (Pj : 0 < 2 ^ j) by (apply Z.pow_pos_nonneg; lia).
  f_equal. case_match.
  - replace (d * 2 ^ j * 2 ^ (ilog2_ratio n d - 23))
      with (2 ^ j * (d * 2 ^ (ilog2_ratio n d - 23))) by lia.
    rewrite (Z.mul_comm n). apply rne_scale; [done|].
    apply Z.mul_pos_pos; [done|]. apply Z.pow_pos_nonneg; lia.
  - replace (n * 2 ^ j * 2 ^ (- (ilog2_ratio n d - 23)))
      with (2 ^ j * (n * 2 ^ (- (ilog2_ratio n d - 23)))) by lia.
    rewrite (Z.mul_comm d). by apply rne_scale.
Qed.

Lemma round_pos_eq n d : 0 < n -> round n d = round_pos n d.
Proof. intros Hn. destruct n; done. Qed.

Lemma of_Z_int_value z :
  0 < z ->
  exists v, int_value (of_Z z) v /\ 0 < v /\
            (z <= 2 ^ 24 -> v = z) /\ (2 ^ 24 < z -> 2 ^ 24 <= v).
Proof.
  intros Hz. unfold of_Z. rewrite round_pos_eq by done.
  pose proof (ilog2_ratio_spec z 1 Hz ltac:(lia)) as [Sp Sn]. cbv zeta in *.
  unfold round_pos, int_value. cbn [f32_m f32_e].
  set (E := ilog2_ratio z 1) in *.
  assert (HE : 0 <= E).
  { destruct (Z.le_gt_cases 0 E); [done|]. destruct Sn as [_ Sn]; [done|].
    assert (0 < 2 ^ (- E - 1)) by (apply Z.pow_pos_nonneg; lia). nia. }
  destruct Sp as [Sl Su]; [done|]. rewrite Z.mul_1_l in Sl, Su.
  destruct (Z.leb_spec 0 (E - 23)) as [H23 | H23].
  - set (e := E - 23) in *.
    assert (Pe : 0 < 2 ^ e) by (apply Z.pow_pos_nonneg; lia).
    assert (EE : 2 ^ E = 2 ^ 23 * 2 ^ e).
    { rewrite <- Z.pow_add_r by lia. f_equal; lia. }
    rewrite Z.mul_1_l.
    assert (Hg : 2 ^ 23 <= rne z (2 ^ e)) by (apply rne_ge; lia).
    exists (rne z (2 ^ e) * 2 ^ e). split; [right; done|].
    split; [nia|]. split; [|change (2 ^ 24) with (2 * 2 ^ 23); intros Hgt].
    + intros Hle. change (2 ^ 24) with (2 * 2 ^ 23) in Hle.
      destruct (Z.eq_dec e 0) as [-> | He].
      * change (2 ^ 0) with 1. rewrite <- (Z.mul_1_r z) at 1.
        rewrite rne_exact by lia. lia.
      * assert (2 ^ 1 <= 2 ^ e) by (apply Z.pow_le_mono_r; lia).
        change (2 ^ 1) with 2 in *.
        assert (2 ^ e = 2) by nia. assert (z = 2 ^ 23 * 2) by nia.
        subst z. replace (2 ^ e) with 2. rewrite rne_exact by lia. done.
    + destruct (Z.eq_dec e 0) as [He | He]; [|].
      * exfalso. rewrite He in *. change (2 ^ 0) with 1 in *.
        replace (E + 1) with 24 in Su by lia. change (2 ^ 24) with (2 * 2 ^ 23) in Su.
        lia.
      * assert (2 ^ 1 <= 2 ^ e) by (apply Z.pow_le_mono_r; lia).
        change (2 ^ 1) with 2 in *. nia.
  - exists z. split; [left; split; [lia|] |].
    + pose proof (rne_exact (z * 2 ^ (- (E - 23))) 1 ltac:(lia)) as R.
      by rewrite Z.mul_1_r in R.
    + split; [done|]. split; [done|]. intros Hgt. exfalso.
      assert (2 ^ (E + 1) <= 2 ^ 24) by (apply Z.pow_le_mono_r; lia). lia.
Qed.

Lemma div_int_values x y A B :
  int_value x A -> int_value y B -> 0 < A -> 0 < B ->
  div x y = round_pos A B.
Proof.
  intros Hx Hy HA HB. unfold div.
  destruct x as [mx ex], y as [my ey]. unfold int_value in *. cbn [f32_m f32_e] in *.
  set (s := Z.min ex ey).
  assert (Hsx : 0 <= ex - s) by lia. assert (Hsy : 0 <= ey - s) by lia.
  assert (Px : 0 < 2 ^ (ex - s)) by (apply Z.pow_pos_nonneg; lia).
  assert (Py : 0 < 2 ^ (ey - s)) by (apply Z.pow_pos_nonneg; lia).
  destruct (Z.le_gt_cases 0 s) as [Hs | Hs].
  - destruct Hx as [[? _] | [_ ->]]; [lia|]. destruct Hy as [[? _] | [_ ->]]; [lia|].
    assert (Ps : 0 < 2 ^ s) by (apply Z.pow_pos_nonneg; lia).
    assert (Ex : 2 ^ ex = 2 ^ (ex - s) * 2 ^ s).
    { rewrite <- Z.pow_add_r by lia. f_equal; lia. }
    assert (Ey : 2 ^ ey = 2 ^ (ey - s) * 2 ^ s).
    { rewrite <- Z.pow_add_r by lia. f_equal; lia. }
    rewrite Ex, Ey, !Z.mul_assoc.
    rewrite Ex in HA. rewrite Ey in HB.
    rewrite round_pos_eq by nia. symmetry. apply round_pos_scale; nia.
  - assert (Ps : 0 < 2 ^ (- s)) by (apply Z.pow_pos_nonneg; lia).
    assert (Nx : mx * 2 ^ (ex - s) = A * 2 ^ (- s)).
    { destruct Hx as [[Hlt ->] | [Hge ->]].
      - rewrite <- Z.mul_assoc, <- Z.pow_add_r by lia. do 2 f_equal; lia.
      - rewrite <- Z.mul_assoc, <- Z.pow_add_r by lia. do 2 f_equal; lia. }
    assert (Ny : my * 2 ^ (ey - s) = B * 2 ^ (- s)).
    { destruct Hy as [[Hlt ->] | [Hge ->]].
      - rewrite <- Z.mul_assoc, <- Z.pow_add_r by lia. do 2 f_equal; lia.
      - rewrite <- Z.mul_assoc, <- Z.pow_add_r by lia. do 2 f_equal; lia. }
    rewrite Nx, Ny, round_pos_eq by nia. apply round_pos_scale; lia.
Qed.

Lemma to_int_small z : - 2 ^ 31 <= z < 2 ^ 31 -> to_int z = z.
Proof. intros H. unfold to_int. rewrite Z.mod_small; lia. Qed.

(** The quotient computed here is the one of the Standard Library's IEEE-754
    division, on a sample of numerators and denominators that includes
    inexact quotients and operands beyond [2^24]. *)
Example div_agrees_with_spec :
  forallb (fun p => agrees_with_spec p.1 p.2)
    [(3, 2); (5, 4); (1, 3); (10, 3); (7, 7); (100, 7); (1000000, 3);
     (16777216, 3); (16777217, 1); (16777217, 2); (33554433, 7);
     (123456789, 1000); (2147483647, 65535)] = true.
Proof. vm_compute. reflexivity. Qed.

(** Beyond [2^24] the conversion to single precision rounds: [2^24 + 1]
    elements on one replica give a shard of [2^24] elements. *)
Example shardSize_rounds : shardSize (2 ^ 24 + 1) 1 = 2 ^ 24.
Proof. vm_compute. reflexivity. Qed.

(** Up to [2^24] elements the single-precision shard size is the exact
    ceiling. *)
Lemma shardSize_exact total n :
  0 <= total <= 2 ^ 24 -> 1 <= n -> shardSize total n = ceil_div total n.
Proof.
  intros Ht Hn. unfold shardSize.
  destruct (Z.eq_dec total 0) as [-> | H0].
  { unfold of_Z at 1. cbn [round]. unfold div. cbn [f32_m f32_e].
    rewrite Z.mul_0_l. cbn [round]. unfold ceil_div.
    rewrite Z.div_small by lia. reflexivity. }
  destruct (of_Z_int_value total ltac:(lia)) as (A & HA & _ & EA & _).
  destruct (of_Z_int_value n ltac:(lia)) as (B & HB & PB & EB & GB).
  rewrite EA in HA by lia. clear EA A.
  rewrite (div_int_values _ _ total B) by (done || lia).
  rewrite ceil_round_pos by lia.
  pose proof (ceil_div_spec total B PB) as Hc.
  assert (ceil_div total B = ceil_div total n) as ->.
  { destruct (Z.le_gt_cases n (2 ^ 24)) as [Hs | Hl]; [by rewrite EB|].
    specialize (GB Hl). symmetry. apply ceil_div_unique; [lia|].
    assert (ceil_div total B = 1); [apply ceil_div_unique; lia | lia]. }
  apply to_int_small. pose proof (ceil_div_spec total n ltac:(lia)) as Hc'.
  change (2 ^ 24) with 16777216 in *. change (2 ^ 31) with 2147483648. nia.
Qed.

End F32Facts.

Section ShardFacts.

Lemma length_shards ss n idx pos tot : length (shards ss n idx pos tot) = n.
Proof. revert idx pos tot. induction n; intros; cbn; [done | by rewrite IHn]. Qed.

Lemma shards_lookup ss n idx pos tot (i : nat) :
  0 <= ss -> 0 <= tot -> (i < n)%nat ->
  shards ss n idx pos tot !! i =
    Some ((idx + i)%nat, pos + Z.min (Z.of_nat i * ss) tot,
          Z.min ss (tot - Z.min (Z.of_nat i * ss) tot)).
Proof.
  intros Hss. revert idx pos tot i.
  induction n as [|n IH]; intros idx pos tot i Ht Hi; [lia|].
  destruct i as [|i]; cbn [shards lookup list_lookup].
  - do 3 f_equal; lia.
  - rewrite IH by lia. do 3 f_equal; [lia | nia | nia].
Qed.

Lemma ceil_div_nonneg a b : 0 <= a -> 0 < b -> 0 <= ceil_div a b.
Proof. intros. pose proof (F32Facts.ceil_div_spec a b). nia. Qed.


(** C2 (as amended).  For [0 <= total <= 2^24] and at least one replica,
    [shardSize] is [ceil (total / R)]; shard [i] starts at
    [min (i * shardSize) total] and has [min shardSize (total - start)]
    elements; every shard lies inside [[0, total)] and has at most
    [shardSize] elements; every element of [[0, total)] lies in a shard, and
    in one shard only. *)
Theorem shard_partition (total : Z) (R : nat) :
  0 <= total <= 2 ^ 24 -> (1 <= R)%nat ->
  let ss := shardSize total (Z.of_nat R) in
  let sh := shards ss R 0 0 total in
  ss = ceil_div total (Z.of_nat R) /\
  length sh = R /\
  (forall i : nat, (i < R)%nat ->
     sh !! i = Some (i, Z.min (Z.of_nat i * ss) total,
                     Z.min ss (total - Z.min (Z.of_nat i * ss) total))) /\
  (forall s, s ∈ sh -> 0 <= s.1.2 /\ 0 <= s.2 <= ss /\ s.1.2 + s.2 <= total) /\
  (forall k, 0 <= k < total -> exists s, s ∈ sh /\ in_shard s k) /\
  (forall s s' k, s ∈ sh -> s' ∈ sh -> in_shard s k -> in_shard s' k -> s = s').
Proof.
  intros Ht HR ss sh.
  assert (Ess : ss = ceil_div total (Z.of_nat R))
    by (apply F32Facts.shardSize_exact; lia).
  pose proof (F32Facts.ceil_div_spec total (Z.of_nat R) ltac:(lia)) as Hc.
  rewrite <- Ess in Hc.
  assert (Hss : 0 <= ss) by (rewrite Ess; apply ceil_div_nonneg; lia).
  assert (Hlk : forall i : nat, (i < R)%nat ->
     sh !! i = Some (i, Z.min (Z.of_nat i * ss) total,
                     Z.min ss (total - Z.min (Z.of_nat i * ss) total))).
  { intros i Hi. unfold sh. rewrite shards_lookup by lia. do 3 f_equal; lia. }
  assert (Hidx : forall s, s ∈ sh -> exists i : nat, (i < R)%nat /\
     s = (i, Z.min (Z.of_nat i * ss) total,
          Z.min ss (total - Z.min (Z.of_nat i * ss) total))).
  { intros s [i Hi]%list_elem_of_lookup.
    assert (i < R)%nat.
    { apply lookup_lt_Some in Hi. unfold sh in Hi. by rewrite length_shards in Hi. }
    exists i. split; [done|]. rewrite Hlk in Hi by done. congruence. }
  split; [done|]. split; [apply length_shards|]. split; [done|].
  split; [|split].
  - intros s (i & Hi & ->)%Hidx. cbn. nia.
  - intros k Hk.
    assert (0 < ss) by nia.
    set (i := Z.to_nat (k / ss)).
    pose proof (Z.div_mod k ss ltac:(lia)) as Ek.
    pose proof (Z.mod_pos_bound k ss ltac:(lia)) as Bk.
    assert (0 <= k / ss) by (apply Z.div_pos; lia).
    assert (Z.of_nat i = k / ss) as Ei by (unfold i; lia).
    assert (i < R)%nat by nia.
    eexists. split; [eapply list_elem_of_lookup_2, Hlk; done|].
    unfold in_shard. cbn. rewrite Ei. nia.
  - intros s s' k (i & Hi & ->)%Hidx (j & Hj & ->)%Hidx. unfold in_shard. cbn.
    intros Hs Hs'.
    assert (i = j); [|by subst].
    destruct (Nat.lt_total i j) as [Hlt | [-> | Hlt]]; [exfalso | done | exfalso]; nia.
Qed.

Lemma shard_partition_witness :
  shardSize 5 (Z.of_nat 4) = 2 /\
  shards (shardSize 5 (Z.of_nat 4)) 4 0 0 5 !! 3%nat = Some (3%nat, 5, 0).
Proof.
  pose proof (shard_partition 5 4 ltac:(lia) ltac:(lia)) as (Hs & _ & Hl & _).
  split; [exact Hs | exact (Hl 3%nat ltac:(lia))].
Defined.

(** C2 as stated does not hold.  With 5 elements on 4 replicas the last
    shard starts at 5, not at [3 * shardSize = 6]; and one replica with
    [2^24 + 1] elements gets the single-precision shard size [2^24], so its
    only shard stops one element short of the vector. *)
Lemma shard_partition_counterexample :
  (shards (shardSize 5 4) 4 0 0 5 !! 3%nat = Some (3%nat, 5, 0) /\
   5 <> 3 * shardSize 5 4) /\
  (shardSize 16777217 1 = 16777216 /\
   ceil_div 16777217 1 = 16777217 /\
   shards (shardSize 16777217 1) 1 0 0 16777217 = [(0%nat, 0, 16777216)] /\
   ~ in_shard (0%nat, 0, 16777216) 16777216).
Proof.
  split; [split; [reflexivity | by vm_compute] |].
  split; [by vm_compute|]. split; [by vm_compute|]. split; [by vm_compute|].
  unfold in_shard. cbn. lia.
Qed.

End ShardFacts.

Module TMatrixFacts.
Import TMatrix.
Section Facts.
Context {T : Type} `{Scalar T} {device : Allocator}.
Implicit Types m : TMatrix T.

Lemma VecType_Done (n : Z) (d : list T) :
  VecType n = Done d -> allocates n = true /\ d = replicate (Z.to_nat n) zero.
Proof. unfold VecType. destruct (allocates n); [by intros [= <-] | done]. Qed.

Lemma VecType_granted (n : Z) :
  allocates n = true -> VecType (T:=T) n = Done (replicate (Z.to_nat n) zero).
Proof. intros E. unfold VecType. by rewrite E. Qed.

Lemma VecType_refused (n : Z) :
  allocates n = false -> VecType (T:=T) n = alloc_failure.
Proof. intros E. unfold VecType. by rewrite E. Qed.

Lemma to_size_t_range z : is_size_t (to_size_t z).
Proof. unfold is_size_t, to_size_t. apply Z.mod_pos_bound. lia. Qed.

Lemma to_size_t_comm a b : to_size_t (a * b) = to_size_t (b * a).
Proof. f_equal. lia. Qed.

Lemma size_nonneg m : 0 <= size m.
Proof. unfold size, to_size_t. apply Z.mod_pos_bound. lia. Qed.

(** [Resize] where the buffer is large enough: no allocation, whatever the
    device. *)
Lemma Resize_within m (d : list T) (rows cols : Z) :
  data_ m = Some d -> to_size_t (rows * cols) <= arrSize_ m ->
  Resize rows cols m = Done (Reshape rows cols m).
Proof.
  intros Hd Hcap. unfold Resize, Reshape. rewrite Hd.
  rewrite (proj2 (Z.ltb_ge _ _)) by lia. cbn [mbind outcome_bind].
  by rewrite Hd.
Qed.

(** [Resize] where a new buffer is needed and the device refuses it. *)
Lemma Resize_refused m (rows cols : Z) :
  match data_ m with
  | Some _ => arrSize_ m < to_size_t (rows * cols)
  | None => True
  end ->
  allocates (to_size_t (rows * cols)) = false ->
  Resize rows cols m = alloc_failure.
Proof.
  intros Hgrow E. unfold Resize, VecType. rewrite E.
  destruct (data_ m) as [d|]; [|done].
  by rewrite (proj2 (Z.ltb_lt _ _)) by lia.
Qed.

(** [Resize] of a matrix with a buffer that is too small, on a device that
    has room. *)
Lemma Resize_grows m (d : list T) (rows cols : Z) :
  data_ m = Some d -> size m <= arrSize_ m <= Z.of_nat (length d) ->
  arrSize_ m < to_size_t (rows * cols) ->
  allocates (to_size_t (rows * cols)) = true ->
  Resize rows cols m =
    Done {| rows_ := rows; cols_ := cols;
            arrSize_ := to_size_t (rows * cols);
            data_ := Some (take (Z.to_nat (size m)) d ++
                           replicate
                             (Z.to_nat (to_size_t (rows * cols) - size m))
                             zero) |}.
Proof.
  intros Hd Hs Hgrow E. pose proof (size_nonneg m) as H0.
  pose proof (to_size_t_range (rows * cols)) as [Hn0 _].
  unfold Resize. rewrite Hd, (proj2 (Z.ltb_lt _ _)) by lia.
  rewrite (VecType_granted _ E). cbn [mbind outcome_bind].
  unfold copy. rewrite length_replicate.
  rewrite !andb_true_intro; cbn [mbind outcome_bind].
  2: { split; [apply andb_true_intro; split|]; apply Z.leb_le; lia. }
  cbn [arrSize_ data_]. do 3 f_equal.
  rewrite drop_replicate. do 2 f_equal. lia.
Qed.

(** [Resize] of a matrix without a buffer, on a device that has room. *)
Lemma Resize_null m (rows cols : Z) :
  data_ m = None -> allocates (to_size_t (rows * cols)) = true ->
  Resize rows cols m =
    Done {| rows_ := rows; cols_ := cols;
            arrSize_ := to_size_t (rows * cols);
            data_ := Some (replicate (Z.to_nat (to_size_t (rows * cols)))
                                     zero) |}.
Proof.
  intros Hd E. unfold Resize. rewrite Hd, (VecType_granted _ E). done.
Qed.

(** C10 (as amended).  [m] is a matrix as the member functions leave it:
    the recorded capacity is at most the size of the buffer, and 0 without
    a buffer; and its element count does not exceed the capacity.
    [Resize(rows, cols)] needs a new buffer only when there is none or
    [rows * cols] exceeds the capacity.  When it needs one and the device
    refuses it, the call throws.  Otherwise it finishes, with
    [Rows() = rows], [Cols() = cols] and [size() = rows * cols]; the
    capacity is the larger of the old capacity and [rows * cols]; a buffer
    that is large enough is kept as it is; the first
    [min (old size) (new size)] elements are preserved; and the result is
    again such a matrix.  [Reshape(rows, cols)] sets the two counts and
    leaves buffer and capacity alone. *)
Theorem Resize_Reshape_spec (m : TMatrix T) (rows cols : Z) :
  capacity_recorded m -> sound m -> is_size_t rows -> is_size_t cols ->
  let n := to_size_t (rows * cols) in
  let fresh := match data_ m with
               | Some _ => arrSize_ m <? n
               | None => true
               end in
  (if fresh && negb (allocates n)
   then Resize rows cols m = alloc_failure
   else exists m', Resize rows cols m = Done m' /\
     Rows m' = rows /\ Cols m' = cols /\ size m' = n /\
     arrSize_ m' = Z.max (arrSize_ m) n /\
     (fresh = false -> data_ m' = data_ m) /\
     (forall d, data_ m = Some d ->
        exists d', data_ m' = Some d' /\
          forall k : nat, Z.of_nat k < Z.min (size m) (size m') ->
                          d' !! k = d !! k) /\
     capacity_recorded m' /\ sound m') /\
  Rows (Reshape rows cols m) = rows /\ Cols (Reshape rows cols m) = cols /\
  data_ (Reshape rows cols m) = data_ m /\
  arrSize_ (Reshape rows cols m) = arrSize_ m.
Proof.
  intros Hcap Hs Hrows Hcols n fresh. split; [|done].
  pose proof (to_size_t_range (rows * cols)) as [Hn0 Hn1]. fold n in Hn0, Hn1.
  pose proof (size_nonneg m) as H0.
  assert (Hsz : forall a (d : option (list T)),
            size {| rows_ := rows; cols_ := cols;
                    arrSize_ := a; data_ := d |} = n).
  { intros. unfold size, n. cbn. apply to_size_t_comm. }
  unfold capacity_recorded, sound in Hcap, Hs.
  destruct (data_ m) as [d|] eqn:Hd.
  - destruct (Z.ltb_spec (arrSize_ m) n) as [Hgrow | Hkeep]; subst fresh.
    + destruct (allocates n) eqn:E; cbn [andb negb].
      * rewrite (Resize_grows m d) by done. fold n.
        eexists. split; [reflexivity|]. rewrite Hsz.
        cbn [Rows Cols rows_ cols_ arrSize_ data_].
        split; [done|]. split; [done|]. split; [done|]. split; [lia|].
        split; [done|]. split.
        { intros d0 [= <-]. eexists. split; [done|]. intros k Hk.
          rewrite lookup_app_l by (rewrite length_take; lia).
          apply lookup_take_lt. lia. }
        unfold capacity_recorded, sound. rewrite Hsz.
        cbn [arrSize_ data_].
        rewrite length_app, length_take, length_replicate. lia.
      * apply Resize_refused; [by rewrite Hd | done].
    + cbn [andb]. rewrite (Resize_within m d) by done.
      eexists. split; [reflexivity|]. unfold Reshape. rewrite Hsz.
      cbn [Rows Cols rows_ cols_ arrSize_ data_].
      split; [done|]. split; [done|]. split; [done|]. split; [lia|].
      split; [done|]. split; [intros d0 [= <-]; by exists d|].
      unfold capacity_recorded, sound. rewrite Hsz, Hd.
      cbn [arrSize_ data_]. lia.
  - subst fresh. destruct (allocates n) eqn:E; cbn [andb negb].
    + rewrite Resize_null by done. fold n.
      eexists. split; [reflexivity|]. rewrite Hsz.
      cbn [Rows Cols rows_ cols_ arrSize_ data_].
      split; [done|]. split; [done|]. split; [done|]. split; [lia|].
      split; [done|]. split; [done|].
      unfold capacity_recorded, sound. rewrite Hsz.
      cbn [arrSize_ data_]. rewrite length_replicate. lia.
    + apply Resize_refused; [by rewrite Hd | done].
Qed.

End Facts.

(** A 1x2 matrix with a capacity of two elements, resized to 2x3 on a device
    with room for six elements: the two elements are carried over. *)
Lemma Resize_Reshape_spec_witness :
  let m := {| rows_ := 1; cols_ := 2; arrSize_ := 2; data_ := Some [7; 8] |} in
  exists m', Resize (device := limited 6) 2 3 m = Done m' /\
    size m' = 6 /\ arrSize_ m' = 6 /\
    exists d', data_ m' = Some d' /\ d' !! 0%nat = Some 7 /\ d' !! 1%nat = Some 8.
Proof.
  intros m.
  destruct (Resize_Reshape_spec (device := limited 6) m 2 3)
    as [(m' & Hm & _ & _ & Hs & Ha & _ & Hd & _) _].
  - vm_compute. discriminate.
  - vm_compute. split; discriminate.
  - unfold is_size_t. lia.
  - unfold is_size_t. lia.
  - destruct (Hd [7; 8] eq_refl) as (d' & Hd' & Hk).
    exists m'. split; [exact Hm|]. split; [exact Hs|]. split; [exact Ha|].
    exists d'. split; [exact Hd'|]. rewrite Hs in Hk.
    split; apply Hk; vm_compute; reflexivity.
Defined.

(** C10 as stated does not hold for every matrix.  [Reshape] may announce
    more elements than the buffer holds, and the next growing [Resize] then
    copies [size()] elements out of the smaller buffer; and a [Resize] that
    needs a buffer the device has no room for throws, with the counts as
    they were. *)
Lemma Resize_counterexample :
  let m := {| rows_ := 1; cols_ := 1; arrSize_ := 1; data_ := Some [7] |} in
  Resize (device := unlimited) 3 3 (Reshape 2 2 m) = OutOfBounds /\
  Resize (device := limited 4) 3 3 m = alloc_failure.
Proof. repeat split. Qed.

End TMatrixFacts.

Module TransposeFacts.
Import TransposeNodeOp.

Lemma at_Done {A} (v : list A) (i : nat) a :
  v !! i = Some a -> at_ v (Z.of_nat i) = Done a.
Proof.
  intros Hi. unfold at_. destruct (Z.leb_spec 0 (Z.of_nat i)); [|lia].
  by rewrite Nat2Z.id, Hi.
Qed.

Lemma at_Done_Z {A} (v : list A) (i : Z) a :
  0 <= i -> v !! Z.to_nat i = Some a -> at_ v i = Done a.
Proof. intros. rewrite <- (Z2Nat.id i) by done. by apply at_Done. Qed.

Lemma set_at_Done {A} (v : list A) (i : nat) a :
  (i < length v)%nat -> set_at v (Z.of_nat i) a = Done (<[i := a]> v).
Proof.
  intros Hi. unfold set_at.
  destruct (Z.leb_spec 0 (Z.of_nat i)); [|lia].
  destruct (Z.ltb_spec (Z.of_nat i) (Z.of_nat (length v))); [|lia].
  by rewrite Nat2Z.id.
Qed.

Lemma permutation_in_range (rank : nat) (axes : list Z) :
  axes ≡ₚ Z.of_nat <$> seq 0 rank -> axes_in_range rank axes.
Proof.
  intros Hp. unfold axes_in_range. rewrite Hp.
  apply Forall_fmap, Forall_forall. intros x Hx%elem_of_seq. cbn. lia.
Qed.

Lemma newShape_loop_spec (a axes : list Z) (n i : nat) (shape : list Z) :
  axes_in_range (length a) axes ->
  length shape = length axes -> (i + n = length axes)%nat ->
  exists s', newShape_loop a axes n (Z.of_nat i) shape = Done s' /\
    length s' = length shape /\
    forall j : nat,
      s' !! j = if decide (i <= j)%nat
                then axes !! j ≫= fun ax => a !! Z.to_nat ax
                else shape !! j.
Proof.
  intros Hr. revert i shape.
  induction n as [|n IH]; intros i shape Hl Hn.
  - exists shape. split; [done|]. split; [done|]. intros j.
    case_decide; [|done].
    rewrite (lookup_ge_None_2 shape), (lookup_ge_None_2 axes) by lia. done.
  - destruct (lookup_lt_is_Some_2 axes i ltac:(lia)) as [ax Hax].
    pose proof (Forall_lookup_1 _ _ _ _ Hr Hax) as Hb. cbn beta in Hb.
    destruct (lookup_lt_is_Some_2 a (Z.to_nat ax) ltac:(lia)) as [d Hd].
    cbn [newShape_loop]. rewrite (at_Done _ _ _ Hax).
    cbn [mbind outcome_bind].
    rewrite (at_Done_Z _ _ _ (proj1 Hb) Hd). cbn [mbind outcome_bind].
    rewrite set_at_Done by lia. cbn [mbind outcome_bind].
    replace (Z.of_nat i + 1) with (Z.of_nat (S i)) by lia.
    destruct (IH (S i) (<[i := d]> shape)) as (s' & Hs & Hlen & Hlk);
      [by rewrite length_insert | lia |].
    exists s'. split; [done|]. split; [by rewrite Hlen, length_insert|].
    intros j. rewrite Hlk. destruct (decide (i = j)) as [<- | Hne].
    + rewrite decide_False, decide_True by lia.
      rewrite list_lookup_insert_eq by lia. by rewrite Hax; cbn; rewrite Hd.
    + repeat case_decide; try lia; [done|].
      by rewrite list_lookup_insert_ne.
Qed.

Lemma axesBw_loop_ok (axes : list Z) (n i : nat) (bw : list Z) :
  axes_in_range (length axes) axes ->
  length bw = length axes -> (i + n = length axes)%nat ->
  exists bw', axesBw_loop axes n (Z.of_nat i) bw = Done bw'.
Proof.
  intros Hr. revert i bw.
  induction n as [|n IH]; intros i bw Hl Hn; [by eexists|].
  destruct (lookup_lt_is_Some_2 axes i ltac:(lia)) as [ax Hax].
  pose proof (Forall_lookup_1 _ _ _ _ Hr Hax) as Hb. cbn beta in Hb.
  cbn [axesBw_loop]. rewrite (at_Done _ _ _ Hax). cbn [mbind outcome_bind].
  rewrite <- (Z2Nat.id ax) by lia.
  rewrite set_at_Done by lia. cbn [mbind outcome_bind].
  replace (Z.of_nat i + 1) with (Z.of_nat (S i)) by lia.
  apply IH; [by rewrite length_insert | lia].
Qed.

(** C8.  A transpose whose list of axes is not as long as the rank of the
    child stops in [ABORT_IF] with its message.  For a permutation of the
    axes of the child the construction finishes, keeps the axes, and extent
    [i] of the new shape is the child's extent at [axes[i]]. *)
Theorem transpose_construction (a_shape : Shape) (axes : list Z) :
  (length axes <> length a_shape ->
   new a_shape axes =
     Abort "Shape and transpose axes have different number of dimensions") /\
  (axes ≡ₚ Z.of_nat <$> seq 0 (length a_shape) ->
   exists node, new a_shape axes = Done node /\
     axes_ node = axes /\
     length (shape node) = length a_shape /\
     forall (i : nat) ax, axes !! i = Some ax ->
       shape node !! i = a_shape !! Z.to_nat ax).
Proof.
  split.
  - intros Hne. unfold new, newShape.
    destruct (Nat.eqb_spec (length a_shape) (length axes)); [lia | reflexivity].
  - intros Hp.
    assert (Hlen : length axes = length a_shape).
    { by rewrite Hp, length_fmap, length_seq. }
    pose proof (permutation_in_range _ _ Hp) as Hr.
    unfold new, newShape. rewrite Hlen, Nat.eqb_refl. cbn [negb ABORT_IF mbind outcome_bind].
    destruct (newShape_loop_spec a_shape axes (length a_shape) 0 a_shape)
      as (s' & Hs & Hl & Hlk); [done | done | lia |].
    change (Z.of_nat 0) with 0 in Hs. rewrite Hs. cbn [mbind outcome_bind].
    rewrite <- Hlen in Hr |- *.
    destruct (axesBw_loop_ok axes (length axes) 0 (replicate (length axes) 0))
      as (bw & Hbw); [done | by rewrite length_replicate | lia |].
    change (Z.of_nat 0) with 0 in Hbw. rewrite Hbw. cbn [mbind outcome_bind].
    eexists. split; [done|]. cbn. split; [done|]. split; [congruence|].
    intros i ax Hax. rewrite Hlk, decide_True by lia. by rewrite Hax.
Qed.


Lemma transpose_construction_witness :
  new [2; 3] [0] =
    Abort "Shape and transpose axes have different number of dimensions" /\
  exists node, new [2; 3; 4] [2; 0; 1] = Done node /\ shape node !! 0%nat = Some 4.
Proof.
  split.
  - apply (proj1 (transpose_construction [2; 3] [0])). cbn. lia.
  - destruct (proj2 (transpose_construction [2; 3; 4] [2; 0; 1]))
      as (node & Hn & _ & _ & Hs).
    + cbn. apply (Permutation_cons_append [0; 1] 2).
    + exists node. split; [exact Hn | exact (Hs 0%nat 2 eq_refl)].
Defined.

End TransposeFacts.

(** ** [mapM] in the outcome monad *)
Section MapM.
Context {A B : Type}.
Implicit Types (f g : A -> outcome B).

Lemma mapM_Done f (l : list A) (k : list B) :
  mapM f l = Done k <-> Forall2 (fun x y => f x = Done y) l k.
Proof.
  revert k. induction l as [|x l IH]; intros k; cbn.
  - split; [intros [= <-]; constructor | by intros ->%Forall2_nil_inv_l].
  - split.
    + destruct (f x) as [y| |] eqn:Hy; cbn; try done.
      destruct (mapM f l) as [k'| |] eqn:Hk; cbn; try done.
      intros [= <-]. constructor; [done | by apply IH].
    + intros (y & k' & Hy & Hk & ->)%Forall2_cons_inv_l.
      rewrite Hy. cbn. apply IH in Hk. by rewrite Hk.
Qed.



Lemma mapM_ext f g (l : list A) :
  (forall x, x ∈ l -> f x = g x) -> mapM f l = mapM g l.
Proof.
  induction l as [|x l IH]; intros Hfg; cbn; [done|].
  rewrite Hfg by left. rewrite IH; [done|]. intros y Hy. apply Hfg. by right.
Qed.

End MapM.

Module NodeOpsFacts.
Import NodeOps.

Section Accumulate.
Context {T : Type} `{Scalar T} `{Functional T}.
Implicit Types (graph : list (Expr T)) (node : Node T) (op : NodeOp T).

Lemma same_values_lookup graph graph' id c :
  same_values graph graph' -> graph !! id = Some c ->
  exists c', graph' !! id = Some c' /\ shape c = shape c' /\ val c = val c' /\
             length (grad c) = length (grad c').
Proof.
  intros Hs Hc. destruct (Forall2_lookup_l _ _ _ _ _ Hs Hc) as (c' & ? & ?).
  by exists c'.
Qed.

Lemma same_values_lookup_None graph graph' id :
  same_values graph graph' -> graph !! id = None -> graph' !! id = None.
Proof.
  intros Hs Hc. apply lookup_ge_None. apply lookup_ge_None in Hc.
  by rewrite <- (Forall2_length _ _ _ Hs).
Qed.


Lemma child_same_values node graph graph' i :
  same_values graph graph' ->
  match child node graph i, child node graph' i with
  | Done c, Done c' => shape c = shape c' /\ val c = val c'
  | OutOfBounds, OutOfBounds => True
  | _, _ => False
  end.
Proof.
  intros Hs. unfold child. destruct (children_ node !! i) as [id|]; [|done].
  destruct (graph !! id) as [c|] eqn:Hc.
  - destruct (same_values_lookup _ _ _ _ Hs Hc) as (c' & -> & ? & ? & _). done.
  - by rewrite (same_values_lookup_None _ _ _ Hs Hc).
Qed.

Lemma operand_same_values node graph graph' o :
  same_values graph graph' -> operand node graph o = operand node graph' o.
Proof.
  intros Hs. destruct o as [| |i]; cbn; try done.
  pose proof (child_same_values node _ _ i Hs) as Hc.
  destruct (child node graph i), (child node graph' i); try done.
  cbn. destruct Hc as [-> ->]. done.
Qed.

Lemma op_contribution_same_values node graph graph' op :
  same_values graph graph' ->
  op_contribution node graph op = op_contribution node graph' op.
Proof.
  intros Hs. unfold op_contribution.
  destruct (children_ node !! target op) as [id|]; [|done].
  destruct (graph !! id) as [c|] eqn:Hc.
  - destruct (same_values_lookup _ _ _ _ Hs Hc) as (c' & -> & Hsh & _ & Hl).
    rewrite (mapM_ext _ (operand node graph')) by (intros; by apply operand_same_values).
    by rewrite Hsh, Hl.
  - by rewrite (same_values_lookup_None _ _ _ Hs Hc).
Qed.

Lemma runOp_contribution node graph op :
  runOp node graph op =
    c ← op_contribution node graph op; Done (accumulate graph c).
Proof.
  unfold runOp, op_contribution, Add, accumulate.
  destruct (children_ node !! target op) as [id|]; [|done].
  destruct (graph !! id) as [c|] eqn:Hc; [|done].
  destruct (mapM (operand node graph) (operands op)) as [ins| |]; cbn; try done.
  destruct (contribution _ _ _ _) as [K| |]; cbn; try done.
  destruct (Nat.eqb _ _); cbn; [|done]. f_equal.
  apply list_eq. intros i. destruct (decide (i = id)) as [-> | Hne].
  - rewrite list_lookup_insert_eq by (by eapply lookup_lt_Some).
    by rewrite list_lookup_alter_eq, Hc.
  - by rewrite list_lookup_insert_ne, list_lookup_alter_ne.
Qed.

Lemma accumulate_same_values graph graph' c :
  same_values graph graph' ->
  same_values (accumulate graph c) (accumulate graph' c).
Proof.
  intros Hs. unfold accumulate, same_values. apply Forall2_alter; [done|].
  intros e e' _ _ (? & ? & Hl). cbn. repeat split; try done.
  by rewrite !length_zip_with, Hl.
Qed.


Lemma runBackward_accumulates node ops graph s :
  runBackward node ops graph = Done s ->
  exists Ks : list (nat * list T),
    forall graph', same_values graph graph' ->
      runBackward node ops graph' = Done (foldl accumulate graph' Ks).
Proof.
  revert graph. induction ops as [|op ops IH]; intros graph Hrun.
  - exists []. by intros graph' _.
  - cbn in Hrun. rewrite runOp_contribution in Hrun.
    destruct (op_contribution node graph op) as [c| |] eqn:Hc; cbn in Hrun; try done.
    destruct (IH _ Hrun) as (Ks & HKs). exists (c :: Ks). intros graph' Hs.
    cbn. rewrite runOp_contribution.
    rewrite <- (op_contribution_same_values _ _ _ _ Hs), Hc. cbn.
    apply HKs. by apply accumulate_same_values.
Qed.

End Accumulate.


(** *** Shapes that broadcast *)
Section Broadcast.
Context {T : Type} `{Scalar T} `{Functional T}.

Lemma elements_pos (s : Shape) : Forall (fun d => 0 < d) s -> 0 < elements s.
Proof.
  unfold elements. induction 1 as [|d s Hd _ IH]; cbn [foldr]; [lia | nia].
Qed.

Lemma elements_cons (d : Z) (s : Shape) : elements (d :: s) = d * elements s.
Proof. done. Qed.



Lemma bindex_same (s : Shape) k :
  Forall (fun d => 0 < d) s -> 0 <= k < elements s -> bindex s s k = k.
Proof.
  intros Hs. revert k. induction Hs as [|d s Hd Hs IH]; intros k Hk.
  - unfold elements in Hk. cbn in *. lia.
  - pose proof (elements_pos _ Hs) as Es.
    rewrite elements_cons in Hk. cbn [bindex].
    pose proof (Z.mod_pos_bound k (elements s) Es) as Hm.
    rewrite (IH _ Hm).
    pose proof (Z.div_mod k (elements s) ltac:(lia)) as E.
    destruct (Z.eqb_spec d 1) as [-> | Hne]; [|lia].
    assert (k / elements s = 0) by (apply Z.div_small; lia). lia.
Qed.

Lemma broadcast_same (s : Shape) : broadcast s s = s.
Proof.
  unfold broadcast. induction s as [|d s IH]; cbn; [done|].
  by rewrite Z.max_id, IH.
Qed.





End Broadcast.

(** *** [backward()] adds the contributions of its operations *)
Section Contributions.
Context {T : Type} `{Scalar T} `{Functional T}.
Implicit Types (graph : list (Expr T)) (node : Node T) (op : NodeOp T).

Lemma mapM_fmap_Done {A B} (f : A -> outcome B) (g : A -> B) (l : list A) :
  (forall x, x ∈ l -> f x = Done (g x)) -> mapM f l = Done (g <$> l).
Proof.
  intros Hf. apply mapM_Done. apply Forall2_fmap_r, Forall_Forall2_diag.
  by apply Forall_forall.
Qed.









End Contributions.

(** *** On a well-formed graph [backward()] finishes *)
Section Finishes.
Context {T : Type} `{Scalar T} `{Functional T}.
Implicit Types (graph : list (Expr T)) (node : Node T) (op : NodeOp T).










End Finishes.

(** *** Operands of the shape of the output *)
Section SameShape.
Context {T : Type} `{Scalar T} `{Functional T}.
Implicit Types (graph : list (Expr T)) (node : Node T) (op : NodeOp T)
               (c : Expr T).

Lemma filter_seq_singleton (P : nat -> Prop) `{!forall i, Decision (P i)}
    (j a n : nat) :
  (forall i, (a <= i < a + n)%nat -> P i <-> i = j) ->
  filter P (seq a n) = if decide (a <= j < a + n)%nat then [j] else [].
Proof.
  revert a. induction n as [|n IH]; intros a HP.
  - cbn. case_decide; [lia | done].
  - cbn [seq]. rewrite filter_cons, IH by (intros; apply HP; lia).
    destruct (decide (P a)) as [Ha | Ha].
    + apply HP in Ha as <-; [|lia].
      rewrite decide_False by lia. by rewrite decide_True by lia.
    + assert (a <> j) by (intros ->; apply Ha, HP; [lia | done]).
      destruct (decide (S a <= j < S a + n)%nat);
        [by rewrite decide_True by lia | by rewrite decide_False by lia].
Qed.

Lemma positions_same (s : Shape) (j : nat) :
  Forall (fun d => 0 < d) s -> Z.of_nat j < elements s ->
  positions s s j = [j].
Proof.
  intros Hs Hj. unfold positions.
  rewrite (filter_seq_singleton _ j).
  - rewrite decide_True by lia. done.
  - intros i Hi. rewrite bindex_same by (done || lia). lia.
Qed.

Lemma full_shape_same (s : Shape) (ins : list (Shape * list T)) :
  Forall (fun i => i.1 = s) ins -> full_shape s ins = s.
Proof.
  unfold full_shape. induction 1 as [|i ins Hi _ IH]; cbn; [done|].
  by rewrite IH, Hi, broadcast_same.
Qed.

(** What one [NodeOp] contributes when its operands have the shape of the
    gradient it adds to. *)
Lemma op_contribution_resolved node graph c op (id : nat) :
  let n := Z.to_nat (elements (shape_ node)) in
  let tensor_of o := match o with
                     | Adj => adj_ node | Val => val_ node
                     | ChildVal _ => val c
                     end in
  children_ node !! target op = Some id -> graph !! id = Some c ->
  shape c = shape_ node -> Forall (fun d => 0 < d) (shape_ node) ->
  length (grad c) = n ->
  Forall (fun o => operand node graph o = Done (shape_ node, tensor_of o) /\
                   length (tensor_of o) = n) (operands op) ->
  op_contribution node graph op = Done (id, elementwise node c op n).
Proof.
  intros n tensor_of Ht Hc Hshp Hpos Hgr Hops.
  pose proof (elements_pos _ Hpos) as HE.
  unfold op_contribution. rewrite Ht, Hc.
  rewrite (mapM_fmap_Done _ (fun o => (shape_ node, tensor_of o))).
  2:{ intros o Ho. by apply (proj1 (Forall_forall _ _) Hops o Ho). }
  cbn [mbind outcome_bind]. rewrite Hshp. unfold contribution.
  rewrite full_shape_same by (apply Forall_fmap, Forall_forall; by intros). 
  fold n.
  rewrite (mapM_fmap_Done _
             (fun j => scaled (scale op)
                (functor op (operand_value node c j <$> operands op)))).
  2:{ intros j Hj%elem_of_seq. unfold contribution_at.
      rewrite positions_same by (done || lia).
      assert (Hv : value_at (functor op) (shape_ node)
                     ((fun o => (shape_ node, tensor_of o)) <$> operands op) j
                   = Done (functor op (operand_value node c j <$> operands op))).
      { unfold value_at.
        rewrite (mapM_fmap_Done _ (fun p => default zero (p.2 !! j))).
        2:{ intros [shp l] [o [[= -> ->] Ho]]%list_elem_of_fmap. cbn [snd].
            rewrite bindex_same by (done || lia).
            pose proof (proj2 (proj1 (Forall_forall _ _) Hops o Ho)) as Htl.
            destruct (lookup_lt_is_Some_2 (tensor_of o) j) as [x Hx];
              [rewrite Htl; lia|].
            rewrite Hx. cbn. by apply TransposeFacts.at_Done. }
        cbn [mbind outcome_bind]. do 2 f_equal.
        rewrite <- list_fmap_compose. by apply list_fmap_ext. }
      cbn [mapM]. rewrite Hv. done. }
  cbn [mbind outcome_bind].
  rewrite length_fmap, length_seq, Hgr, Nat.eqb_refl. done.
Qed.

Lemma op_contribution_same_shape node graph c op (id : nat) :
  let n := Z.to_nat (elements (shape_ node)) in
  children_ node !! target op = Some id -> graph !! id = Some c ->
  (forall i id', children_ node !! i = Some id' -> id' = id) ->
  shape c = shape_ node -> Forall (fun d => 0 < d) (shape_ node) ->
  length (adj_ node) = n -> length (val_ node) = n -> length (val c) = n ->
  length (grad c) = n ->
  Forall (fun o => match o with
                   | ChildVal i => (i < length (children_ node))%nat
                   | _ => True
                   end) (operands op) ->
  op_contribution node graph op = Done (id, elementwise node c op n).
Proof.
  intros n Ht Hc Hall Hshp Hpos Hadj Hval Hcv Hgr Hops.
  apply op_contribution_resolved; try done.
  eapply Forall_impl; [exact Hops|]. intros o Hoc.
  destruct o as [| |i]; cbn; try done.
  unfold child.
  destruct (lookup_lt_is_Some_2 (children_ node) i Hoc) as [id' Hid'].
  rewrite Hid', (Hall _ _ Hid'), Hc. cbn. by rewrite Hshp.
Qed.

Lemma backwardOps_unary (k : Kind T) node graph c (id : nat) :
  children_ node = [id] -> graph !! id = Some c ->
  Forall (fun d => 0 < d) (shape_ node) ->
  exists op, backwardOps k node graph = Done [op] /\ target op = 0%nat /\
    Forall (fun o => match o with
                     | ChildVal i => (i < length (children_ node))%nat
                     | _ => True
                     end) (operands op).
Proof.
  intros Hch Hc Hpos. pose proof (elements_pos _ Hpos) as HE.
  destruct k; cbn [backwardOps unary]; rewrite ?Hch; cbn [length seq fmap list_fmap];
    try (eexists; split; [reflexivity|]; split; [done|];
         repeat constructor; cbn; lia).
  unfold child. rewrite Hch. cbn. rewrite Hc. cbn.
  destruct (Z.eqb_spec (elements (shape_ node)) 0) as [|_]; [lia|].
  eexists; split; [reflexivity|]; split; [done|]. repeat constructor.
Qed.

(** One child of the shape of the node: [backward()] finishes and adds to
    element [j] of the gradient of the child the functor at the elements
    [j] of its operands. *)
Lemma backward_same_shape (k : Kind T) node graph c (id : nat) :
  let n := Z.to_nat (elements (shape_ node)) in
  children_ node = [id] -> graph !! id = Some c ->
  shape c = shape_ node -> Forall (fun d => 0 < d) (shape_ node) ->
  length (adj_ node) = n -> length (val_ node) = n -> length (val c) = n ->
  length (grad c) = n ->
  exists op,
    backwardOps k node graph = Done [op] /\
    backward k node graph =
      Done (<[id := {| shape := shape c; val := val c;
                       grad := zip_with add (grad c) (elementwise node c op n) |}]>
              graph).
Proof.
  intros n Hch Hc Hshp Hpos Hadj Hval Hcv Hgr.
  destruct (backwardOps_unary k node graph c id Hch Hc Hpos)
    as (op & Hops & Ht & Hoperands).
  exists op. split; [done|]. unfold backward. rewrite Hops.
  cbn [mbind outcome_bind runBackward].
  rewrite runOp_contribution.
  rewrite (op_contribution_same_shape node graph c op id); try done.
  - cbn [mbind outcome_bind]. unfold accumulate. cbn [fst snd].
    f_equal. apply list_eq. intros i. destruct (decide (i = id)) as [-> | Hne].
    + rewrite list_lookup_alter_eq, list_lookup_insert_eq, Hc; [done|].
      by eapply lookup_lt_Some.
    + by rewrite list_lookup_alter_ne, list_lookup_insert_ne.
  - by rewrite Ht, Hch.
  - intros i id'. rewrite Hch. destruct i as [|i]; cbn; [congruence | done].
Qed.



End SameShape.

Section Linear.
Context {T : Type} `{Scalar T} `{Functional T} `{!ExactArithmetic T}.
Implicit Types (graph : list (Expr T)) (node : Node T) (op : NodeOp T).

Add Ring scalar_is_ring : scalar_ring.























End Linear.

#[global] Instance bool_exact : ExactArithmetic bool.
Proof.
  split; [exact BoolTheory|]. intros a b c. by destruct a, b, c.
Qed.

Section Claim.
Context {T : Type} `{Scalar T} `{Functional T}.


End Claim.



End NodeOpsFacts.

Module AliasingFacts.
Import Aliasing.
Section Facts.
Context {T : Type}.
Implicit Types (w : World T) (t : TensorBase).

Lemma step_offset_exact (s : StepNodeOp) :
  0 <= step_ s -> 0 <= elements (step_shape s) ->
  step_ s * elements (step_shape s) < 2 ^ 31 ->
  step_offset s = step_ s * elements (step_shape s) * sizeof_float.
Proof.
  intros Hk Hn Hb. unfold step_offset, to_size_t, to_int, sizeof_float.
  assert (0 <= step_ s * elements (step_shape s)) by nia.
  rewrite (Z.mod_small (_ + 2 ^ 31)) by lia.
  rewrite Z.mod_small; lia.
Qed.

(** Writing element [j] through a view that starts [off] elements into the
    memory of [a] is writing element [off + j] of [a]. *)
Lemma view_write_visible w (a v : TensorBase) (off j : Z) (x : T) :
  data (memory v) = data (memory a) + off * sizeof_float ->
  get (set w v j x) a (off + j) = Some x /\
  (forall i, i <> off + j -> get (set w v j x) a i = get w a i) /\
  get (set w a (off + j) x) v j = Some x /\
  (forall i, i <> j -> get (set w a (off + j) x) v i = get w v i).
Proof.
  intros Hd. unfold get, set, sizeof_float in *. cbn. rewrite Hd.
  repeat split.
  - match goal with |- <[?k := _]> _ !! ?k' = _ => replace k' with k by lia end.
    apply lookup_insert_eq.
  - intros i Hi. apply lookup_insert_ne. lia.
  - match goal with |- <[?k := _]> _ !! ?k' = _ => replace k' with k by lia end.
    apply lookup_insert_eq.
  - intros i Hi. apply lookup_insert_ne. lia.
Qed.

Lemma New_lookup w t (i : nat) c :
  tensors w !! i = Some c -> tensors (New t w).2 !! i = Some c.
Proof. intros Hc. cbn. by apply lookup_app_l_Some. Qed.

Lemma length_New w t : length (tensors (New t w).2) = S (length (tensors w)).
Proof. cbn. rewrite length_app. cbn. lia. Qed.

(** What a call of [New] leaves. *)
Lemma New_spec w t :
  tensors w !! (New t w).1 = None /\
  tensors (New t w).2 !! (New t w).1 = Some t /\
  heap (New t w).2 = heap w /\
  forall i c, tensors w !! i = Some c -> tensors (New t w).2 !! i = Some c.
Proof.
  cbn. split; [by apply lookup_ge_None|]. split.
  { by rewrite lookup_app_r, Nat.sub_diag by lia. }
  split; [done|]. intros i c Hc. by apply lookup_app_l_Some.
Qed.

(** Two calls of [New] in a row. *)
Lemma New_twice w t :
  let w' := (New t w).2 in let w'' := (New t w').2 in
  tensors w !! (New t w).1 = None /\
  tensors w' !! (New t w).1 = Some t /\
  tensors w' !! (New t w').1 = None /\
  tensors w'' !! (New t w').1 = Some t /\
  tensors w'' !! (New t w).1 = Some t /\
  heap w' = heap w /\ heap w'' = heap w /\
  forall i c, tensors w !! i = Some c -> tensors w'' !! i = Some c.
Proof.
  intros w' w''.
  destruct (New_spec w t) as (Hp & Hp1 & Hh1 & Hk1).
  destruct (New_spec w' t) as (Hp' & Hp2 & Hh2 & Hk2).
  split; [done|]. split; [done|]. split; [done|]. split; [done|].
  split; [by apply Hk2|]. split; [done|]. split; [exact (eq_trans Hh2 Hh1)|].
  intros i c Hc. by apply Hk2, Hk1.
Qed.

Ltac two_calls Hc :=
  rewrite Hc;
  match goal with
  | |- context [New ?t ?w] =>
      exists (New t w).1; eexists; exists (New t w).2;
      exists (New t (New t w).2).1; eexists; exists (New t (New t w).2).2;
      split; [reflexivity|];
      split; [cbn [reshapee_ stepNode_]; rewrite (New_lookup w t _ _ Hc);
              reflexivity|];
      apply (New_twice w t)
  end.

Lemma reshape_val_fresh (r : ReshapeNodeOp) w c :
  tensors w !! val (reshapee_ r) = Some c ->
  fresh_view reshape_val r w
    {| memory := memory c; shape := reshape_shape r; getBackend := getBackend c |}.
Proof. intros Hc. unfold fresh_view, reshape_val. two_calls Hc. Qed.

Lemma reshape_grad_fresh (r : ReshapeNodeOp) w c :
  tensors w !! grad (reshapee_ r) = Some c ->
  fresh_view reshape_grad r w
    {| memory := memory c; shape := reshape_shape r; getBackend := getBackend c |}.
Proof. intros Hc. unfold fresh_view, reshape_grad. two_calls Hc. Qed.

Lemma step_val_fresh (s : StepNodeOp) w c :
  tensors w !! val (stepNode_ s) = Some c ->
  fresh_view step_val s w (view c (step_shape s) (step_offset s)).
Proof. intros Hc. unfold fresh_view, step_val. two_calls Hc. Qed.

Lemma step_grad_fresh (s : StepNodeOp) w c :
  tensors w !! grad (stepNode_ s) = Some c ->
  fresh_view step_grad s w (view c (step_shape s) (step_offset s)).
Proof. intros Hc. unfold fresh_view, step_grad. two_calls Hc. Qed.

(** C6.  [reshape] and [step] allocate nothing and their [forward()] and
    [backward()] leave the world as it is.  With the tensors of the child in
    place, every call of [val()] or [grad()] stores a new [TensorBase]
    object, at a position that held none, over the memory of the child's
    tensor: the same memory piece under the new shape for [reshape]; for
    [step] the piece that starts [step_ * elements * sizeof(float)] bytes
    further.  An element written through the gradient view of [step] is
    element [step_ * elements + j] of the child's gradient and no other, and
    the other way round; through the gradient view of [reshape] it is
    element [j]. *)
Theorem aliasing_views (r : ReshapeNodeOp) (s : StepNodeOp) w
    (cv cg sv sg : TensorBase) :
  tensors w !! val (reshapee_ r) = Some cv ->
  tensors w !! grad (reshapee_ r) = Some cg ->
  tensors w !! val (stepNode_ s) = Some sv ->
  tensors w !! grad (stepNode_ s) = Some sg ->
  0 <= step_ s -> 0 <= elements (step_shape s) ->
  step_ s * elements (step_shape s) < 2 ^ 31 ->
  let off := step_ s * elements (step_shape s) in
  (reshape_allocate r = 0 /\ step_allocate s = 0 /\
   reshape_forward r w = w /\ reshape_backward r w = w /\
   step_forward s w = w /\ step_backward s w = w) /\
  fresh_view reshape_val r w
    {| memory := memory cv; shape := reshape_shape r;
       getBackend := getBackend cv |} /\
  fresh_view reshape_grad r w
    {| memory := memory cg; shape := reshape_shape r;
       getBackend := getBackend cg |} /\
  fresh_view step_val s w
    {| memory := {| data := data (memory sv) + off * sizeof_float;
                    size := size (memory sv) |};
       shape := step_shape s; getBackend := getBackend sv |} /\
  fresh_view step_grad s w
    {| memory := {| data := data (memory sg) + off * sizeof_float;
                    size := size (memory sg) |};
       shape := step_shape s; getBackend := getBackend sg |} /\
  (forall (p : nat) (s' : StepNodeOp) (w' : World T) (v : TensorBase)
          (w0 : World T) (j : Z) (x : T),
     step_grad s w = Done (p, s', w') -> tensors w' !! p = Some v ->
     get (set w0 v j x) sg (off + j) = Some x /\
     (forall i, i <> off + j -> get (set w0 v j x) sg i = get w0 sg i) /\
     get (set w0 sg (off + j) x) v j = Some x /\
     (forall i, i <> j -> get (set w0 sg (off + j) x) v i = get w0 v i)) /\
  (forall (p : nat) (r' : ReshapeNodeOp) (w' : World T) (v : TensorBase)
          (w0 : World T) (j : Z) (x : T),
     reshape_grad r w = Done (p, r', w') -> tensors w' !! p = Some v ->
     get (set w0 v j x) cg j = Some x /\
     (forall i, i <> j -> get (set w0 v j x) cg i = get w0 cg i) /\
     get (set w0 cg j x) v j = Some x /\
     (forall i, i <> j -> get (set w0 cg j x) v i = get w0 v i)).
Proof.
  intros Hcv Hcg Hsv Hsg Hk Hn Hb off.
  pose proof (step_offset_exact s Hk Hn Hb) as Hoff. fold off in Hoff.
  split; [done|].
  split; [by apply reshape_val_fresh|]. split; [by apply reshape_grad_fresh|].
  rewrite <- Hoff.
  split; [by apply step_val_fresh|]. split; [by apply step_grad_fresh|].
  split.
  - intros p s' w' v w0 j x Hcall Hv.
    apply view_write_visible.
    unfold step_grad in Hcall. rewrite Hsg in Hcall.
    cbn [New] in Hcall. injection Hcall as <- _ <-. cbn [tensors] in Hv.
    rewrite lookup_app_r, Nat.sub_diag in Hv by lia. injection Hv as <-.
    cbn [memory data]. by rewrite Hoff.
  - intros p r' w' v w0 j x Hcall Hv.
    pose proof (view_write_visible w0 cg v 0 j x) as Hvis.
    rewrite Z.add_0_l in Hvis. apply Hvis.
    unfold reshape_grad in Hcall. rewrite Hcg in Hcall.
    cbn [New] in Hcall. injection Hcall as <- _ <-. cbn [tensors] in Hv.
    rewrite lookup_app_r, Nat.sub_diag in Hv by lia. injection Hv as <-.
    cbn [memory]. lia.
Qed.

End Facts.

(** [step(A, k = 2, axis = 0)] of a 3x4 tensor: [grad()] stores, at the first
    unused position, a 1x4 view that starts 32 bytes into the memory of
    [A]; element 1 written through it is element 9 of [A]. *)
Lemma aliasing_views_witness :
  let a := {| memory := {| data := 1000; size := 48 |}; shape := [3; 4];
              getBackend := 0 |} in
  let v := {| memory := {| data := 1032; size := 48 |}; shape := [1; 4];
              getBackend := 0 |} in
  let w : World Z := {| heap := ∅; tensors := [a; a] |} in
  let A := {| val := 0%nat; grad := 1%nat |} in
  exists s, step_new A [3; 4] 2 0 = Done s /\ step_shape s = [1; 4] /\
    (exists s' w', step_grad s w = Done (2%nat, s', w') /\
                   tensors w' !! 2%nat = Some v) /\
    get (set w v 1 5) a 9 = Some 5.
Proof.
  intros a v w A. eexists. split; [reflexivity|]. split; [reflexivity|].
  destruct (aliasing_views
       {| reshapee_ := A; reshape_shape := [12]; reshape_val_ := None;
          reshape_adj_ := None |}
       {| stepNode_ := A; step_ := 2; axis_ := 0; step_shape := [1; 4];
          step_val_ := None; step_adj_ := None |}
       w a a a a eq_refl eq_refl eq_refl eq_refl)
    as (_ & _ & _ & _ & Hfresh & Hvis & _); [cbn; lia.. |].
  destruct Hfresh as (p & s' & w' & _ & _ & _ & Hcall & _ & _ & Hp & _).
  assert (p = 2%nat) as -> by (by injection Hcall).
  split; [by exists s', w'|].
  exact (proj1 (Hvis 2%nat s' w' v w 1 5 Hcall Hp)).
Defined.

End AliasingFacts.

Section CommFacts.
Context {T : Type} `{Scalar T}.
Implicit Types (st : State T) (g : Graph T) (l v : list T) (b : Buffer).

Lemma tensor_Done st b l :
  memory st b = Some l ->
  tensor st b = Done {| buffer := b; offset := 0; size := Z.of_nat (length l) |}.
Proof. intros Hm. unfold tensor. by rewrite Hm. Qed.

Lemma in_range_true (off n : Z) l :
  0 <= off -> 0 <= n -> off + n <= Z.of_nat (length l) -> in_range off n l = true.
Proof.
  intros. unfold in_range.
  destruct (Z.leb_spec 0 off), (Z.leb_spec 0 n),
    (Z.leb_spec (off + n) (Z.of_nat (length l))); done || lia.
Qed.

Lemma in_range_false (off n : Z) l :
  Z.of_nat (length l) < off + n -> in_range off n l = false.
Proof.
  intros. unfold in_range.
  destruct (Z.leb_spec (off + n) (Z.of_nat (length l))); [lia|].
  by rewrite andb_false_r.
Qed.

Lemma data_Done st b l (len pos n : Z) :
  memory st b = Some l -> 0 <= pos -> 0 <= n -> pos + n <= Z.of_nat (length l) ->
  data st (subtensor {| buffer := b; offset := 0; size := len |} pos n)
    = Done (slice pos n l).
Proof.
  intros Hm ? ? ?. unfold data, subtensor. cbn. rewrite Hm.
  by rewrite in_range_true by lia.
Qed.

Lemma data_whole st b l :
  memory st b = Some l ->
  data st {| buffer := b; offset := 0; size := Z.of_nat (length l) |} = Done l.
Proof.
  intros Hm. unfold data. cbn. rewrite Hm, in_range_true by lia.
  cbn. by rewrite Nat2Z.id, firstn_all.
Qed.

Lemma write_Done st b l (len pos n : Z) v :
  memory st b = Some l -> 0 <= pos -> pos + Z.of_nat (length v) <= Z.of_nat (length l) ->
  write st (subtensor {| buffer := b; offset := 0; size := len |} pos n) v
    = Done (set_memory st b (list_inserts (Z.to_nat pos) v l)).
Proof.
  intros Hm ? ?. unfold write, subtensor. cbn. rewrite Hm.
  by rewrite in_range_true by lia.
Qed.

Lemma list_inserts_0_all v l : length v = length l -> list_inserts 0 v l = v.
Proof.
  intros Hl. pose proof (list_inserts_0_r v l [] Hl) as E.
  by rewrite !app_nil_r in E.
Qed.

Lemma write_whole st b l v (len : Z) :
  memory st b = Some l -> length v = length l ->
  write st {| buffer := b; offset := 0; size := len |} v
    = Done (set_memory st b v).
Proof.
  intros Hm Hl. unfold write. cbn. rewrite Hm, in_range_true by lia.
  cbn. by rewrite list_inserts_0_all.
Qed.

Lemma copyFrom_Done st (dst src : Tensor) v st' :
  data st src = Done v -> write st dst v = Done st' ->
  copyFrom dst src st = Done st'.
Proof. intros Hd Hw. unfold copyFrom. by rewrite Hd. Qed.

Lemma length_slice (pos n : Z) l :
  0 <= pos -> 0 <= n -> pos + n <= Z.of_nat (length l) ->
  Z.of_nat (length (slice pos n l)) = n.
Proof. intros. unfold slice. rewrite length_take, length_drop. lia. Qed.

Lemma memory_vals st (i : nat) g :
  graphs_ st !! i = Some g -> memory st (ValsOf i) = Some (vals g).
Proof. intros Hg. cbn. by rewrite Hg. Qed.

Lemma memory_grads st (i : nat) g :
  graphs_ st !! i = Some g -> memory st (GradsOf i) = Some (grads g).
Proof. intros Hg. cbn. by rewrite Hg. Qed.


Lemma totalSize_Done st (total : Z) :
  (1 <= length (graphs_ st))%nat -> 0 <= total < 2 ^ 31 ->
  Forall (fun g => Z.of_nat (length (vals g)) = total) (graphs_ st) ->
  totalSize st = Done total.
Proof.
  intros HR Ht Hv. unfold totalSize.
  destruct (graphs_ st) as [|g0 gs]; [cbn in HR; lia|].
  pose proof (Forall_inv Hv) as Hg0. cbn beta in Hg0.
  by rewrite Hg0, F32Facts.to_int_small by lia.
Qed.

Lemma lookup_upto {A} i (f : A -> A) (l : list A) j :
  upto i f l !! j = (if decide (j < i)%nat then f else id) <$> l !! j.
Proof. unfold upto. rewrite list_lookup_imap. destruct (l !! j); by case_decide. Qed.

Lemma length_upto {A} i (f : A -> A) (l : list A) : length (upto i f l) = length l.
Proof. apply length_imap. Qed.

Lemma upto_0 {A} (f : A -> A) (l : list A) : upto 0 f l = l.
Proof.
  apply list_eq. intros j. rewrite lookup_upto.
  destruct (l !! j); [|done]. by rewrite decide_False by lia.
Qed.

Lemma upto_all {A} i (f : A -> A) (l : list A) : (length l <= i)%nat -> upto i f l = f <$> l.
Proof.
  intros Hi. apply list_eq. intros j. rewrite lookup_upto, list_lookup_fmap.
  destruct (l !! j) eqn:E; [|done]. apply lookup_lt_Some in E.
  by rewrite decide_True by lia.
Qed.

Lemma alter_upto {A} i (f f' : A -> A) (l : list A) x :
  l !! i = Some x -> f' x = f x -> alter f' i (upto i f l) = upto (S i) f l.
Proof.
  intros Hx Hf. apply list_eq. intros j. destruct (decide (j = i)) as [-> | Hne].
  - rewrite list_lookup_alter_eq, !lookup_upto, Hx. cbn.
    rewrite decide_False, decide_True by lia. cbn. by rewrite Hf.
  - rewrite list_lookup_alter_ne, !lookup_upto by done.
    destruct (l !! j); [|done]. cbn. repeat case_decide; done || lia.
Qed.

Lemma swap_loop_spec (idx : nat) (pos : Z) (P : list T) (gs : list (Graph T))
    (m i : nat) st :
  params st !! idx = Some P ->
  Z.of_nat (length P) < 2 ^ 31 -> 0 <= pos ->
  Forall (fun g => pos + Z.of_nat (length P) <= Z.of_nat (length (vals g))) gs ->
  (i + m <= length gs)%nat ->
  graphs_ st = upto i (put true pos P) gs ->
  swap_loop {| buffer := ParamOf idx; offset := 0;
               size := Z.of_nat (length P) |} pos m i st
    = Done (set_graphs st (upto (i + m) (put true pos P) gs)).
Proof.
  intros HP Hlen Hpos Hfit. revert i st HP.
  induction m as [|m IH]; intros i st HP Hi Hg.
  - cbn. rewrite Nat.add_0_r, <- Hg. by destruct st.
  - destruct (lookup_lt_is_Some_2 gs i ltac:(lia)) as [g Hgi].
    pose proof (Forall_lookup_1 _ _ _ _ Hfit Hgi) as Hfg. cbn beta in Hfg.
    assert (Hsti : graphs_ st !! i = Some g).
    { rewrite Hg, lookup_upto, Hgi. cbn. by rewrite decide_False by lia. }
    cbn [swap_loop]. rewrite (tensor_Done _ _ _ (memory_vals _ _ _ Hsti)).
    cbn [mbind outcome_bind size].
    rewrite (F32Facts.to_int_small (Z.of_nat (length P))) by lia.
    unfold copyFrom.
    rewrite (data_whole st (ParamOf idx) P) by done. cbn [mbind outcome_bind].
    rewrite (write_Done _ _ _ _ _ _ _ (memory_vals _ _ _ Hsti)) by lia.
    cbn [mbind outcome_bind].
    rewrite IH.
    + unfold set_graphs. cbn. do 3 f_equal. lia.
    + done.
    + lia.
    + cbn. rewrite Hg. by apply (alter_upto _ _ _ _ g).
Qed.


Lemma slice_inserts (pos : Z) (P v : list T) :
  0 <= pos -> pos + Z.of_nat (length P) <= Z.of_nat (length v) ->
  slice pos (Z.of_nat (length P)) (list_inserts (Z.to_nat pos) P v) = P.
Proof.
  intros Hpos Hfit. unfold slice. apply list_eq. intros j.
  rewrite Nat2Z.id. destruct (decide (j < length P)%nat) as [Hj | Hj].
  - rewrite lookup_take_lt, lookup_drop by done.
    rewrite list_lookup_inserts by lia. f_equal. lia.
  - rewrite lookup_take_ge by lia. symmetry. apply lookup_ge_None. lia.
Qed.

Lemma swap_unit (idx : nat) (pos : Z) (P : list T) (gs : list (Graph T))
    (glast : Graph T) st :
  graphs_ st = gs -> params st !! idx = Some P ->
  (2 <= length gs)%nat -> Z.of_nat (length gs) < 2 ^ 31 ->
  Z.of_nat (length P) < 2 ^ 31 -> 0 <= pos ->
  Forall (fun g => pos + Z.of_nat (length P) <= Z.of_nat (length (vals g))) gs ->
  last gs = Some glast ->
  swap idx pos st =
    Done {| graphs_ := put true pos P <$> gs; tmpTensors_ := tmpTensors_ st;
            params := <[idx := slice pos (Z.of_nat (length P)) (vals glast)]>
                        (params st) |}.
Proof.
  intros Hg HP HR HRb HPb Hpos Hfit Hlast.
  set (R := length gs) in *.
  rewrite last_lookup in Hlast. fold R in Hlast.
  pose proof (Forall_lookup_1 _ _ _ _ Hfit Hlast) as Hfl. cbn beta in Hfl.
  destruct (lookup_lt_is_Some_2 gs 0 ltac:(lia)) as [g0 Hg0].
  pose proof (Forall_lookup_1 _ _ _ _ Hfit Hg0) as Hf0. cbn beta in Hf0.
  unfold swap.
  rewrite (tensor_Done st (ParamOf idx) P) by done. cbn [mbind outcome_bind size].
  unfold graphs_size. rewrite Hg. fold R.
  rewrite (F32Facts.to_int_small (Z.of_nat R)) by lia.
  rewrite (swap_loop_spec idx pos P gs _ 0 st); try done.
  2:{ lia. } 2:{ by rewrite upto_0. }
  replace (0 + Z.to_nat (Z.of_nat R - 1))%nat with (pred R) by lia.
  cbn [mbind outcome_bind]. set (st1 := set_graphs st _).
  assert (Hl1 : graphs_ st1 !! pred R = Some glast).
  { cbn. rewrite lookup_upto, Hlast. cbn. by rewrite decide_False by lia. }
  replace (length (graphs_ st1) - 1)%nat with (pred R)
    by (cbn; rewrite length_upto; lia).
  rewrite (tensor_Done _ _ _ (memory_vals _ _ _ Hl1)). cbn [mbind outcome_bind].
  rewrite (F32Facts.to_int_small (Z.of_nat (length P))) by lia.
  erewrite (copyFrom_Done st1);
    [| by apply (data_Done _ _ _ _ _ _ (memory_vals _ _ _ Hl1)); lia
     | apply (write_whole st1 (ParamOf idx) P);
       [done | apply Nat2Z.inj; rewrite length_slice; lia] ].
  cbn [mbind outcome_bind]. set (st2 := set_memory st1 _ _).
  assert (H02 : graphs_ st2 !! 0%nat = Some (put true pos P g0)).
  { cbn. rewrite lookup_upto, Hg0. cbn. by rewrite decide_True by lia. }
  assert (Hl2 : graphs_ st2 !! pred R = Some glast) by done.
  rewrite (tensor_Done _ _ _ (memory_vals _ _ _ H02)). cbn [mbind outcome_bind].
  erewrite (copyFrom_Done st2);
    [| apply (data_Done _ _ _ _ _ _ (memory_vals _ _ _ H02));
       cbn; rewrite ?length_inserts; lia
     | cbn [put with_field with_vals field vals]; rewrite slice_inserts by lia;
       by apply (write_Done _ _ _ _ _ _ _ (memory_vals _ _ _ Hl2)); lia ].
  cbn. f_equal. f_equal.
  rewrite (alter_upto _ (put true pos P) _ _ glast) by done.
  apply upto_all. lia.
Qed.


Lemma shard_sized_total ss n idx pos tot (Ps : list (list T)) :
  0 <= ss -> 0 <= tot <= Z.of_nat n * ss ->
  shard_sized (shards ss n idx pos tot) Ps ->
  Z.of_nat (length (concat Ps)) = tot.
Proof.
  intros Hss. revert idx pos tot Ps.
  induction n as [|n IH]; intros idx pos tot Ps Ht; cbn [shards].
  - intros ->%Forall2_nil_inv_l. cbn. lia.
  - intros (P & Ps' & HP & HPs & ->)%Forall2_cons_inv_l. cbn in HP.
    cbn [concat]. rewrite length_app, Nat2Z.inj_add, HP.
    assert (0 <= tot - Z.min ss tot <= Z.of_nat n * ss) as Ht'.
    { rewrite Nat2Z.inj_succ in Ht. destruct (Z.min_spec ss tot) as [[? ->]|[? ->]]; nia. }
    rewrite (IH _ _ _ _ Ht' HPs). cbn. lia.
Qed.

Lemma field_with_field (b : bool) (l : list T) (g : Graph T) :
  field b (with_field b l g) = l.
Proof. by destruct b. Qed.

Lemma field_put (b : bool) (pos : Z) (P : list T) (g : Graph T) :
  field b (put b pos P g) = list_inserts (Z.to_nat pos) P (field b g).
Proof. apply field_with_field. Qed.

Lemma with_field_twice (b : bool) (l l' : list T) (g : Graph T) :
  with_field b l (with_field b l' g) = with_field b l g.
Proof. by destruct b. Qed.

Lemma put_filled (b : bool) (pos : Z) (C P : list T) (g : Graph T) :
  Z.of_nat (length C) = pos ->
  pos + Z.of_nat (length P) <= Z.of_nat (length (field b g)) ->
  put b pos P (filled b C g) = filled b (C ++ P) g.
Proof.
  intros HC Hfit. unfold put, filled.
  rewrite field_with_field, with_field_twice. f_equal.
  replace (Z.to_nat pos) with (length C + 0)%nat by lia.
  rewrite list_inserts_app_r, <- app_assoc. f_equal.
  rewrite <- (take_drop (length P) (drop (length C) (field b g))) at 1.
  rewrite list_inserts_0_r by (rewrite length_take, length_drop; lia).
  by rewrite drop_drop, length_app.
Qed.

Lemma slice_filled (b : bool) (pos n : Z) (C : list T) (g : Graph T) :
  Z.of_nat (length C) = pos ->
  slice pos n (field b (filled b C g)) = slice pos n (field b g).
Proof.
  intros HC. unfold slice, filled. rewrite field_with_field.
  replace (Z.to_nat pos) with (length C) by lia. by rewrite drop_app_length.
Qed.

Lemma filled_nil (b : bool) (g : Graph T) : filled b [] g = g.
Proof. by destruct b, g. Qed.

Lemma filled_all (b : bool) (C : list T) (g : Graph T) :
  length C = length (field b g) -> filled b C g = with_field b C g.
Proof.
  intros HC. unfold filled. by rewrite HC, drop_all, app_nil_r.
Qed.

Lemma length_field_filled (b : bool) (C : list T) (g : Graph T) :
  (length C <= length (field b g))%nat ->
  length (field b (filled b C g)) = length (field b g).
Proof.
  intros HC. unfold filled. rewrite field_with_field, length_app, length_drop. lia.
Qed.

Lemma foreach_loop_swap (ss : Z) (gs0 : list (Graph T)) (glast : Graph T)
    (total : Z) (n idx : nat) (pos tot : Z) st (C : list T)
    (saved rest : list (list T)) :
  0 <= ss -> 0 <= tot -> 0 <= pos -> pos + tot = total -> total < 2 ^ 31 ->
  (2 <= length gs0)%nat -> Z.of_nat (length gs0) < 2 ^ 31 ->
  Forall (fun g => Z.of_nat (length (vals g)) = total) gs0 ->
  last gs0 = Some glast ->
  Z.of_nat (length C) = pos -> length saved = idx ->
  graphs_ st = filled true C <$> gs0 ->
  params st = saved ++ rest ->
  shard_sized (shards ss n idx pos tot) rest ->
  foreach_loop swap ss n idx pos tot st =
    Done {| graphs_ := filled true (C ++ concat rest) <$> gs0;
            tmpTensors_ := tmpTensors_ st;
            params := saved ++ ((fun s => slice s.1.2 s.2 (vals glast))
                                  <$> shards ss n idx pos tot) |}.
Proof.
  intros Hss Htot Hpos Hsum Htb HR HRb Hlen Hlast.
  revert idx pos tot st C saved rest Htot Hpos Hsum.
  induction n as [|n IH];
    intros idx pos tot st C saved rest Htot Hpos Hsum HC Hsaved Hg Hp Hsz;
    cbn [shards foreach_loop] in *.
  - apply Forall2_nil_inv_l in Hsz as ->. cbn [concat fmap list_fmap].
    rewrite !app_nil_r, <- Hg, <- (app_nil_r saved), <- Hp. by destruct st.
  - apply Forall2_cons_inv_l in Hsz as (P & rest' & HP & Hsz & ->). cbn in HP.
    assert (Hfit : Forall (fun g => pos + Z.of_nat (length P)
                             <= Z.of_nat (length (vals g))) (filled true C <$> gs0)).
    { apply Forall_fmap, (Forall_impl _ _ _ Hlen). intros g Hg0. cbn.
      rewrite length_app, length_drop. lia. }
    rewrite (swap_unit idx pos P (filled true C <$> gs0) (filled true C glast) st);
      [ | done | by rewrite Hp, lookup_app_r, Hsaved, Nat.sub_diag by lia
        | by rewrite length_fmap | by rewrite length_fmap | lia | done | done
        | by rewrite fmap_last, Hlast ].
    cbn [mbind outcome_bind].
    rewrite (IH (S idx) _ _ _ (C ++ P) (saved ++ [slice pos (Z.min ss tot) (vals glast)]) rest');
      [ | lia | lia | lia | rewrite length_app; lia
        | rewrite length_app; cbn; lia | | | done ].
    + cbn [tmpTensors_ concat]. f_equal. f_equal.
      * by rewrite <- app_assoc.
      * by rewrite <- app_assoc.
    + cbn [graphs_]. rewrite <- list_fmap_compose. apply list_fmap_ext.
      intros i g Hgi. cbn. apply (put_filled true); [done|]. cbn.
      pose proof (Forall_lookup_1 _ _ _ _ Hlen Hgi) as Hl. cbn beta in Hl. lia.
    + cbn [params]. rewrite Hp, HP.
      change (vals (filled true C glast)) with (field true (filled true C glast)).
      rewrite slice_filled by done. cbn [field].
      replace idx with (length saved + 0)%nat by lia.
      rewrite insert_app_r. cbn. by rewrite <- app_assoc.
Qed.


Lemma memory_field (b : bool) st (i : nat) (g : Graph T) :
  graphs_ st !! i = Some g -> memory st (FieldOf b i) = Some (field b g).
Proof. intros Hg. destruct b; cbn; by rewrite Hg. Qed.

Lemma set_memory_field (b : bool) st (i : nat) (l : list T) :
  set_memory st (FieldOf b i) l
    = set_graphs st (alter (with_field b l) i (graphs_ st)).
Proof. by destruct b. Qed.

Lemma list_inserts_slice (pos n : Z) (l : list T) :
  0 <= pos -> 0 <= n -> pos + n <= Z.of_nat (length l) ->
  list_inserts (Z.to_nat pos) (slice pos n l) l = l.
Proof.
  intros Hp Hn Hfit. apply list_eq. intros j. unfold slice.
  destruct (decide (Z.to_nat pos <= j < Z.to_nat pos + Z.to_nat n)%nat) as [Hj|Hj].
  - rewrite list_lookup_inserts by (rewrite ?length_take, ?length_drop; lia).
    rewrite lookup_take_lt, lookup_drop by lia. f_equal. lia.
  - destruct (decide (j < Z.to_nat pos)%nat).
    + by rewrite list_lookup_inserts_lt.
    + rewrite list_lookup_inserts_ge; [done|].
      rewrite length_take, length_drop. lia.
Qed.

Lemma put_own (b : bool) (pos n : Z) (g : Graph T) :
  0 <= pos -> 0 <= n -> pos + n <= Z.of_nat (length (field b g)) ->
  put b pos (slice pos n (field b g)) g = g.
Proof.
  intros. unfold put. rewrite list_inserts_slice by done. by destruct b, g.
Qed.

Lemma getShard_Done (b : bool) st (j : nat) (g : Graph T) (pos n : Z) :
  graphs_ st !! j = Some g ->
  getShard b j pos n st =
    Done (subtensor {| buffer := FieldOf b j; offset := 0;
                       size := Z.of_nat (length (field b g)) |} pos n).
Proof.
  intros Hg. unfold getShard.
  change (if b then ValsOf j else GradsOf j) with (FieldOf b j).
  by rewrite (tensor_Done _ _ _ (memory_field b _ _ _ Hg)).
Qed.

Lemma gather_loop (b : bool) (ss pos : Z) (idx : nat) (gs : list (Graph T))
    (gi : Graph T) (len : Z) (n j : nat) st :
  gs !! idx = Some gi -> 0 <= pos -> 0 <= ss ->
  Forall (fun g => pos + ss <= Z.of_nat (length (field b g))) gs ->
  (j + n = length gs)%nat ->
  graphs_ st = upto j (put b pos (slice pos ss (field b gi))) gs ->
  for_graphs (fun j st =>
      if decide (j <> idx) then
        subShard ← getShard b j pos ss st;
        copyFrom subShard
          (subtensor {| buffer := FieldOf b idx; offset := 0; size := len |} pos ss) st
      else Done st) n j st
    = Done (set_graphs st (put b pos (slice pos ss (field b gi)) <$> gs)).
Proof.
  intros Hgi Hpos Hss Hfit. set (S := slice pos ss (field b gi)).
  pose proof (Forall_lookup_1 _ _ _ _ Hfit Hgi) as Hfi. cbn beta in Hfi.
  assert (HS : Z.of_nat (length S) = ss) by (apply length_slice; lia).
  revert j st. induction n as [|n IH]; intros j st Hn Hg; cbn [for_graphs].
  - rewrite <- (upto_all j) by lia. rewrite <- Hg. by destruct st.
  - destruct (lookup_lt_is_Some_2 gs j ltac:(lia)) as [gj Hgj].
    pose proof (Forall_lookup_1 _ _ _ _ Hfit Hgj) as Hfj. cbn beta in Hfj.
    assert (Hstj : graphs_ st !! j = Some gj).
    { rewrite Hg, lookup_upto, Hgj. cbn. by rewrite decide_False by lia. }
    destruct (decide (j <> idx)) as [Hne | Heq].
    + rewrite (getShard_Done b _ _ _ _ _ Hstj). cbn [mbind outcome_bind].
      assert (exists gi', graphs_ st !! idx = Some gi' /\
                          field b gi' = field b gi) as (gi' & Hsti & Hfld).
      { rewrite Hg, lookup_upto, Hgi. cbn. case_decide; eexists; split; try done.
        cbn. rewrite field_put. by apply list_inserts_slice. }
      erewrite (copyFrom_Done st);
        [| apply (data_Done _ _ _ _ _ _ (memory_field b _ _ _ Hsti));
           rewrite ?Hfld; lia
         | rewrite Hfld; fold S;
           apply (write_Done _ _ _ _ _ _ _ (memory_field b _ _ _ Hstj)); lia ].
      cbn [mbind outcome_bind]. rewrite set_memory_field.
      rewrite IH; [by destruct st | lia |].
      cbn [graphs_ set_graphs]. rewrite Hg.
      by apply (alter_upto _ _ _ _ gj).
    + apply dec_stable in Heq. subst j. cbn [mbind outcome_bind].
      apply IH; [lia|]. rewrite Hg. symmetry.
      rewrite <- (alter_upto idx _ id _ gi Hgi).
      * apply list_alter_id. done.
      * rewrite Hgj in Hgi. injection Hgi as ->. cbn. symmetry.
        by apply put_own.
Qed.

Lemma gather_unit (b : bool) (ss pos : Z) (idx : nat) (gs : list (Graph T))
    (gi : Graph T) st :
  graphs_ st = gs -> gs !! idx = Some gi -> 0 <= pos -> 0 <= ss ->
  Forall (fun g => pos + ss <= Z.of_nat (length (field b g))) gs ->
  gather ss b idx pos st
    = Done (set_graphs st (put b pos (slice pos ss (field b gi)) <$> gs)).
Proof.
  intros Hg Hgi Hpos Hss Hfit. unfold gather.
  rewrite (getShard_Done b st idx gi) by (by rewrite Hg).
  cbn [mbind outcome_bind]. rewrite Hg.
  apply (gather_loop b ss pos idx gs gi); try done.
  by rewrite Hg, upto_0.
Qed.

Lemma length_gathered (b : bool) (ss : Z) (gs : list (Graph T)) (total : Z)
    (n idx : nat) (pos : Z) :
  0 <= ss -> 0 <= pos -> pos + Z.of_nat n * ss <= total ->
  (idx + n <= length gs)%nat ->
  Forall (fun g => Z.of_nat (length (field b g)) = total) gs ->
  Z.of_nat (length (gathered b ss gs n idx pos)) = Z.of_nat n * ss.
Proof.
  intros Hss. revert idx pos.
  induction n as [|n IH]; intros idx pos Hpos Hfit Hn Hlen; cbn [gathered]; [done|].
  destruct (lookup_lt_is_Some_2 gs idx ltac:(lia)) as [g Hg]. rewrite Hg.
  pose proof (Forall_lookup_1 _ _ _ _ Hlen Hg) as Hl. cbn beta in Hl.
  rewrite length_app, Nat2Z.inj_add, length_slice, IH by (done || lia). lia.
Qed.

Lemma foreach_loop_gather (b : bool) (ss : Z) (gs0 : list (Graph T))
    (total : Z) (n idx : nat) (pos : Z) st (C : list T) :
  0 <= ss -> 0 <= pos -> pos + Z.of_nat n * ss = total ->
  (idx + n = length gs0)%nat ->
  Forall (fun g => Z.of_nat (length (field b g)) = total) gs0 ->
  Z.of_nat (length C) = pos ->
  graphs_ st = filled b C <$> gs0 ->
  foreach_loop (gather ss b) ss n idx pos (Z.of_nat n * ss) st
    = Done (set_graphs st (filled b (C ++ gathered b ss gs0 n idx pos) <$> gs0)).
Proof.
  intros Hss. revert idx pos st C.
  induction n as [|n IH]; intros idx pos st C Hpos Hsum Hn Hlen HC Hg;
    cbn [foreach_loop gathered].
  - rewrite app_nil_r, <- Hg. by destruct st.
  - destruct (lookup_lt_is_Some_2 gs0 idx ltac:(lia)) as [gi Hgi]. rewrite Hgi.
    pose proof (Forall_lookup_1 _ _ _ _ Hlen Hgi) as Hli. cbn beta in Hli.
    assert (HCl : forall g, g ∈ gs0 -> (length C <= length (field b g))%nat).
    { intros g Hgin. pose proof (proj1 (Forall_forall _ _) Hlen g Hgin). cbn in *. lia. }
    rewrite (gather_unit b ss pos idx (filled b C <$> gs0) (filled b C gi) st);
      [ | done | by rewrite list_lookup_fmap, Hgi | done | done | ].
    2:{ apply Forall_fmap, Forall_forall. intros g Hgin. cbn.
        rewrite length_field_filled by (by apply HCl).
        pose proof (proj1 (Forall_forall _ _) Hlen g Hgin). cbn in *. lia. }
    cbn [mbind outcome_bind]. rewrite slice_filled by done.
    set (S := slice pos ss (field b gi)).
    assert (HS : Z.of_nat (length S) = ss) by (apply length_slice; lia).
    replace (Z.min ss (Z.of_nat (Datatypes.S n) * ss)) with ss by nia.
    replace (Z.of_nat (Datatypes.S n) * ss - ss) with (Z.of_nat n * ss) by lia.
    rewrite (IH (Datatypes.S idx) (pos + ss) _ (C ++ S));
      [ | lia | lia | lia | done | rewrite length_app; lia | ].
    + cbn. by rewrite <- app_assoc.
    + cbn [graphs_ set_graphs]. rewrite <- list_fmap_compose.
      apply list_fmap_ext. intros i g Hgin. cbn. apply put_filled; [done|].
      pose proof (Forall_lookup_1 _ _ _ _ Hlen Hgin) as Hl. cbn beta in Hl. lia.
Qed.

Lemma foreach_loop_gather_even (b : bool) (ss : Z) (gs0 : list (Graph T))
    (total : Z) st :
  0 <= ss -> total = Z.of_nat (length gs0) * ss ->
  Forall (fun g => Z.of_nat (length (field b g)) = total) gs0 ->
  graphs_ st = gs0 ->
  foreach_loop (gather ss b) ss (length gs0) 0 0 total st
    = Done (set_graphs st
              (with_field b (gathered b ss gs0 (length gs0) 0 0) <$> gs0)).
Proof.
  intros Hss Htot Hlen Hg.
  assert (HG : Z.of_nat (length (gathered b ss gs0 (length gs0) 0 0)) = total).
  { rewrite (length_gathered b ss _ total); try done; lia. }
  rewrite Htot at 1.
  rewrite (foreach_loop_gather b ss gs0 total _ 0 0 st []); try done; try lia.
  - cbn [app]. do 2 f_equal. apply list_fmap_ext. intros i g Hgi.
    apply filled_all. pose proof (Forall_lookup_1 _ _ _ _ Hlen Hgi) as Hl.
    cbn beta in Hl. lia.
  - rewrite Hg. symmetry. rewrite <- (list_fmap_id gs0) at 2.
    apply list_fmap_ext. intros i g _. apply filled_nil.
Qed.

(** Collecting from replicas that all hold [G] gives the matching part of
    [G]. *)
Lemma gathered_same (b : bool) (ss : Z) (gs : list (Graph T)) (G : list T)
    (n idx : nat) (pos : Z) :
  0 <= ss -> 0 <= pos -> (idx + n <= length gs)%nat ->
  Forall (fun g => field b g = G) gs ->
  gathered b ss gs n idx pos = slice pos (Z.of_nat n * ss) G.
Proof.
  intros Hss. revert idx pos.
  induction n as [|n IH]; intros idx pos Hpos Hn Hall; cbn [gathered].
  - unfold slice. by rewrite Z.mul_0_l, take_0.
  - destruct (lookup_lt_is_Some_2 gs idx ltac:(lia)) as [g Hg]. rewrite Hg.
    rewrite (Forall_lookup_1 _ _ _ _ Hall Hg), IH by (done || lia).
    unfold slice.
    replace (Z.to_nat (Z.of_nat (S n) * ss)) with (Z.to_nat ss + Z.to_nat (Z.of_nat n * ss))%nat by nia.
    rewrite <- take_take_drop, drop_drop. do 3 f_equal. lia.
Qed.

Lemma gathered_slice (b : bool) (ss : Z) (gs : list (Graph T)) (total : Z)
    (n idx : nat) (pos : Z) (C : list T) (i : nat) (gi : Graph T) :
  0 <= ss -> 0 <= pos -> pos + Z.of_nat n * ss <= total ->
  (idx + n <= length gs)%nat ->
  Forall (fun g => Z.of_nat (length (field b g)) = total) gs ->
  (i < n)%nat -> gs !! (idx + i)%nat = Some gi ->
  slice (Z.of_nat (length C) + Z.of_nat i * ss) ss
        (C ++ gathered b ss gs n idx pos)
    = slice (pos + Z.of_nat i * ss) ss (field b gi).
Proof.
  intros Hss. revert idx pos C i.
  induction n as [|n IH]; intros idx pos C i Hpos Hfit Hn Hlen Hi Hgi; [lia|].
  cbn [gathered].
  destruct (lookup_lt_is_Some_2 gs idx ltac:(lia)) as [g Hg]. rewrite Hg.
  pose proof (Forall_lookup_1 _ _ _ _ Hlen Hg) as Hl. cbn beta in Hl.
  assert (HS : Z.of_nat (length (slice pos ss (field b g))) = ss)
    by (apply length_slice; lia).
  destruct i as [|i].
  - rewrite Nat.add_0_r in Hgi. rewrite Hg in Hgi. injection Hgi as <-.
    rewrite !Z.mul_0_l, !Z.add_0_r. unfold slice at 1.
    rewrite Nat2Z.id, drop_app_length.
    rewrite <- HS at 1. by rewrite Nat2Z.id, take_app_length.
  - rewrite app_assoc.
    replace (Z.of_nat (length C) + Z.of_nat (S i) * ss)
      with (Z.of_nat (length (C ++ slice pos ss (field b g))) + Z.of_nat i * ss)
      by (rewrite length_app; lia).
    rewrite (IH (S idx) (pos + ss) _ i); [f_equal | | | | | |]; try lia; try done.
    by replace (S idx + i)%nat with (idx + S i)%nat by lia.
Qed.

Lemma divisible_shardSize (total : Z) (R : nat) :
  0 <= total <= 2 ^ 24 -> (1 <= R)%nat -> (Z.of_nat R | total) ->
  0 <= shardSize total (Z.of_nat R) /\
  total = Z.of_nat R * shardSize total (Z.of_nat R).
Proof.
  intros Ht HR [q Hq].
  rewrite F32Facts.shardSize_exact by lia.
  pose proof (F32Facts.ceil_div_spec total (Z.of_nat R) ltac:(lia)) as Hc.
  assert (ceil_div total (Z.of_nat R) = q) as -> by nia. nia.
Qed.

(** All-gather when the vector splits evenly: every replica ends up with
    the collected vector, shard [i] of which is shard [i] of replica [i];
    a second call changes nothing. *)
Theorem allGather_even (b : bool) st (total : Z) :
  let R := length (graphs_ st) in
  let ss := shardSize total (Z.of_nat R) in
  let G := gathered b ss (graphs_ st) R 0 0 in
  let st1 := set_graphs st (with_field b G <$> graphs_ st) in
  (1 <= R)%nat -> 0 <= total <= 2 ^ 24 -> uniform total (graphs_ st) ->
  (Z.of_nat R | total) ->
  allGather b st = Done st1 /\
  allGather b st1 = Done st1 /\
  Z.of_nat (length G) = total /\
  forall (i : nat) gi, graphs_ st !! i = Some gi ->
    slice (Z.of_nat i * ss) ss G = slice (Z.of_nat i * ss) ss (field b gi).
Proof.
  intros R ss G st1 HR Ht Hu Hdiv.
  destruct (divisible_shardSize total R Ht HR Hdiv) as [Hss Htot]. fold ss in Hss, Htot.
  assert (Htb : 0 <= total < 2 ^ 31).
  { change (2 ^ 24) with 16777216 in Ht. change (2 ^ 31) with 2147483648. lia. }
  assert (Hv : Forall (fun g => Z.of_nat (length (vals g)) = total) (graphs_ st)).
  { eapply Forall_impl; [exact Hu|]. by intros g [? _]. }
  assert (Hf : Forall (fun g => Z.of_nat (length (field b g)) = total) (graphs_ st)).
  { eapply Forall_impl; [exact Hu|]. intros g [? ?]. by destruct b. }
  assert (HG : Z.of_nat (length G) = total).
  { unfold G. rewrite (length_gathered b ss _ total); try done; lia. }
  split.
  { unfold allGather, foreach, graphs_size.
    rewrite (totalSize_Done _ total) by done.
    cbn [mbind outcome_bind]. fold R. fold ss.
    exact (foreach_loop_gather_even b ss (graphs_ st) total st Hss Htot Hf eq_refl). }
  split; [|split; [done|]].
  - (* the second call *)
    assert (Hu1 : uniform total (graphs_ st1)).
    { cbn. apply Forall_fmap. eapply Forall_impl; [exact Hu|].
      intros g [? ?]. destruct b; cbn; split; lia. }
    assert (HR1 : length (graphs_ st1) = R) by (cbn; by rewrite length_fmap).
    assert (Hv1 : Forall (fun g => Z.of_nat (length (vals g)) = total) (graphs_ st1)).
    { eapply Forall_impl; [exact Hu1|]. by intros g [? _]. }
    assert (Hf1 : Forall (fun g => Z.of_nat (length (field b g)) = total) (graphs_ st1)).
    { eapply Forall_impl; [exact Hu1|]. intros g [? ?]. by destruct b. }
    unfold allGather, foreach, graphs_size.
    rewrite (totalSize_Done _ total) by (rewrite ?HR1; done).
    cbn [mbind outcome_bind]. rewrite HR1. fold ss.
    assert (Htot1 : total = Z.of_nat (length (graphs_ st1)) * ss)
      by (by rewrite HR1).
    pose proof (foreach_loop_gather_even b ss (graphs_ st1) total st1
                  Hss Htot1 Hf1 eq_refl) as E.
    rewrite HR1 in E. rewrite E. clear E.
    rewrite (gathered_same b ss _ G); try done; try lia.
    + unfold slice. rewrite <- Htot, <- HG, Nat2Z.id, drop_0, firstn_all.
      unfold st1, set_graphs. cbn. do 2 f_equal.
      rewrite <- list_fmap_compose. apply list_fmap_ext. intros i g Hg. cbn.
      apply with_field_twice.
    + cbn. apply Forall_fmap, Forall_forall. intros g _. cbn.
      apply field_with_field.
  - intros i gi Hgi.
    pose proof (lookup_lt_Some _ _ _ Hgi) as Hi. fold R in Hi.
    pose proof (gathered_slice b ss (graphs_ st) total R 0 0 [] i gi) as Hsl.
    cbn [length app] in Hsl. rewrite !Z.add_0_l in Hsl.
    apply Hsl; try done; lia.
Qed.

Lemma shard_sized_slice ss n idx pos tot (Ps : list (list T)) (C : list T)
    (i : nat) s P :
  shard_sized (shards ss n idx pos tot) Ps ->
  Z.of_nat (length C) = pos -> 0 <= pos ->
  shards ss n idx pos tot !! i = Some s -> Ps !! i = Some P ->
  slice s.1.2 s.2 (C ++ concat Ps) = P.
Proof.
  revert idx pos tot Ps C i.
  induction n as [|n IH]; intros idx pos tot Ps C i Hsz HC Hpos Hs HP;
    cbn [shards] in *; [done|].
  apply Forall2_cons_inv_l in Hsz as (P0 & Ps' & HP0 & Hsz & ->). cbn in HP0.
  destruct i as [|i]; cbn in Hs, HP.
  - injection Hs as <-. injection HP as <-. cbn. unfold slice.
    replace (Z.to_nat pos) with (length C) by lia.
    rewrite drop_app_length, <- HP0, Nat2Z.id. by rewrite take_app_length.
  - cbn [concat]. rewrite app_assoc.
    apply (IH (S idx) (pos + Z.min ss tot) (tot - Z.min ss tot) Ps' (C ++ P0) i Hsz);
      [rewrite length_app; lia | lia | done | done].
Qed.

(** C3 (as amended).  With fewer than two replicas [swapParams] stops in
    [ABORT_IF].  With at least two replicas of [total <= 2^24] values and
    the caller's tensors sized like the shards, the call finishes; every
    replica, the last one included, then holds shard [i] of [shards] in its
    shard-[i] range (the last replica gets it from the first replica, which
    has been overwritten by then), and [shards[i]] holds what the last
    replica had in that range before the call. *)
Theorem swapParams_spec (Ps : list (list T)) st (total : Z) (glast : Graph T) :
  let R := length (graphs_ st) in
  let sh := shards (shardSize total (Z.of_nat R)) R 0 0 total in
  ((R < 2)%nat ->
   swapParams Ps st = Abort "Swap requires at least two graphs") /\
  ((2 <= R)%nat -> Z.of_nat R < 2 ^ 31 -> 0 <= total <= 2 ^ 24 ->
   uniform total (graphs_ st) -> last (graphs_ st) = Some glast ->
   shard_sized sh Ps ->
   swapParams Ps st =
     Done {| graphs_ := with_vals (concat Ps) <$> graphs_ st;
             tmpTensors_ := tmpTensors_ st;
             params := (fun s => slice s.1.2 s.2 (vals glast)) <$> sh |} /\
   forall (i : nat) s P, sh !! i = Some s -> Ps !! i = Some P ->
     slice s.1.2 s.2 (concat Ps) = P).
Proof.
  intros R sh. split.
  - intros HR. unfold swapParams, graphs_size. fold R.
    destruct (Z.ltb_spec (Z.of_nat R) 2); [done | lia].
  - intros HR HRb Ht Hu Hlast Hsz.
    assert (Hss : shardSize total (Z.of_nat R) = ceil_div total (Z.of_nat R))
      by (apply F32Facts.shardSize_exact; lia).
    pose proof (F32Facts.ceil_div_spec total (Z.of_nat R) ltac:(lia)) as Hc.
    rewrite <- Hss in Hc.
    assert (0 <= shardSize total (Z.of_nat R))
      by (rewrite Hss; apply ceil_div_nonneg; lia).
    assert (Hlen : Z.of_nat (length (concat Ps)) = total).
    { eapply shard_sized_total; [| |exact Hsz]; [done | lia]. }
    assert (Hv : Forall (fun g => Z.of_nat (length (vals g)) = total) (graphs_ st)).
    { eapply Forall_impl; [exact Hu|]. by intros g [? _]. }
    split; [|intros i s P; by apply (shard_sized_slice _ _ _ _ _ _ [])].
    unfold swapParams, graphs_size. fold R.
    destruct (Z.ltb_spec (Z.of_nat R) 2); [lia|]. cbn [ABORT_IF mbind outcome_bind].
    assert (Htb : 0 <= total < 2 ^ 31).
    { change (2 ^ 24) with 16777216 in Ht. change (2 ^ 31) with 2147483648. lia. }
    unfold foreach, graphs_size. cbn [graphs_].
    rewrite (totalSize_Done _ total) by (done || cbn; fold R; lia).
    cbn [mbind outcome_bind]. fold R. fold sh.
    rewrite (foreach_loop_swap _ (graphs_ st) glast total _ _ _ _ _ [] [] Ps);
      try done; try lia.
    + cbn [tmpTensors_ app]. f_equal. f_equal.
      apply list_fmap_ext. intros i g Hg. apply (filled_all true). cbn.
      pose proof (Forall_lookup_1 _ _ _ _ Hv Hg) as Hl. cbn beta in Hl. lia.
    + cbn [graphs_]. symmetry. rewrite <- (list_fmap_id (graphs_ st)) at 2.
      apply list_fmap_ext. intros i g _. apply filled_nil.
Qed.

End CommFacts.

Lemma swapParams_spec_witness :
  swapParams [[10]; [20]] two_replicas =
    Done {| graphs_ := [ {| vals := [10; 20]; grads := [0; 0] |};
                         {| vals := [10; 20]; grads := [0; 0] |} ];
            tmpTensors_ := []; params := [[3]; [4]] |}.
Proof.
  refine (proj1 (proj2 (swapParams_spec [[10]; [20]] two_replicas 2
                          {| vals := [3; 4]; grads := [0; 0] |}) _ _ _ _ _ _)).
  - cbn. lia.
  - cbn. lia.
  - lia.
  - repeat constructor.
  - reflexivity.
  - repeat constructor.
Defined.

(** C3 as stated does not hold: the last replica does not receive what the
    first replica held before the call ([1] in shard 0), but the shard of the
    caller ([10]) that the first replica has just been given. *)
Lemma swapParams_counterexample :
  exists st', swapParams [[10]; [20]] two_replicas = Done st' /\
    (vals <$> graphs_ two_replicas !! 0%nat) = Some [1; 2] /\
    (vals <$> graphs_ st' !! 1%nat) = Some [10; 20] /\
    slice 0 1 [10; 20] <> slice 0 1 [1; 2].
Proof.
  exists {| graphs_ := [ {| vals := [10; 20]; grads := [0; 0] |};
                         {| vals := [10; 20]; grads := [0; 0] |} ];
            tmpTensors_ := []; params := [[3]; [4]] |}.
  split; [by vm_compute|]. split; [done|]. split; [done|]. by vm_compute.
Qed.

(** C9.  [DefaultCommunicator(graphs, mpi)] stops in [ABORT_IF] for every
    MPI wrapper that is not null, and is constructed exactly when [mpi] is
    null. *)
Theorem DefaultCommunicator_mpi {T} (graphs : list (Graph T))
    (mpi : option IMPIWrapper) :
  (forall m, mpi = Some m ->
     DefaultCommunicator graphs mpi =
       Abort "DefaultCommunicator support for MPI is not yet implemented") /\
  ((exists c, DefaultCommunicator graphs mpi = Done c) <-> mpi = None) /\
  (mpi = None ->
     DefaultCommunicator graphs mpi =
       Done {| graphs_ := graphs; tmpTensors_ := []; params := [] |}).
Proof.
  unfold DefaultCommunicator. destruct mpi as [m|]; cbn.
  - split; [done|]. split; [|done]. split; [by intros [c Hc] | done].
  - split; [done|]. split; [|done]. split; [done | by eexists].
Qed.

(** C1, at 2 replicas of 3 elements: the shard size is 2, shard 1 is the one
    element at position 2, and [scatterReduce] takes a 2 element window
    there, which leaves the gradient vector. *)
Lemma scatterReduce_uneven :
  shardSize 3 2 = 2 /\
  shards (shardSize 3 2) 2 0 0 3 = [(0%nat, 0, 2); (1%nat, 2, 1)] /\
  scatterReduce 0 uneven_replicas = OutOfBounds.
Proof. by vm_compute. Qed.

(** C7, at the same replicas: [allGather] takes the same window. *)
Lemma allGather_uneven :
  allGather true uneven_replicas = OutOfBounds /\
  (st ← allGather true uneven_replicas; allGather true st) = OutOfBounds.
Proof. by vm_compute. Qed.

(** C4, at the same replicas: the all-reduce is the composition, and the
    composition leaves the gradient vectors. *)
Lemma allReduceGrads_uneven :
  allReduceGrads 0 uneven_replicas
    = (st ← scatterReduce 0 uneven_replicas; allGather false st) /\
  allReduceGrads 0 uneven_replicas = OutOfBounds /\
  reduceGrads 0 0 uneven_replicas = OutOfBounds.
Proof. by vm_compute. Qed.

Section ScatterFacts.
Context {T : Type} `{Scalar T}.
Variable uninit : T.
Implicit Types (st : State T) (g : Graph T) (l v : list T).

Lemma list_inserts_twice (n : nat) (X Y l : list T) :
  length X = length Y ->
  list_inserts n X (list_inserts n Y l) = list_inserts n X l.
Proof.
  intros HXY. apply list_eq. intros i.
  destruct (decide (i < n)%nat).
  { by rewrite !list_lookup_inserts_lt by lia. }
  destruct (decide (n + length X <= i)%nat).
  { by rewrite !list_lookup_inserts_ge by lia. }
  destruct (decide (i < length l)%nat).
  - by rewrite !list_lookup_inserts by (rewrite ?length_inserts; lia).
  - rewrite !lookup_ge_None_2; [done| |]; rewrite !length_inserts; lia.
Qed.

Lemma put_put (b : bool) (pos : Z) (X Y : list T) g :
  length X = length Y -> put b pos X (put b pos Y g) = put b pos X g.
Proof.
  intros HXY. unfold put. rewrite field_with_field, with_field_twice.
  by rewrite list_inserts_twice.
Qed.

Lemma slice_put (b : bool) (pos : Z) (X : list T) g :
  0 <= pos -> pos + Z.of_nat (length X) <= Z.of_nat (length (field b g)) ->
  slice pos (Z.of_nat (length X)) (field b (put b pos X g)) = X.
Proof. intros. rewrite field_put. by apply slice_inserts. Qed.

(** A copy elsewhere leaves a window as it is. *)
Lemma slice_inserts_before (pos pos' n : Z) (X l : list T) :
  0 <= pos' -> 0 <= pos -> pos' + Z.of_nat (length X) <= pos ->
  slice pos n (list_inserts (Z.to_nat pos') X l) = slice pos n l.
Proof.
  intros ? ? ?. unfold slice. f_equal. apply list_eq. intros i.
  rewrite !lookup_drop. apply list_lookup_inserts_ge. lia.
Qed.

Lemma alter_insert {A} (f : A -> A) (i : nat) (x : A) (l : list A) :
  alter f i (<[i := x]> l) = <[i := f x]> l.
Proof.
  apply list_eq. intros j. destruct (decide (j = i)) as [-> | Hne].
  - rewrite list_lookup_alter_eq. destruct (decide (i < length l)%nat).
    + by rewrite !list_lookup_insert_eq by done.
    + by rewrite !lookup_ge_None_2 by (rewrite ?length_insert; lia).
  - by rewrite list_lookup_alter_ne, !list_lookup_insert_ne by done.
Qed.

Lemma memory_tmp st (i : nat) : memory st (TmpOf i) = tmpTensors_ st !! i.
Proof. done. Qed.

(** One turn of the loop of [scatter], for a replica other than [idx]. *)
Lemma scatter_step (ss pos len : Z) (idx j : nat) (gs : list (Graph T))
    (gi gj : Graph T) (t : list T) st :
  graphs_ st = gs -> gs !! idx = Some gi -> gs !! j = Some gj -> j <> idx ->
  tmpTensors_ st !! idx = Some t -> Z.of_nat (length t) = ss ->
  0 <= pos -> 0 <= ss ->
  pos + ss <= Z.of_nat (length (grads gi)) ->
  pos + ss <= Z.of_nat (length (grads gj)) ->
  (g' ← tensor st (GradsOf j);
   tmp ← tensor st (TmpOf idx);
   st1 ← copyFrom tmp (subtensor g' pos ss) st;
   Element_add
     (subtensor {| buffer := GradsOf idx; offset := 0; size := len |} pos ss)
     tmp st1)
  = Done {| graphs_ :=
              alter (put false pos
                       (zip_with add (slice pos ss (grads gi))
                                     (slice pos ss (grads gj)))) idx gs;
            tmpTensors_ := <[idx := slice pos ss (grads gj)]> (tmpTensors_ st);
            params := params st |}.
Proof.
  intros Hg Hi Hj Hne Ht Hlt Hpos Hss Hli Hlj. subst gs.
  rewrite (tensor_Done st (GradsOf j) (grads gj)) by by apply memory_grads.
  cbn [mbind outcome_bind].
  rewrite (tensor_Done st (TmpOf idx) t) by done.
  cbn [mbind outcome_bind].
  assert (Hsj : Z.of_nat (length (slice pos ss (grads gj))) = ss)
    by (apply length_slice; lia).
  assert (Hsi : Z.of_nat (length (slice pos ss (grads gi))) = ss)
    by (apply length_slice; lia).
  erewrite copyFrom_Done; cycle 1.
  { apply data_Done; [by apply memory_grads | lia..]. }
  { apply (write_whole _ _ t); [done | lia]. }
  cbn [mbind outcome_bind]. unfold Element_add.
  set (st1 := set_memory st (TmpOf idx) (slice pos ss (grads gj))).
  assert (Hm1 : memory st1 (GradsOf idx) = Some (grads gi)).
  { unfold st1. cbn. by rewrite Hi. }
  assert (Ht1 : memory st1 (TmpOf idx) = Some (slice pos ss (grads gj))).
  { unfold st1. cbn. apply list_lookup_insert_eq. by eapply lookup_lt_Some. }
  rewrite (data_Done st1 _ (grads gi)) by (done || lia).
  cbn [mbind outcome_bind].
  replace (Z.of_nat (length t))
    with (Z.of_nat (length (slice pos ss (grads gj)))) by lia.
  rewrite (data_whole st1 _ _ Ht1). cbn [mbind outcome_bind].
  rewrite Hsi, Hsj, Z.eqb_refl.
  rewrite (write_Done st1 _ (grads gi)); [|done|lia|].
  2:{ rewrite length_zip_with. lia. }
  f_equal. unfold st1. cbn. f_equal. apply list_eq. intros k.
  destruct (decide (k = idx)) as [-> | Hk].
  - by rewrite !list_lookup_alter_eq, Hi.
  - by rewrite !list_lookup_alter_ne.
Qed.

Lemma length_grads_put (pos : Z) (X : list T) g :
  length (grads (put false pos X g)) = length (grads g).
Proof. apply length_inserts. Qed.

Lemma vals_put (pos : Z) (X : list T) g : vals (put false pos X g) = vals g.
Proof. done. Qed.

(** The loop of [scatter]: [curGrad] gets the shards of the other replicas
    added, and the other replicas stay as they are. *)
Lemma scatter_loop (ss pos len : Z) (idx : nat) (gs : list (Graph T))
    (gi : Graph T) (n j : nat) (acc t : list T) st :
  gs !! idx = Some gi -> 0 <= pos -> 0 <= ss ->
  Forall (fun g => pos + ss <= Z.of_nat (length (grads g))) gs ->
  (j + n = length gs)%nat ->
  Z.of_nat (length acc) = ss ->
  graphs_ st = <[idx := put false pos acc gi]> gs ->
  tmpTensors_ st !! idx = Some t -> Z.of_nat (length t) = ss ->
  exists st' t',
    for_graphs (fun j st =>
        if decide (j <> idx) then
          g' ← tensor st (GradsOf j);
          tmp ← tensor st (TmpOf idx);
          st1 ← copyFrom tmp (subtensor g' pos ss) st;
          Element_add
            (subtensor {| buffer := GradsOf idx; offset := 0; size := len |}
                       pos ss) tmp st1
        else Done st) n j st = Done st' /\
    graphs_ st'
      = <[idx := put false pos (reduce_loop ss pos idx acc (drop j gs) j) gi]> gs /\
    tmpTensors_ st' = <[idx := t']> (tmpTensors_ st) /\
    Z.of_nat (length t') = ss /\
    params st' = params st.
Proof.
  intros Hi Hpos Hss Hlen. revert j acc t st.
  induction n as [|n IH]; intros j acc t st Hjn Hacc Hg Ht Hlt.
  - exists st, t. rewrite drop_ge by lia. cbn.
    repeat split; try done. by rewrite list_insert_id.
  - destruct (lookup_lt_is_Some_2 gs j ltac:(lia)) as [gj Hj].
    rewrite (drop_S _ _ _ Hj). cbn [for_graphs reduce_loop].
    pose proof (Forall_lookup_1 _ _ _ _ Hlen Hi) as Hli.
    pose proof (Forall_lookup_1 _ _ _ _ Hlen Hj) as Hlj. cbn beta in Hli, Hlj.
    assert (Hidx : (idx < length gs)%nat) by by eapply lookup_lt_Some.
    case_decide as Hne.
    + rewrite (scatter_step ss pos len idx j _ (put false pos acc gi) gj t st Hg);
        try done.
      2:{ by apply list_lookup_insert_eq. }
      2:{ by rewrite list_lookup_insert_ne. }
      2:{ rewrite length_grads_put. lia. }
      cbn [mbind outcome_bind].
      set (acc' := zip_with add acc (slice pos ss (grads gj))).
      assert (Hsj : Z.of_nat (length (slice pos ss (grads gj))) = ss)
        by (apply length_slice; lia).
      assert (Hacc' : Z.of_nat (length acc') = ss).
      { unfold acc'. rewrite length_zip_with. lia. }
      edestruct (IH (S j) acc' (slice pos ss (grads gj))) as (st' & t' & E & G & Tm & Lt & P);
        [lia | exact Hacc' | | | exact Hsj | ].
      3:{ exists st', t'. split; [exact E|]. split; [exact G|].
          cbn in Tm, P. rewrite list_insert_insert_eq in Tm. done. }
      * cbn [graphs_]. rewrite alter_insert. f_equal.
        replace (slice pos ss (grads (put false pos acc gi))) with acc.
        -- apply put_put. unfold acc'. rewrite length_zip_with. lia.
        -- rewrite <- Hacc. symmetry. apply (slice_put false); cbn; lia.
      * cbn [tmpTensors_]. apply list_lookup_insert_eq. by eapply lookup_lt_Some.
    + apply (IH (S j) acc t st); try done. lia.
Qed.

(** One call of [scatter]. *)
Lemma scatter_unit (ss pos : Z) (idx : nat) (gs : list (Graph T))
    (gi : Graph T) (t : list T) st :
  graphs_ st = gs -> gs !! idx = Some gi -> 0 <= pos -> 0 <= ss ->
  Forall (fun g => pos + ss <= Z.of_nat (length (grads g))) gs ->
  tmpTensors_ st !! idx = Some t -> Z.of_nat (length t) = ss ->
  exists st' t',
    scatter ss idx pos st = Done st' /\
    graphs_ st'
      = <[idx := put false pos
                   (reduce_loop ss pos idx (slice pos ss (grads gi)) gs 0) gi]> gs /\
    tmpTensors_ st' = <[idx := t']> (tmpTensors_ st) /\
    Z.of_nat (length t') = ss /\
    params st' = params st.
Proof.
  intros Hg Hi Hpos Hss Hlen Ht Hlt. unfold scatter.
  rewrite (tensor_Done st (GradsOf idx) (grads gi))
    by (apply memory_grads; by rewrite Hg).
  cbn [mbind outcome_bind]. rewrite Hg.
  pose proof (Forall_lookup_1 _ _ _ _ Hlen Hi) as Hli. cbn beta in Hli.
  apply (scatter_loop ss pos _ idx gs gi (length gs) 0 _ t st); try done.
  - apply length_slice; lia.
  - rewrite Hg. symmetry. apply list_insert_id. rewrite Hi. f_equal.
    symmetry. apply (put_own false); cbn; lia.
Qed.

Lemma length_reduce_loop (ss pos : Z) (idx : nat) (acc : list T)
    (gs : list (Graph T)) (j : nat) :
  0 <= pos -> 0 <= ss ->
  Forall (fun g => pos + ss <= Z.of_nat (length (grads g))) gs ->
  Z.of_nat (length acc) = ss ->
  Z.of_nat (length (reduce_loop ss pos idx acc gs j)) = ss.
Proof.
  intros Hpos Hss Hlen. revert acc j.
  induction Hlen as [|g gs Hg _ IH]; intros acc j Hacc; [done|].
  cbn [reduce_loop]. apply IH. case_decide; [|done].
  rewrite length_zip_with.
  pose proof (length_slice pos ss (grads g) Hpos Hss Hg). lia.
Qed.

(** The sum only looks at the window at [pos]. *)
Lemma reduce_loop_ext (ss pos : Z) (idx : nat) (acc : list T)
    (gs gs' : list (Graph T)) (j : nat) :
  Forall2 (fun g g' => slice pos ss (grads g) = slice pos ss (grads g')) gs gs' ->
  reduce_loop ss pos idx acc gs j = reduce_loop ss pos idx acc gs' j.
Proof.
  intros Hgs. revert acc j.
  induction Hgs as [|g g' gs gs' Hg _ IH]; intros acc j; [done|].
  cbn [reduce_loop]. by rewrite Hg, IH.
Qed.

Lemma lookup_iupto {A} (k : nat) (f : nat -> A -> A) (l : list A) (j : nat) :
  iupto k f l !! j = (if decide (j < k)%nat then f j else id) <$> l !! j.
Proof.
  unfold iupto. rewrite list_lookup_imap. destruct (l !! j); by case_decide.
Qed.

Lemma length_iupto {A} (k : nat) (f : nat -> A -> A) (l : list A) :
  length (iupto k f l) = length l.
Proof. apply length_imap. Qed.

Lemma iupto_0 {A} (f : nat -> A -> A) (l : list A) : iupto 0 f l = l.
Proof.
  apply list_eq. intros j. rewrite lookup_iupto.
  destruct (l !! j); [|done]. by rewrite decide_False by lia.
Qed.

Lemma iupto_all {A} (k : nat) (f : nat -> A -> A) (l : list A) :
  (length l <= k)%nat -> iupto k f l = imap f l.
Proof.
  intros Hk. apply list_eq. intros j. rewrite lookup_iupto, list_lookup_imap.
  destruct (l !! j) eqn:E; [|done]. apply lookup_lt_Some in E.
  by rewrite decide_True by lia.
Qed.

Lemma insert_iupto {A} (k : nat) (f : nat -> A -> A) (l : list A) (x : A) :
  l !! k = Some x -> <[k := f k x]> (iupto k f l) = iupto (S k) f l.
Proof.
  intros Hx. apply list_eq. intros j. destruct (decide (j = k)) as [-> | Hne].
  - rewrite list_lookup_insert_eq, lookup_iupto, Hx.
    + by rewrite decide_True by lia.
    + rewrite length_iupto. by eapply lookup_lt_Some.
  - rewrite list_lookup_insert_ne, !lookup_iupto by done.
    destruct (l !! j); [|done]. cbn. repeat case_decide; done || lia.
Qed.

Lemma length_grads_scattered (ss : Z) (gs : list (Graph T)) (i : nat) g :
  length (grads (scattered ss gs i g)) = length (grads g).
Proof. apply length_grads_put. Qed.

Lemma length_reduced (ss total : Z) (gs : list (Graph T)) (i : nat) g :
  0 <= ss -> (i < length gs)%nat -> total = Z.of_nat (length gs) * ss ->
  Forall (fun g => Z.of_nat (length (grads g)) = total) gs ->
  Z.of_nat (length (grads g)) = total ->
  Z.of_nat (length (reduced ss gs i g)) = ss.
Proof.
  intros Hss Hi Htot Hlen Hg. unfold reduced.
  assert (Z.of_nat i * ss + ss <= total) by nia.
  apply length_reduce_loop; [nia | done | | apply length_slice; nia].
  eapply Forall_impl; [exact Hlen|]. cbn beta. intros; lia.
Qed.

(** The shards that were summed before shard [idx] lie before it. *)
Lemma iupto_scattered_slices (ss total : Z) (gs0 : list (Graph T)) (idx : nat) :
  0 <= ss -> total = Z.of_nat (length gs0) * ss ->
  Forall (fun g => Z.of_nat (length (grads g)) = total) gs0 ->
  Forall2 (fun g g' => slice (Z.of_nat idx * ss) ss (grads g)
                       = slice (Z.of_nat idx * ss) ss (grads g'))
          (iupto idx (scattered ss gs0) gs0) gs0.
Proof.
  intros Hss Htot Hlen. apply Forall2_same_length_lookup_2.
  { apply length_iupto. }
  intros i x y Hx Hy. rewrite lookup_iupto, Hy in Hx. cbn in Hx.
  case_decide as Hi; [|by injection Hx as <-].
  injection Hx as <-.
  change (grads (scattered ss gs0 i y))
    with (list_inserts (Z.to_nat (Z.of_nat i * ss)) (reduced ss gs0 i y) (grads y)).
  pose proof (lookup_lt_Some _ _ _ Hy) as Hlt.
  pose proof (Forall_lookup_1 _ _ _ _ Hlen Hy) as Hly. cbn beta in Hly.
  pose proof (length_reduced ss total gs0 i y Hss Hlt Htot Hlen Hly).
  apply slice_inserts_before; nia.
Qed.

(** The loop of [foreach] over [scatter], when every shard has [ss]
    elements: replica [i] gets shard [i] summed, for every [i]. *)
Lemma foreach_loop_scatter (ss total : Z) (gs0 : list (Graph T))
    (n idx : nat) st :
  0 <= ss -> (idx + n = length gs0)%nat ->
  total = Z.of_nat (length gs0) * ss ->
  Forall (fun g => Z.of_nat (length (grads g)) = total) gs0 ->
  graphs_ st = iupto idx (scattered ss gs0) gs0 ->
  length (tmpTensors_ st) = length gs0 ->
  Forall (fun t => Z.of_nat (length t) = ss) (tmpTensors_ st) ->
  exists st',
    foreach_loop (scatter ss) ss n idx (Z.of_nat idx * ss) (Z.of_nat n * ss) st
      = Done st' /\
    graphs_ st' = imap (scattered ss gs0) gs0 /\
    params st' = params st /\
    length (tmpTensors_ st') = length gs0 /\
    Forall (fun t => Z.of_nat (length t) = ss) (tmpTensors_ st').
Proof.
  intros Hss Hn Htot Hlen. revert idx st Hn.
  induction n as [|n IH]; intros idx st Hn Hg Hlt Htmp.
  - exists st. cbn. rewrite Hg, iupto_all by lia. done.
  - cbn [foreach_loop].
    assert (Hmin : Z.min ss (Z.of_nat (S n) * ss) = ss) by nia.
    rewrite Hmin.
    destruct (lookup_lt_is_Some_2 gs0 idx ltac:(lia)) as [gi Hi].
    destruct (lookup_lt_is_Some_2 (tmpTensors_ st) idx ltac:(lia)) as [t Ht].
    pose proof (Forall_lookup_1 _ _ _ _ Htmp Ht) as Hlent. cbn beta in Hlent.
    set (gsc := iupto idx (scattered ss gs0) gs0) in *.
    assert (Hic : gsc !! idx = Some gi).
    { unfold gsc. rewrite lookup_iupto, Hi. cbn. by rewrite decide_False by lia. }
    assert (Hlenc : Forall (fun g => Z.of_nat idx * ss + ss
                                      <= Z.of_nat (length (grads g))) gsc).
    { apply Forall_lookup_2. intros i x Hx. unfold gsc in Hx.
      rewrite lookup_iupto in Hx. destruct (gs0 !! i) as [y|] eqn:Hy; [|done].
      pose proof (Forall_lookup_1 _ _ _ _ Hlen Hy) as Hly. cbn beta in Hly.
      cbn in Hx. case_decide; injection Hx as <-;
        rewrite ?length_grads_scattered; nia. }
    destruct (scatter_unit ss (Z.of_nat idx * ss) idx gsc gi t st Hg Hic
                ltac:(nia) Hss Hlenc Ht Hlent)
      as (st1 & t1 & E & G & Tm & Lt & P).
    rewrite E. cbn [mbind outcome_bind].
    replace (Z.of_nat idx * ss + ss) with (Z.of_nat (S idx) * ss) by lia.
    replace (Z.of_nat (S n) * ss - ss) with (Z.of_nat n * ss) by lia.
    destruct (IH (S idx) st1) as (st' & E' & G' & P' & L' & F'); try lia.
    + rewrite G.
      rewrite (reduce_loop_ext ss _ idx _ gsc gs0)
        by (by apply (iupto_scattered_slices ss total)).
      apply (insert_iupto idx (scattered ss gs0) gs0 gi Hi).
    + by rewrite Tm, length_insert.
    + rewrite Tm. by apply Forall_insert.
    + exists st'. rewrite E'. repeat split; try done. congruence.
Qed.

Lemma init_loop_even (ss : Z) (n : nat) (pos : Z) (tmp : list (list T)) :
  0 <= ss ->
  init_loop uninit ss n pos (Z.of_nat n * ss) tmp
    = tmp ++ replicate n (replicate (Z.to_nat ss) uninit).
Proof.
  intros Hss. revert pos tmp.
  induction n as [|n IH]; intros pos tmp; cbn [init_loop replicate].
  - by rewrite app_nil_r.
  - replace (Z.min ss (Z.of_nat (S n) * ss)) with ss by nia.
    replace (Z.of_nat (S n) * ss - ss) with (Z.of_nat n * ss) by lia.
    by rewrite IH, <- app_assoc.
Qed.

(** [init] leaves one scratch tensor of [ss] elements for every replica. *)
Lemma init_even st (total : Z) :
  let R := length (graphs_ st) in
  let ss := shardSize total (Z.of_nat R) in
  (1 <= R)%nat -> 0 <= total <= 2 ^ 24 -> uniform total (graphs_ st) ->
  (Z.of_nat R | total) -> tmp_ready ss R (tmpTensors_ st) ->
  exists st0,
    init uninit st = Done st0 /\
    graphs_ st0 = graphs_ st /\ params st0 = params st /\
    length (tmpTensors_ st0) = R /\
    Forall (fun t => Z.of_nat (length t) = ss) (tmpTensors_ st0).
Proof.
  intros R ss HR Ht Hu Hdiv Htmp.
  destruct (divisible_shardSize total R Ht HR Hdiv) as [Hss Htot].
  fold ss in Hss, Htot.
  assert (Htb : 0 <= total < 2 ^ 31).
  { change (2 ^ 24) with 16777216 in Ht. change (2 ^ 31) with 2147483648. lia. }
  assert (Hv : Forall (fun g => Z.of_nat (length (vals g)) = total) (graphs_ st)).
  { eapply Forall_impl; [exact Hu|]. by intros g [? _]. }
  unfold init. destruct Htmp as [Hnil | [Hl Hf]].
  - rewrite Hnil. cbn [length Nat.eqb].
    rewrite (totalSize_Done _ total) by done. cbn [mbind outcome_bind].
    unfold graphs_size. fold R. fold ss.
    eexists. split; [reflexivity|]. cbn [graphs_ params tmpTensors_].
    assert (E : init_loop uninit ss R 0 total []
                = replicate R (replicate (Z.to_nat ss) uninit)).
    { rewrite Htot at 1. by rewrite init_loop_even. }
    rewrite E. repeat split; [by rewrite length_replicate|].
    apply Forall_replicate. rewrite length_replicate. lia.
  - destruct (tmpTensors_ st) as [|t ts] eqn:Etmp; [cbn in Hl; lia|].
    cbn [length Nat.eqb]. exists st. by rewrite Etmp.
Qed.

(** Scatter-reduce when the vector splits evenly: replica [i] ends up with
    shard [i] summed over the replicas, in the order of [graphs_], and with
    the rest of its gradients, and its parameter values, as they were. *)
Theorem scatterReduce_even st (total : Z) :
  let R := length (graphs_ st) in
  let ss := shardSize total (Z.of_nat R) in
  (1 <= R)%nat -> 0 <= total <= 2 ^ 24 -> uniform total (graphs_ st) ->
  (Z.of_nat R | total) -> tmp_ready ss R (tmpTensors_ st) ->
  exists st',
    scatterReduce uninit st = Done st' /\
    graphs_ st' = imap (scattered ss (graphs_ st)) (graphs_ st) /\
    params st' = params st /\
    tmp_ready ss R (tmpTensors_ st').
Proof.
  intros R ss HR Ht Hu Hdiv Htmp.
  destruct (divisible_shardSize total R Ht HR Hdiv) as [Hss Htot].
  fold ss in Hss, Htot.
  assert (Htb : 0 <= total < 2 ^ 31).
  { change (2 ^ 24) with 16777216 in Ht. change (2 ^ 31) with 2147483648. lia. }
  assert (Hv : Forall (fun g => Z.of_nat (length (vals g)) = total) (graphs_ st)).
  { eapply Forall_impl; [exact Hu|]. by intros g [? _]. }
  assert (Hgr : Forall (fun g => Z.of_nat (length (grads g)) = total) (graphs_ st)).
  { eapply Forall_impl; [exact Hu|]. by intros g [_ ?]. }
  destruct (init_even st total HR Ht Hu Hdiv Htmp) as (st0 & E0 & G0 & P0 & L0 & F0).
  fold R in L0. fold ss in F0.
  unfold scatterReduce. rewrite E0. cbn [mbind outcome_bind].
  unfold foreach, graphs_size.
  rewrite (totalSize_Done st0 total) by (rewrite ?G0; done).
  cbn [mbind outcome_bind]. rewrite G0. fold R. fold ss.
  destruct (foreach_loop_scatter ss total (graphs_ st) R 0 st0)
    as (st' & E & G & P & L & F); try done.
  - by rewrite G0, iupto_0.
  - exists st'. split.
    + rewrite <- E. cbn [Z.of_nat Z.mul]. by rewrite <- Htot.
    + split; [done|]. split; [congruence|]. by right.
Qed.

(** What [scattered] says about one replica. *)
Lemma scattered_spec (ss total : Z) (gs : list (Graph T)) (i : nat) g :
  0 <= ss -> total = Z.of_nat (length gs) * ss ->
  Forall (fun g => Z.of_nat (length (grads g)) = total) gs ->
  gs !! i = Some g ->
  let g' := scattered ss gs i g in
  vals g' = vals g /\
  length (grads g') = length (grads g) /\
  slice (Z.of_nat i * ss) ss (grads g') = reduced ss gs i g /\
  forall k : nat,
    ~ (Z.of_nat i * ss <= Z.of_nat k < Z.of_nat i * ss + ss) ->
    grads g' !! k = grads g !! k.
Proof.
  intros Hss Htot Hlen Hg g'.
  pose proof (lookup_lt_Some _ _ _ Hg) as Hi.
  pose proof (Forall_lookup_1 _ _ _ _ Hlen Hg) as Hl. cbn beta in Hl.
  pose proof (length_reduced ss total gs i g Hss Hi Htot Hlen Hl) as Hr.
  split; [done|]. split; [apply length_grads_scattered|]. split.
  - unfold g', scattered. rewrite <- Hr at 2.
    apply (slice_put false); cbn [field]; nia.
  - intros k Hk.
    change (grads g')
      with (list_inserts (Z.to_nat (Z.of_nat i * ss)) (reduced ss gs i g) (grads g)).
    destruct (decide (Z.of_nat k < Z.of_nat i * ss)).
    + apply list_lookup_inserts_lt. lia.
    + apply list_lookup_inserts_ge. lia.
Qed.

(** [allReduceGrads] is the composition for more than one replica and does
    nothing otherwise; [reduceGrads] is [allReduceGrads] for every root. *)
Lemma allReduceGrads_composition st (root : Z) :
  ((1 < length (graphs_ st))%nat ->
   allReduceGrads uninit st
     = (st1 ← scatterReduce uninit st; allGather false st1)) /\
  ((length (graphs_ st) <= 1)%nat -> allReduceGrads uninit st = Done st) /\
  reduceGrads uninit root st = allReduceGrads uninit st.
Proof.
  unfold reduceGrads, allReduceGrads, graphs_size. repeat split.
  - intros HR. by rewrite (proj2 (Z.ltb_lt _ _)) by lia.
  - intros HR. by rewrite (proj2 (Z.ltb_ge _ _)) by lia.
Qed.

Lemma uniform_scattered (ss total : Z) (gs : list (Graph T)) :
  uniform total gs -> uniform total (imap (scattered ss gs) gs).
Proof.
  intros Hu. apply Forall_lookup_2. intros i x Hx.
  rewrite list_lookup_imap in Hx. destruct (gs !! i) as [y|] eqn:Hy; [|done].
  injection Hx as <-. pose proof (Forall_lookup_1 _ _ _ _ Hu Hy) as [Hv Hg].
  split; [done|]. by rewrite length_grads_scattered.
Qed.

(** With one replica there is nothing to add. *)
Lemma reduced_single (ss : Z) (g : Graph T) :
  reduced ss [g] 0 g = slice 0 ss (grads g).
Proof. unfold reduced. cbn. by rewrite decide_False by (intros ?; done). Qed.

(** All-reduce when the vector splits evenly: every replica ends up with
    the same gradients [G], the shard [i] of which is the sum that
    [scatterReduce] leaves in shard [i] of replica [i]. *)
Theorem allReduceGrads_even st (total : Z) :
  let R := length (graphs_ st) in
  let ss := shardSize total (Z.of_nat R) in
  let G := gathered false ss (imap (scattered ss (graphs_ st)) (graphs_ st)) R 0 0 in
  (1 <= R)%nat -> 0 <= total <= 2 ^ 24 -> uniform total (graphs_ st) ->
  (Z.of_nat R | total) -> tmp_ready ss R (tmpTensors_ st) ->
  (exists st',
     allReduceGrads uninit st = Done st' /\
     graphs_ st' = with_grads G <$> graphs_ st /\
     params st' = params st) /\
  Z.of_nat (length G) = total /\
  forall (i : nat) gi, graphs_ st !! i = Some gi ->
    slice (Z.of_nat i * ss) ss G = reduced ss (graphs_ st) i gi.
Proof.
  intros R ss G HR Ht Hu Hdiv Htmp.
  destruct (divisible_shardSize total R Ht HR Hdiv) as [Hss Htot].
  fold ss in Hss, Htot.
  assert (Hgr : Forall (fun g => Z.of_nat (length (grads g)) = total) (graphs_ st)).
  { eapply Forall_impl; [exact Hu|]. by intros g [_ ?]. }
  set (gs1 := imap (scattered ss (graphs_ st)) (graphs_ st)) in *.
  assert (HR1 : length gs1 = R) by apply length_imap.
  assert (Hu1 : uniform total gs1) by by apply uniform_scattered.
  pose proof (allGather_even false (set_graphs st gs1) total) as HG.
  cbn zeta in HG. cbn [graphs_ set_graphs] in HG. rewrite HR1 in HG.
  fold ss in HG. fold G in HG.
  destruct (HG HR Ht Hu1 Hdiv) as (_ & _ & HlG & Hsl). clear HG.
  assert (Hshard : forall (i : nat) gi, graphs_ st !! i = Some gi ->
            slice (Z.of_nat i * ss) ss G = reduced ss (graphs_ st) i gi).
  { intros i gi Hgi.
    rewrite (Hsl i (scattered ss (graphs_ st) i gi)).
    - by apply (scattered_spec ss total).
    - unfold gs1. by rewrite list_lookup_imap, Hgi. }
  split; [|by split].
  destruct (decide (R = 1%nat)) as [HR1' | Hmany].
  - (* one replica *)
    exists st.
    rewrite (proj1 (proj2 (allReduceGrads_composition st 0))) by (fold R; lia).
    split; [done|]. split; [|done].
    destruct (graphs_ st) as [|g [|? ?]] eqn:Egs; try (cbn in R; subst R; done).
    cbn [fmap list_fmap]. f_equal. destruct g as [vs gr].
    unfold with_grads. cbn [vals grads]. f_equal.
    pose proof (Hshard 0%nat _ eq_refl) as E0.
    rewrite reduced_single in E0. cbn [grads] in E0.
    change (Z.of_nat 0 * ss) with 0 in E0.
    apply Forall_inv in Hgr. cbn [grads] in Hgr.
    assert (Hss1 : ss = total) by (subst R; cbn [length] in Htot; lia).
    unfold slice in E0. rewrite !drop_0 in E0.
    rewrite !firstn_all2 in E0 by lia. done.
  - destruct (scatterReduce_even st total HR Ht Hu Hdiv Htmp)
      as (st1 & E1 & G1 & P1 & T1).
    fold R in G1. fold ss in G1. fold gs1 in G1.
    pose proof (allGather_even false st1 total) as HG.
    cbn zeta in HG. rewrite G1, HR1 in HG. fold ss in HG. fold G in HG.
    destruct (HG HR Ht Hu1 Hdiv) as (E2 & _).
    exists (set_graphs st1 (with_field false G <$> gs1)).
    rewrite (proj1 (allReduceGrads_composition st 0)) by (fold R; lia).
    rewrite E1. cbn [mbind outcome_bind]. split; [exact E2|].
    split; [|done]. cbn [graphs_ set_graphs]. apply list_eq. intros i.
    unfold gs1. rewrite !list_lookup_fmap, list_lookup_imap.
    by destruct (graphs_ st !! i).
Qed.
End ScatterFacts.

(** In exact arithmetic the order of the additions does not matter: what
    [scatter] leaves is the sum over all the replicas. *)
Section ExactSums.
Context {T : Type} `{Scalar T} `{!ExactArithmetic T}.
Variable uninit : T.

Add Ring scalar_sum_ring : scalar_ring.

Lemma lookup_slice (pos n : Z) (l : list T) (k : nat) :
  0 <= pos -> (k < Z.to_nat n)%nat ->
  slice pos n l !! k = l !! (Z.to_nat pos + k)%nat.
Proof.
  intros Hpos Hk. unfold slice. by rewrite lookup_take_lt, lookup_drop by done.
Qed.

Lemma grad_at_lookup (g : Graph T) (k : nat) :
  (k < length (grads g))%nat -> grads g !! k = Some (grad_at k g).
Proof.
  intros Hk. unfold grad_at.
  by destruct (lookup_lt_is_Some_2 (grads g) k Hk) as [x ->].
Qed.

Lemma grad_sum_app (gs gs' : list (Graph T)) (k : nat) :
  grad_sum (gs ++ gs') k = add (grad_sum gs k) (grad_sum gs' k).
Proof.
  unfold grad_sum. induction gs as [|g gs IH]; cbn [app foldr].
  - ring.
  - rewrite IH. ring.
Qed.

(** Replicas other than [idx] are all added. *)
Lemma reduce_loop_lookup (ss pos : Z) (idx : nat) (acc : list T)
    (gs : list (Graph T)) (j k : nat) (a : T) :
  0 <= pos -> (k < Z.to_nat ss)%nat ->
  Forall (fun g => pos + ss <= Z.of_nat (length (grads g))) gs ->
  (idx < j \/ j + length gs <= idx)%nat ->
  acc !! k = Some a ->
  reduce_loop ss pos idx acc gs j !! k
    = Some (add a (grad_sum gs (Z.to_nat pos + k))).
Proof.
  intros Hpos Hk Hlen. revert acc j a.
  induction Hlen as [|g gs Hg _ IH]; intros acc j a Hj Ha; cbn [reduce_loop].
  - rewrite Ha. f_equal. unfold grad_sum. cbn [foldr]. ring.
  - rewrite decide_True by (cbn [length] in Hj; lia).
    rewrite (IH _ (S j) (add a (grad_at (Z.to_nat pos + k) g))).
    + f_equal. unfold grad_sum. cbn [foldr]. ring.
    + cbn [length] in Hj. lia.
    + rewrite lookup_zip_with, Ha. cbn.
      rewrite lookup_slice, grad_at_lookup by lia. done.
Qed.

Lemma reduce_loop_app (ss pos : Z) (idx : nat) (acc : list T)
    (gs gs' : list (Graph T)) (j : nat) :
  reduce_loop ss pos idx acc (gs ++ gs') j
    = reduce_loop ss pos idx (reduce_loop ss pos idx acc gs j) gs'
        (j + length gs).
Proof.
  revert acc j. induction gs as [|g gs IH]; intros acc j; cbn [app reduce_loop length].
  - by rewrite Nat.add_0_r.
  - rewrite IH. f_equal. lia.
Qed.

(** Shard [idx] after [scatter] is the sum of the shards [idx] of all the
    replicas. *)
Lemma reduced_sum (ss total : Z) (gs : list (Graph T)) (idx : nat)
    (gi : Graph T) (k : nat) :
  0 <= ss -> total = Z.of_nat (length gs) * ss ->
  Forall (fun g => Z.of_nat (length (grads g)) = total) gs ->
  gs !! idx = Some gi -> (k < Z.to_nat ss)%nat ->
  reduced ss gs idx gi !! k
    = Some (grad_sum gs (Z.to_nat (Z.of_nat idx * ss) + k)).
Proof.
  intros Hss Htot Hlen Hi Hk.
  pose proof (lookup_lt_Some _ _ _ Hi) as Hlt.
  set (pos := Z.of_nat idx * ss).
  assert (Hpos : 0 <= pos) by (unfold pos; nia).
  assert (Hfit : Forall (fun g => pos + ss <= Z.of_nat (length (grads g))) gs).
  { eapply Forall_impl; [exact Hlen|]. cbn beta. intros g Hg. unfold pos. nia. }
  unfold reduced. fold pos.
  rewrite <- (take_drop_middle gs idx gi Hi) at 1 2.
  apply Forall_lookup_1 with (i := idx) (x := gi) in Hfit as Hgi; [|done].
  cbn beta in Hgi.
  rewrite <- (take_drop_middle gs idx gi Hi) in Hfit.
  apply Forall_app in Hfit as [Hf1 Hf2]. apply Forall_cons in Hf2 as [_ Hf2].
  rewrite reduce_loop_app. cbn [reduce_loop].
  rewrite length_take_le by lia. cbn [Nat.add].
  rewrite decide_False by (intros ?; done).
  set (a := grad_at (Z.to_nat pos + k) gi).
  rewrite (reduce_loop_lookup ss pos idx _ _ (S idx) k
             (add a (grad_sum (take idx gs) (Z.to_nat pos + k))));
    [|done|done|done|lia|].
  - f_equal. rewrite grad_sum_app. cbn [grad_sum foldr]. fold a.
    change (foldr (fun g s => add (grad_at (Z.to_nat pos + k) g) s) zero
              (drop (S idx) gs))
      with (grad_sum (drop (S idx) gs) (Z.to_nat pos + k)).
    ring.
  - apply reduce_loop_lookup; try done.
    + rewrite length_take_le by lia. lia.
    + rewrite lookup_slice, grad_at_lookup by lia. done.
Qed.

(** X11.  All-reduce when the vector splits evenly, in exact arithmetic: gradient
    [k] of every replica ends up as the sum of the gradients [k] of all the
    replicas. *)
Theorem allReduceGrads_sums st (total : Z) :
  let R := length (graphs_ st) in
  let ss := shardSize total (Z.of_nat R) in
  (1 <= R)%nat -> 0 <= total <= 2 ^ 24 -> uniform total (graphs_ st) ->
  (Z.of_nat R | total) -> tmp_ready ss R (tmpTensors_ st) ->
  exists st' (G : list T),
    allReduceGrads uninit st = Done st' /\
    graphs_ st' = with_grads G <$> graphs_ st /\
    Z.of_nat (length G) = total /\
    forall k : nat, Z.of_nat k < total ->
      G !! k = Some (grad_sum (graphs_ st) k).
Proof.
  intros R ss HR Ht Hu Hdiv Htmp.
  destruct (allReduceGrads_even uninit st total HR Ht Hu Hdiv Htmp)
    as ((st' & E & G' & _) & HlG & Hshard).
  fold R in G', HlG, Hshard. fold ss in G', HlG, Hshard.
  set (G := gathered false ss (imap (scattered ss (graphs_ st)) (graphs_ st)) R 0 0)
    in *.
  exists st', G. split; [done|]. split; [done|]. split; [done|].
  intros k Hk.
  destruct (divisible_shardSize total R Ht HR Hdiv) as [Hss Htot].
  fold ss in Hss, Htot.
  assert (Hgr : Forall (fun g => Z.of_nat (length (grads g)) = total) (graphs_ st)).
  { eapply Forall_impl; [exact Hu|]. by intros g [_ ?]. }
  assert (Hpos : 0 < ss) by nia.
  pose proof (Z.div_mod (Z.of_nat k) ss ltac:(lia)) as Hdm.
  pose proof (Z.mod_pos_bound (Z.of_nat k) ss Hpos) as Hr.
  pose proof (Z.div_pos (Z.of_nat k) ss ltac:(lia) Hpos) as Hq.
  set (q := Z.of_nat k / ss) in *. set (r := Z.of_nat k mod ss) in *.
  assert (Hi : (Z.to_nat q < R)%nat) by nia.
  destruct (lookup_lt_is_Some_2 (graphs_ st) (Z.to_nat q) Hi) as [gi Hgi].
  pose proof (Hshard _ gi Hgi) as Hs.
  assert (Ek : k = (Z.to_nat (Z.of_nat (Z.to_nat q) * ss) + Z.to_nat r)%nat).
  { rewrite Z2Nat.id by done. apply Nat2Z.inj.
    rewrite Nat2Z.inj_add, !Z2Nat.id by nia. lia. }
  rewrite Ek at 1.
  rewrite <- (lookup_slice (Z.of_nat (Z.to_nat q) * ss) ss G (Z.to_nat r))
    by (nia || lia).
  rewrite Hs.
  rewrite (reduced_sum ss total _ _ gi (Z.to_nat r)); try done; [|lia].
  by rewrite <- Ek.
Qed.
End ExactSums.

(** Two replicas of two gradients each: [scatterReduce] sums shard 0 on
    replica 0 and shard 1 on replica 1, [allGather] hands the shards round,
    and [allReduceGrads] leaves both replicas with the sums. *)
Example scatterReduce_even_replicas :
  (st ← scatterReduce 0 even_replicas; Done (graphs_ st))
    = Done [ {| vals := [1; 2]; grads := [11; 2] |};
             {| vals := [3; 4]; grads := [10; 22] |} ].
Proof. by vm_compute. Qed.

Example allGather_even_replicas :
  (st ← allGather true even_replicas; Done (graphs_ st))
    = Done [ {| vals := [1; 4]; grads := [1; 2] |};
             {| vals := [1; 4]; grads := [10; 20] |} ].
Proof. by vm_compute. Qed.

Example allReduceGrads_even_replicas :
  (st ← allReduceGrads 0 even_replicas; Done (graphs_ st))
    = Done [ {| vals := [1; 2]; grads := [11; 22] |};
             {| vals := [3; 4]; grads := [11; 22] |} ].
Proof. by vm_compute. Qed.

(** ** Vectors that do not split evenly

    When the replica count does not divide the vector, the window of the
    last shard leaves the vector. *)
Section UnevenFacts.
Context {T : Type} `{Scalar T}.
Variable uninit : T.
Variable total : Z.
Variable R : nat.
Implicit Types (st : State T) (g : Graph T) (l v : list T).

Lemma leaves_or_bind {A B} (P : A -> Prop) (Q : B -> Prop) (e : outcome A)
    (k : A -> outcome B) :
  leaves_or P e -> (forall a, P a -> leaves_or Q (k a)) ->
  leaves_or Q (a ← e; k a).
Proof.
  intros [-> | (a & -> & Ha)] Hk; [by left|]. cbn. by apply Hk.
Qed.

Lemma leaves_or_Done {A} (P : A -> Prop) (a : A) : P a -> leaves_or P (Done a).
Proof. intros Ha. right. by exists a. Qed.

Lemma leaves_or_True {A} (e : outcome A) :
  (forall m, e <> Abort m) -> leaves_or (fun _ => True) e.
Proof.
  intros He. destruct e as [a|m|]; [right; by exists a | by destruct (He m) | by left].
Qed.

Lemma tensor_leaves st (b : Buffer) : leaves_or (fun _ => True) (tensor st b).
Proof. apply leaves_or_True. intros m. unfold tensor. by destruct (memory st b). Qed.

Lemma data_leaves st (t : Tensor) : leaves_or (fun _ => True) (data st t).
Proof.
  apply leaves_or_True. intros m. unfold data.
  destruct (memory st (buffer t)); [|done]. by destruct (in_range _ _ _).
Qed.

Lemma set_memory_shaped st (b : Buffer) l l' :
  memory st b = Some l -> length l' = length l ->
  shaped total R st -> shaped total R (set_memory st b l').
Proof.
  intros Hm Hl [Hu HR]. unfold shaped.
  destruct b as [i | i | i | i]; cbn in *; try done.
  - rewrite length_alter. split; [|done]. apply Forall_alter; [done|].
    intros x Hx [Hv Hg]. rewrite Hx in Hm. injection Hm as <-. cbn.
    split; [lia | done].
  - rewrite length_alter. split; [|done]. apply Forall_alter; [done|].
    intros x Hx [Hv Hg]. rewrite Hx in Hm. injection Hm as <-. cbn.
    split; [done | lia].
Qed.

Lemma write_leaves st (t : Tensor) v :
  shaped total R st -> leaves_or (shaped total R) (write st t v).
Proof.
  intros Hs. unfold write. destruct (memory st (buffer t)) as [l|] eqn:Hm; [|by left].
  destruct (in_range _ _ _); [|by left].
  apply leaves_or_Done. apply (set_memory_shaped _ _ l); [done | | done].
  apply length_inserts.
Qed.

Lemma copyFrom_leaves st (dst src : Tensor) :
  shaped total R st -> leaves_or (shaped total R) (copyFrom dst src st).
Proof.
  intros Hs. unfold copyFrom.
  eapply leaves_or_bind; [apply data_leaves|]. intros v _. by apply write_leaves.
Qed.

Lemma Element_add_leaves st (out inp : Tensor) :
  shaped total R st -> leaves_or (shaped total R) (Element_add out inp st).
Proof.
  intros Hs. unfold Element_add.
  eapply leaves_or_bind; [apply data_leaves|]. intros a _.
  eapply leaves_or_bind; [apply data_leaves|]. intros b _.
  case_match; [by apply write_leaves | by left].
Qed.

Lemma for_graphs_leaves (body : nat -> State T -> outcome (State T))
    (n j : nat) st :
  (forall j st, shaped total R st -> leaves_or (shaped total R) (body j st)) ->
  shaped total R st -> leaves_or (shaped total R) (for_graphs body n j st).
Proof.
  intros Hbody. revert j st. induction n as [|n IH]; intros j st Hs; cbn.
  - by apply leaves_or_Done.
  - eapply leaves_or_bind; [by apply Hbody|]. intros st' Hs'. by apply IH.
Qed.

Lemma scatter_leaves (ss : Z) (idx : nat) (pos : Z) st :
  shaped total R st -> leaves_or (shaped total R) (scatter ss idx pos st).
Proof.
  intros Hs. unfold scatter.
  eapply leaves_or_bind; [apply tensor_leaves|]. intros g _.
  apply for_graphs_leaves; [|done]. intros j st' Hs'.
  case_decide; [|by apply leaves_or_Done].
  eapply leaves_or_bind; [apply tensor_leaves|]. intros g' _.
  eapply leaves_or_bind; [apply tensor_leaves|]. intros tmp _.
  eapply leaves_or_bind; [by apply copyFrom_leaves|]. intros st1 Hs1.
  by apply Element_add_leaves.
Qed.

Lemma gather_leaves (b : bool) (ss : Z) (idx : nat) (pos : Z) st :
  shaped total R st -> leaves_or (shaped total R) (gather ss b idx pos st).
Proof.
  intros Hs. unfold gather, getShard.
  eapply leaves_or_bind.
  { eapply leaves_or_bind; [apply tensor_leaves|]. intros t _.
    by apply (leaves_or_Done (fun _ => True)). }
  intros cur _.
  apply for_graphs_leaves; [|done]. intros j st' Hs'.
  case_decide; [|by apply leaves_or_Done].
  eapply leaves_or_bind.
  { eapply leaves_or_bind; [apply tensor_leaves|]. intros t _.
    by apply (leaves_or_Done (fun _ => True)). }
  intros sub _. by apply copyFrom_leaves.
Qed.

Lemma tensor_None st (b : Buffer) :
  memory st b = None -> tensor st b = OutOfBounds.
Proof. intros Hm. unfold tensor. by rewrite Hm. Qed.

Lemma data_window_leaves st (b : Buffer) l (len pos n : Z) :
  memory st b = Some l -> Z.of_nat (length l) < pos + n ->
  data st (subtensor {| buffer := b; offset := 0; size := len |} pos n)
    = OutOfBounds.
Proof.
  intros Hm Hl. unfold data, subtensor. cbn. rewrite Hm.
  by rewrite in_range_false by lia.
Qed.

(** A loop over the replicas that fails for every replica but [idx] fails
    when there is another replica. *)
Lemma for_graphs_oob (body : nat -> State T -> outcome (State T))
    (idx n j : nat) st :
  (forall j, j <> idx -> body j st = OutOfBounds) ->
  body idx st = Done st ->
  (exists j', (j <= j' < j + n)%nat /\ j' <> idx) ->
  for_graphs body n j st = OutOfBounds.
Proof.
  intros Hne Heq. revert j.
  induction n as [|n IH]; intros j (j' & Hj' & Hidx); [lia|].
  cbn [for_graphs]. destruct (decide (j = idx)) as [-> | Hj].
  - rewrite Heq. cbn. apply IH. exists j'. split; [lia | done].
  - by rewrite Hne.
Qed.

Lemma another_replica (idx : nat) :
  (2 <= R)%nat -> exists j', (0 <= j' < 0 + R)%nat /\ j' <> idx.
Proof.
  intros HR. destruct idx as [|idx]; [exists 1%nat | exists 0%nat]; lia.
Qed.

(** [scatter] with a window that leaves the vector. *)
Lemma scatter_oob (ss pos : Z) (idx : nat) st :
  shaped total R st -> (2 <= R)%nat -> (idx < R)%nat ->
  total < pos + ss ->
  scatter ss idx pos st = OutOfBounds.
Proof.
  intros [Hu HR] HR2 Hidx Hwin. unfold scatter.
  destruct (lookup_lt_is_Some_2 (graphs_ st) idx ltac:(lia)) as [gi Hgi].
  rewrite (tensor_Done st (GradsOf idx) (grads gi)) by by apply memory_grads.
  cbn [mbind outcome_bind]. rewrite HR.
  apply (for_graphs_oob _ idx); [| |by apply another_replica].
  - intros j Hj. rewrite decide_True by done.
    destruct (graphs_ st !! j) as [gj|] eqn:Hgj.
    2:{ rewrite (tensor_None st (GradsOf j)); [done|]. cbn. by rewrite Hgj. }
    rewrite (tensor_Done st (GradsOf j) (grads gj)) by by apply memory_grads.
    cbn [mbind outcome_bind].
    pose proof (Forall_lookup_1 _ _ _ _ Hu Hgj) as [_ Hlj].
    destruct (tensor st (TmpOf idx)) as [tmp| |] eqn:Htmp; cbn; try done.
    + unfold copyFrom.
      rewrite (data_window_leaves st (GradsOf j) (grads gj)); [done| |lia].
      by apply memory_grads.
    + unfold tensor in Htmp. by destruct (memory st (TmpOf idx)).
  - by rewrite decide_False by (intros ?; done).
Qed.

(** [gather] with a window that leaves the vector. *)
Lemma gather_oob (b : bool) (ss pos : Z) (idx : nat) st :
  shaped total R st -> (2 <= R)%nat -> (idx < R)%nat ->
  total < pos + ss ->
  gather ss b idx pos st = OutOfBounds.
Proof.
  intros [Hu HR] HR2 Hidx Hwin. unfold gather.
  destruct (lookup_lt_is_Some_2 (graphs_ st) idx ltac:(lia)) as [gi Hgi].
  pose proof (Forall_lookup_1 _ _ _ _ Hu Hgi) as [Hvi Hli].
  rewrite (getShard_Done b st idx gi) by done.
  cbn [mbind outcome_bind]. rewrite HR.
  apply (for_graphs_oob _ idx); [| |by apply another_replica].
  - intros j Hj. rewrite decide_True by done.
    destruct (graphs_ st !! j) as [gj|] eqn:Hgj.
    + rewrite (getShard_Done b st j gj) by done. cbn [mbind outcome_bind].
      unfold copyFrom.
      rewrite (data_window_leaves st (FieldOf b idx) (field b gi)); [done| |].
      * by apply memory_field.
      * destruct b; cbn; lia.
    + unfold getShard, tensor. destruct b; cbn [memory]; by rewrite Hgj.
  - by rewrite decide_False by (intros ?; done).
Qed.

(** The loop of [foreach] when the elements that remain do not fill the
    shards that remain: the last call gets a window that leaves the vector. *)
Lemma foreach_loop_oob (func : nat -> Z -> State T -> outcome (State T))
    (ss : Z) (n idx : nat) (pos tot : Z) st :
  (forall idx pos st, shaped total R st ->
     leaves_or (shaped total R) (func idx pos st)) ->
  (forall idx pos st, shaped total R st -> (idx < R)%nat ->
     total < pos + ss -> func idx pos st = OutOfBounds) ->
  1 <= ss -> (1 <= n)%nat -> (idx + n = R)%nat ->
  pos + tot = total -> 0 <= tot < Z.of_nat n * ss ->
  shaped total R st ->
  foreach_loop func ss n idx pos tot st = OutOfBounds.
Proof.
  intros Hsafe Hoob Hss. revert idx pos tot st.
  induction n as [|n IH]; intros idx pos tot st Hn Hidx Hpos Htot Hs; [lia|].
  cbn [foreach_loop]. destruct n as [|n].
  - rewrite Hoob; [done | done | lia | lia].
  - destruct (Hsafe idx pos st Hs) as [-> | (st' & -> & Hs')]; [done|].
    cbn [mbind outcome_bind].
    rewrite (Nat2Z.inj_succ (S n)) in Htot.
    apply IH; done || lia.
Qed.

(** X12.  With at least two replicas and a vector of at most [2^24] elements
    that the replica count does not divide, the collective operations run out of
    their tensors. *)
Theorem uneven_out_of_bounds st :
  shaped total R st -> (2 <= R)%nat -> 0 <= total <= 2 ^ 24 ->
  ~ (Z.of_nat R | total) ->
  scatterReduce uninit st = OutOfBounds /\
  (forall b, allGather b st = OutOfBounds) /\
  allReduceGrads uninit st = OutOfBounds /\
  (forall root, reduceGrads uninit root st = OutOfBounds).
Proof.
  intros Hs HR Ht Hdiv. pose proof Hs as [Hu Hlen].
  set (ss := shardSize total (Z.of_nat R)).
  assert (Ess : ss = ceil_div total (Z.of_nat R))
    by (apply F32Facts.shardSize_exact; lia).
  pose proof (F32Facts.ceil_div_spec total (Z.of_nat R) ltac:(lia)) as Hc.
  rewrite <- Ess in Hc.
  assert (Hne : total <> ss * Z.of_nat R).
  { intros E. apply Hdiv. by exists ss. }
  assert (Hpos : 0 < total).
  { destruct (Z.eq_dec total 0) as [E0 | ?]; [|lia].
    destruct Hdiv. exists 0. lia. }
  assert (Hss : 1 <= ss) by nia.
  assert (Htb : 0 <= total < 2 ^ 31).
  { change (2 ^ 24) with 16777216 in Ht. change (2 ^ 31) with 2147483648. lia. }
  assert (Hv : forall st0 : State T, shaped total R st0 ->
            totalSize st0 = Done total).
  { intros st0 [Hu0 Hl0]. apply totalSize_Done; [lia | done |].
    eapply Forall_impl; [exact Hu0|]. by intros g [? _]. }
  assert (Hsc : scatterReduce uninit st = OutOfBounds).
  { unfold scatterReduce, init.
    assert (Hinit : exists st0,
      (if Nat.eqb (length (tmpTensors_ st)) 0
       then total0 ← totalSize st;
            Done {| graphs_ := graphs_ st;
                    tmpTensors_ := init_loop uninit
                      (shardSize total0 (graphs_size st))
                      (length (graphs_ st)) 0 total0 (tmpTensors_ st);
                    params := params st |}
       else Done st) = Done st0 /\ shaped total R st0).
    { destruct (Nat.eqb _ 0); [|by exists st].
      rewrite (Hv st Hs). cbn. eexists. split; [reflexivity|]. done. }
    destruct Hinit as (st0 & -> & Hs0). cbn [mbind outcome_bind].
    pose proof Hs0 as [_ Hl0].
    unfold foreach, graphs_size. rewrite (Hv st0 Hs0). cbn [mbind outcome_bind].
    rewrite Hl0. fold ss.
    apply (foreach_loop_oob _ ss R 0 0 total st0); try done; try lia.
    - intros. by apply scatter_leaves.
    - intros. by apply scatter_oob. }
  assert (Hga : forall b, allGather b st = OutOfBounds).
  { intros b. unfold allGather, foreach, graphs_size.
    rewrite (Hv st Hs). cbn [mbind outcome_bind]. rewrite Hlen. fold ss.
    apply (foreach_loop_oob _ ss R 0 0 total st); try done; try lia.
    - intros. by apply gather_leaves.
    - intros. by apply gather_oob. }
  assert (Har : allReduceGrads uninit st = OutOfBounds).
  { unfold allReduceGrads, graphs_size. rewrite Hlen.
    rewrite (proj2 (Z.ltb_lt _ _)) by lia. by rewrite Hsc. }
  done.
Qed.
End UnevenFacts.

(** ** [pushParams] and [pullParams] *)
Section ParamFacts.
Context {T : Type} `{Scalar T}.
Implicit Types (st : State T) (g : Graph T) (l v : list T).

(** [foreach] calls [func] for the shards of [shards], first to last. *)
Lemma foreach_loop_shards (func : nat -> Z -> State T -> outcome (State T))
    (ss : Z) (n idx : nat) (pos tot : Z) st :
  foreach_loop func ss n idx pos tot st
    = run_shards func (shards ss n idx pos tot) st.
Proof.
  revert idx pos tot st. induction n as [|n IH]; intros idx pos tot st; [done|].
  cbn [foreach_loop shards run_shards fst snd].
  destruct (func idx pos st) as [st'| |]; cbn; [apply IH | done | done].
Qed.

Lemma shards_middle ss n idx pos tot (i : nat) s :
  shards ss n idx pos tot !! i = Some s -> s.1.1 = (idx + i)%nat.
Proof.
  revert idx pos tot i. induction n as [|n IH]; intros idx pos tot i; [done|].
  destruct i as [|i]; cbn [shards lookup list_lookup].
  - intros [= <-]. cbn. lia.
  - intros Hs. rewrite (IH _ _ _ _ Hs). lia.
Qed.

(** One call of the lambda of [pushParams]. *)
Lemma push_unit (idx : nat) (pos : Z) (P : list T) (g : Graph T) st :
  graphs_ st !! idx = Some g -> params st !! idx = Some P ->
  Z.of_nat (length P) < 2 ^ 31 -> 0 <= pos ->
  pos + Z.of_nat (length P) <= Z.of_nat (length (vals g)) ->
  push idx pos st =
    Done {| graphs_ := graphs_ st; tmpTensors_ := tmpTensors_ st;
            params := <[idx := slice pos (Z.of_nat (length P)) (vals g)]>
                        (params st) |}.
Proof.
  intros Hg HP HPb Hpos Hfit. unfold push.
  rewrite (tensor_Done st (ParamOf idx) P) by done.
  cbn [mbind outcome_bind size].
  rewrite (tensor_Done _ _ _ (memory_vals _ _ _ Hg)). cbn [mbind outcome_bind].
  rewrite (F32Facts.to_int_small (Z.of_nat (length P))) by lia.
  erewrite (copyFrom_Done st);
    [| by apply (data_Done _ _ _ _ _ _ (memory_vals _ _ _ Hg)); lia
     | apply (write_whole st (ParamOf idx) P);
       [done | apply Nat2Z.inj; rewrite length_slice; lia] ].
  done.
Qed.

Lemma foreach_loop_push (ss : Z) (gs0 : list (Graph T)) (total : Z)
    (n idx : nat) (pos tot : Z) st (saved rest : list (list T)) :
  0 <= ss -> 0 <= tot -> 0 <= pos -> pos + tot = total -> total < 2 ^ 31 ->
  (idx + n <= length gs0)%nat ->
  Forall (fun g => Z.of_nat (length (vals g)) = total) gs0 ->
  length saved = idx ->
  graphs_ st = gs0 -> params st = saved ++ rest ->
  shard_sized (shards ss n idx pos tot) rest ->
  foreach_loop push ss n idx pos tot st =
    Done {| graphs_ := gs0; tmpTensors_ := tmpTensors_ st;
            params := saved ++ (own_shard gs0 <$> shards ss n idx pos tot) |}.
Proof.
  intros Hss Htot Hpos Hsum Htb Hn Hlen.
  revert idx pos tot st saved rest Htot Hpos Hsum Hn.
  induction n as [|n IH];
    intros idx pos tot st saved rest Htot Hpos Hsum Hn Hsaved Hg Hp Hsz;
    cbn [shards foreach_loop] in *.
  - apply Forall2_nil_inv_l in Hsz as ->. cbn [fmap list_fmap].
    rewrite <- Hg, <- Hp. by destruct st.
  - apply Forall2_cons_inv_l in Hsz as (P & rest' & HP & Hsz & ->). cbn in HP.
    destruct (lookup_lt_is_Some_2 gs0 idx ltac:(lia)) as [g Hgi].
    pose proof (Forall_lookup_1 _ _ _ _ Hlen Hgi) as Hl. cbn beta in Hl.
    rewrite (push_unit idx pos P g st);
      [ | by rewrite Hg | by rewrite Hp, lookup_app_r, Hsaved, Nat.sub_diag by lia
        | lia | done | lia ].
    cbn [mbind outcome_bind].
    rewrite (IH (S idx) _ _ _ (saved ++ [slice pos (Z.min ss tot) (vals g)]) rest');
      [ | lia | lia | lia | lia | rewrite length_app; cbn; lia | done | | done ].
    + cbn [tmpTensors_ fmap list_fmap]. f_equal. f_equal.
      rewrite <- app_assoc. cbn. do 2 f_equal.
      unfold own_shard. cbn. by rewrite Hgi.
    + cbn [params]. rewrite Hp, HP.
      replace idx with (length saved + 0)%nat by lia.
      rewrite insert_app_r. cbn. by rewrite <- app_assoc.
Qed.

(** The loop of the lambda of [pullParams]. *)
Lemma pull_loop (idx : nat) (pos : Z) (P : list T) (gs : list (Graph T))
    (m i : nat) st :
  params st !! idx = Some P ->
  Z.of_nat (length P) < 2 ^ 31 -> 0 <= pos ->
  Forall (fun g => pos + Z.of_nat (length P) <= Z.of_nat (length (vals g))) gs ->
  (i + m <= length gs)%nat ->
  graphs_ st = upto i (put true pos P) gs ->
  for_graphs (fun j st =>
      p ← tensor st (ParamOf idx);
      v ← tensor st (ValsOf j);
      copyFrom (subtensor v pos (to_int (size p))) p st) m i st
    = Done (set_graphs st (upto (i + m) (put true pos P) gs)).
Proof.
  intros HP Hlen Hpos Hfit. revert i st HP.
  induction m as [|m IH]; intros i st HP Hi Hg.
  - cbn. rewrite Nat.add_0_r, <- Hg. by destruct st.
  - destruct (lookup_lt_is_Some_2 gs i ltac:(lia)) as [g Hgi].
    pose proof (Forall_lookup_1 _ _ _ _ Hfit Hgi) as Hfg. cbn beta in Hfg.
    assert (Hsti : graphs_ st !! i = Some g).
    { rewrite Hg, lookup_upto, Hgi. cbn. by rewrite decide_False by lia. }
    cbn [for_graphs].
    rewrite (tensor_Done st (ParamOf idx) P) by done.
    cbn [mbind outcome_bind size].
    rewrite (tensor_Done _ _ _ (memory_vals _ _ _ Hsti)).
    cbn [mbind outcome_bind size].
    rewrite (F32Facts.to_int_small (Z.of_nat (length P))) by lia.
    unfold copyFrom.
    rewrite (data_whole st (ParamOf idx) P) by done. cbn [mbind outcome_bind].
    rewrite (write_Done _ _ _ _ _ _ _ (memory_vals _ _ _ Hsti)) by lia.
    cbn [mbind outcome_bind].
    rewrite IH.
    + unfold set_graphs. cbn. do 3 f_equal. lia.
    + done.
    + lia.
    + cbn. rewrite Hg. by apply (alter_upto _ _ _ _ g).
Qed.

Lemma pull_unit (idx : nat) (pos : Z) (P : list T) (gs : list (Graph T)) st :
  graphs_ st = gs -> params st !! idx = Some P ->
  Z.of_nat (length P) < 2 ^ 31 -> 0 <= pos ->
  Forall (fun g => pos + Z.of_nat (length P) <= Z.of_nat (length (vals g))) gs ->
  pull idx pos st = Done (set_graphs st (put true pos P <$> gs)).
Proof.
  intros Hg HP HPb Hpos Hfit. unfold pull. rewrite Hg.
  rewrite (pull_loop idx pos P gs _ 0 st); try done.
  - cbn [Nat.add]. by rewrite upto_all.
  - by rewrite Hg, upto_0.
Qed.

Lemma foreach_loop_pull (ss : Z) (gs0 : list (Graph T)) (total : Z)
    (n idx : nat) (pos tot : Z) st (C : list T)
    (saved rest : list (list T)) :
  0 <= ss -> 0 <= tot -> 0 <= pos -> pos + tot = total -> total < 2 ^ 31 ->
  Forall (fun g => Z.of_nat (length (vals g)) = total) gs0 ->
  Z.of_nat (length C) = pos -> length saved = idx ->
  graphs_ st = filled true C <$> gs0 ->
  params st = saved ++ rest ->
  shard_sized (shards ss n idx pos tot) rest ->
  foreach_loop pull ss n idx pos tot st =
    Done (set_graphs st (filled true (C ++ concat rest) <$> gs0)).
Proof.
  intros Hss Htot Hpos Hsum Htb Hlen.
  revert idx pos tot st C saved rest Htot Hpos Hsum.
  induction n as [|n IH];
    intros idx pos tot st C saved rest Htot Hpos Hsum HC Hsaved Hg Hp Hsz;
    cbn [shards foreach_loop] in *.
  - apply Forall2_nil_inv_l in Hsz as ->. cbn [concat].
    rewrite !app_nil_r, <- Hg. by destruct st.
  - apply Forall2_cons_inv_l in Hsz as (P & rest' & HP & Hsz & ->). cbn in HP.
    assert (Hfit : Forall (fun g => pos + Z.of_nat (length P)
                             <= Z.of_nat (length (vals g))) (filled true C <$> gs0)).
    { apply Forall_fmap, (Forall_impl _ _ _ Hlen). intros g Hg0. cbn.
      rewrite length_app, length_drop. lia. }
    rewrite (pull_unit idx pos P (filled true C <$> gs0) st);
      [ | done | by rewrite Hp, lookup_app_r, Hsaved, Nat.sub_diag by lia
        | lia | done | done ].
    cbn [mbind outcome_bind].
    rewrite (IH (S idx) _ _ _ (C ++ P) (saved ++ [P]) rest');
      [ | lia | lia | lia | rewrite length_app; lia
        | rewrite length_app; cbn; lia | | | done ].
    + unfold set_graphs. cbn [tmpTensors_ params concat]. by rewrite <- app_assoc.
    + cbn [graphs_ set_graphs]. rewrite <- list_fmap_compose.
      apply list_fmap_ext. intros i g Hgi. cbn. apply (put_filled true); [done|].
      cbn. pose proof (Forall_lookup_1 _ _ _ _ Hlen Hgi) as Hl. cbn beta in Hl. lia.
    + cbn [params set_graphs]. by rewrite Hp, <- app_assoc.
Qed.

Lemma shardSize_bounds (total : Z) (R : nat) :
  (1 <= R)%nat -> 0 <= total <= 2 ^ 24 ->
  0 <= shardSize total (Z.of_nat R) /\
  total <= Z.of_nat R * shardSize total (Z.of_nat R) /\
  0 <= total < 2 ^ 31.
Proof.
  intros HR Ht.
  rewrite F32Facts.shardSize_exact by lia.
  pose proof (F32Facts.ceil_div_spec total (Z.of_nat R) ltac:(lia)) as Hc.
  pose proof (ceil_div_nonneg total (Z.of_nat R) ltac:(lia) ltac:(lia)).
  change (2 ^ 24) with 16777216 in Ht. change (2 ^ 31) with 2147483648. lia.
Qed.

Lemma uniform_vals (total : Z) (gs : list (Graph T)) :
  uniform total gs -> Forall (fun g => Z.of_nat (length (vals g)) = total) gs.
Proof. intros Hu. eapply Forall_impl; [exact Hu|]. by intros g [? _]. Qed.

Lemma filled_whole (C : list T) (gs : list (Graph T)) (total : Z) :
  Forall (fun g => Z.of_nat (length (vals g)) = total) gs ->
  Z.of_nat (length C) = total ->
  filled true C <$> gs = with_vals C <$> gs.
Proof.
  intros Hv HC. apply list_fmap_ext. intros i g Hg. apply (filled_all true). cbn.
  pose proof (Forall_lookup_1 _ _ _ _ Hv Hg) as Hl. cbn beta in Hl. lia.
Qed.

Lemma filled_none (gs : list (Graph T)) : filled true [] <$> gs = gs.
Proof.
  rewrite <- (list_fmap_id gs) at 2. apply list_fmap_ext. intros i g _.
  apply filled_nil.
Qed.

(** [pushParams] with the caller's tensors sized like the shards. *)
Lemma pushParams_Done (Ps : list (list T)) st (total : Z) :
  let R := length (graphs_ st) in
  let sh := shards (shardSize total (Z.of_nat R)) R 0 0 total in
  (1 <= R)%nat -> 0 <= total <= 2 ^ 24 -> uniform total (graphs_ st) ->
  shard_sized sh Ps ->
  pushParams Ps st =
    Done {| graphs_ := graphs_ st; tmpTensors_ := tmpTensors_ st;
            params := own_shard (graphs_ st) <$> sh |}.
Proof.
  intros R sh HR Ht Hu Hsz.
  destruct (shardSize_bounds total R HR Ht) as (Hss & Hcov & Htb).
  pose proof (uniform_vals _ _ Hu) as Hv.
  unfold pushParams, foreach, graphs_size. cbn [graphs_].
  rewrite (totalSize_Done _ total) by (done || cbn; fold R; lia).
  cbn [mbind outcome_bind]. fold R. fold sh.
  by rewrite (foreach_loop_push _ (graphs_ st) total R 0 0 total _ [] Ps)
    by (done || lia).
Qed.

(** [pullParams] with the caller's tensors sized like the shards. *)
Lemma pullParams_Done (Ps : list (list T)) st (total : Z) :
  let R := length (graphs_ st) in
  let sh := shards (shardSize total (Z.of_nat R)) R 0 0 total in
  (1 <= R)%nat -> 0 <= total <= 2 ^ 24 -> uniform total (graphs_ st) ->
  shard_sized sh Ps ->
  pullParams Ps st =
    Done {| graphs_ := with_vals (concat Ps) <$> graphs_ st;
            tmpTensors_ := tmpTensors_ st; params := Ps |}.
Proof.
  intros R sh HR Ht Hu Hsz.
  destruct (shardSize_bounds total R HR Ht) as (Hss & Hcov & Htb).
  pose proof (uniform_vals _ _ Hu) as Hv.
  assert (Hlen : Z.of_nat (length (concat Ps)) = total).
  { eapply shard_sized_total; [| |exact Hsz]; [done | lia]. }
  unfold pullParams, foreach, graphs_size. cbn [graphs_].
  rewrite (totalSize_Done _ total) by (done || cbn; fold R; lia).
  cbn [mbind outcome_bind]. fold R. fold sh.
  rewrite (foreach_loop_pull _ (graphs_ st) total R 0 0 total _ [] [] Ps);
    try done; try lia.
  - cbn [app]. unfold set_graphs. cbn. by rewrite (filled_whole _ _ total).
  - cbn [graphs_]. by rewrite filled_none.
Qed.

End ParamFacts.

(** ** What the collective operations leave behind *)
Section CollectiveFacts.
Context {T : Type} `{Scalar T}.
Variable uninit : T.
Implicit Types (st : State T) (g : Graph T) (l v : list T).

Lemma shard_sized_own (ss : Z) (gs : list (Graph T)) (total : Z)
    (n idx : nat) (pos tot : Z) :
  0 <= ss -> 0 <= tot -> 0 <= pos -> pos + tot = total ->
  (idx + n <= length gs)%nat ->
  Forall (fun g => Z.of_nat (length (vals g)) = total) gs ->
  shard_sized (shards ss n idx pos tot) (own_shard gs <$> shards ss n idx pos tot).
Proof.
  intros Hss Htot Hpos Hsum Hn Hlen. unfold shard_sized.
  revert idx pos tot Htot Hpos Hsum Hn.
  induction n as [|n IH]; intros idx pos tot Htot Hpos Hsum Hn;
    cbn [shards fmap list_fmap]; constructor.
  - destruct (lookup_lt_is_Some_2 gs idx ltac:(lia)) as [g Hg].
    pose proof (Forall_lookup_1 _ _ _ _ Hlen Hg) as Hl. cbn beta in Hl.
    unfold own_shard. cbn. rewrite Hg. apply length_slice; lia.
  - apply IH; lia.
Qed.

Lemma own_shard_with_vals (C : list T) (gs : list (Graph T)) (s : nat * Z * Z) :
  (s.1.1 < length gs)%nat ->
  own_shard (with_vals C <$> gs) s = slice s.1.2 s.2 C.
Proof.
  intros Hs. unfold own_shard. rewrite list_lookup_fmap.
  by destruct (lookup_lt_is_Some_2 gs _ Hs) as [g ->].
Qed.


Lemma own_shard_lookup (gs : list (Graph T)) (ss : Z) (n : nat) (tot : Z)
    (i : nat) s g :
  shards ss n 0 0 tot !! i = Some s -> gs !! i = Some g ->
  (own_shard gs <$> shards ss n 0 0 tot) !! i = Some (slice s.1.2 s.2 (vals g)).
Proof.
  intros Hs Hg. rewrite list_lookup_fmap, Hs. cbn [fmap option_fmap option_map].
  pose proof (shards_middle _ _ _ _ _ _ _ Hs) as E. cbn [Nat.add] in E.
  unfold own_shard. by rewrite E, Hg.
Qed.

(** On an even split the shards that [pushParams] collects are what
    [allGather] collects. *)
Lemma concat_own_gathered (ss : Z) (gs : list (Graph T)) (n idx : nat) (pos : Z) :
  0 <= ss ->
  concat (own_shard gs <$> shards ss n idx pos (Z.of_nat n * ss))
    = gathered true ss gs n idx pos.
Proof.
  intros Hss. revert idx pos.
  induction n as [|n IH]; intros idx pos; [done|].
  cbn [shards fmap list_fmap concat gathered].
  replace (Z.min ss (Z.of_nat (S n) * ss)) with ss by nia.
  replace (Z.of_nat (S n) * ss - ss) with (Z.of_nat n * ss) by lia.
  by rewrite IH.
Qed.

(** Copies to ranges that do not overlap can be made in either order. *)
Lemma lookup_inserts_outside (l A : list T) (a k : nat) :
  (k < a)%nat \/ (a + length A <= k)%nat ->
  list_inserts a A l !! k = l !! k.
Proof.
  intros [?|?]; [by apply list_lookup_inserts_lt | by apply list_lookup_inserts_ge].
Qed.

Lemma list_inserts_commute (a b : nat) (A B l : list T) :
  (a + length A <= b)%nat \/ (b + length B <= a)%nat ->
  list_inserts a A (list_inserts b B l) = list_inserts b B (list_inserts a A l).
Proof.
  intros Hd. apply list_eq. intros k.
  destruct (decide (k < length l)%nat) as [Hk | Hk].
  2:{ rewrite !lookup_ge_None_2; [done | rewrite !length_inserts; lia..]. }
  destruct (decide (a <= k < a + length A)%nat) as [HA | HA].
  - rewrite list_lookup_inserts by (rewrite ?length_inserts; lia).
    rewrite lookup_inserts_outside by lia.
    by rewrite list_lookup_inserts by lia.
  - rewrite (lookup_inserts_outside _ A) by lia.
    destruct (decide (b <= k < b + length B)%nat) as [HB | HB].
    + rewrite !list_lookup_inserts; rewrite ?length_inserts; done || lia.
    + rewrite !lookup_inserts_outside by lia. done.
Qed.

Lemma put_commute (pos pos' : Z) (P P' : list T) (g : Graph T) :
  0 <= pos -> 0 <= pos' ->
  pos + Z.of_nat (length P) <= pos' \/ pos' + Z.of_nat (length P') <= pos ->
  put true pos P (put true pos' P' g) = put true pos' P' (put true pos P g).
Proof.
  intros Hp Hp' Hd. unfold put, with_field, field, with_vals. cbn [vals grads].
  f_equal. apply list_inserts_commute. lia.
Qed.

(** The shards in the order of [foreach]: where each one ends the next one
    starts, or a later one. *)
Lemma shards_ordered ss n (total : Z) (i j : nat) s t :
  0 <= ss -> 0 <= total -> (i < j)%nat ->
  shards ss n 0 0 total !! i = Some s -> shards ss n 0 0 total !! j = Some t ->
  s.1.1 = i /\ t.1.1 = j /\ 0 <= s.1.2 /\ 0 <= s.2 /\ 0 <= t.2 /\
  s.1.2 + s.2 <= t.1.2 /\ t.1.2 + t.2 <= total.
Proof.
  intros Hss Ht Hij Hs Hj.
  pose proof (lookup_lt_Some _ _ _ Hs) as Hi'.
  pose proof (lookup_lt_Some _ _ _ Hj) as Hj'.
  rewrite length_shards in Hi', Hj'.
  rewrite shards_lookup in Hs, Hj by lia.
  injection Hs as <-. injection Hj as <-. cbn [fst snd]. nia.
Qed.

Lemma shards_in ss n (total : Z) s :
  0 <= ss -> 0 <= total -> s ∈ shards ss n 0 0 total ->
  exists i : nat, shards ss n 0 0 total !! i = Some s /\ s.1.1 = i /\
    0 <= s.1.2 /\ 0 <= s.2 /\ s.1.2 + s.2 <= total.
Proof.
  intros Hss Ht [i Hs]%list_elem_of_lookup_1. exists i. split; [done|].
  pose proof (lookup_lt_Some _ _ _ Hs) as Hi. rewrite length_shards in Hi.
  rewrite shards_lookup in Hs by lia. injection Hs as <-. cbn [fst snd]. lia.
Qed.

(** The calls of the lambda of [pullParams] for a list of shards, one after
    the other. *)
Lemma run_shards_pull (Ps : list (list T)) ss n (total : Z)
    (order : list (nat * Z * Z)) st :
  0 <= ss -> 0 <= total < 2 ^ 31 ->
  shard_sized (shards ss n 0 0 total) Ps ->
  Forall (fun s => s ∈ shards ss n 0 0 total) order ->
  params st = Ps ->
  Forall (fun g => Z.of_nat (length (vals g)) = total) (graphs_ st) ->
  run_shards pull order st
    = Done (set_graphs st (foldr (pulled Ps) (graphs_ st) (reverse order))).
Proof.
  intros Hss Ht Hsz. revert st.
  induction order as [|s order IH]; intros st Hin HP Hv.
  - cbn. by destruct st.
  - apply Forall_cons in Hin as [Hs Hin].
    destruct (shards_in ss n total s Hss ltac:(lia) Hs)
      as (i & Hi & Hidx & Hpos & Hlen & Hfit).
    destruct (Forall2_lookup_l _ _ _ _ _ Hsz Hi) as (P & HPi & HPl).
    cbn beta in HPl. cbn [run_shards].
    assert (Hcall : pull s.1.1 s.1.2 st
              = Done (set_graphs st (put true s.1.2 P <$> graphs_ st))).
    { apply pull_unit; [done | by rewrite HP, Hidx | lia | done | ].
      eapply Forall_impl; [exact Hv|]. intros g Hg. cbn beta in *. lia. }
    rewrite Hcall. cbn [mbind outcome_bind].
    rewrite IH; [| done | done |].
    + unfold set_graphs. cbn [graphs_ tmpTensors_ params].
      rewrite reverse_cons, foldr_app. cbn [foldr].
      replace (pulled Ps s (graphs_ st))
        with (put true s.1.2 P <$> graphs_ st); [done|].
      unfold pulled. by rewrite Hidx, HPi.
    + cbn [set_graphs graphs_]. apply Forall_fmap.
      eapply Forall_impl; [exact Hv|]. intros g Hg. cbn.
      by rewrite length_inserts.
Qed.

(** Two calls for different shards can be made in either order. *)
Lemma pulled_commute (Ps : list (list T)) ss n (total : Z) s t
    (gs : list (Graph T)) :
  0 <= ss -> 0 <= total ->
  shard_sized (shards ss n 0 0 total) Ps ->
  s ∈ shards ss n 0 0 total -> t ∈ shards ss n 0 0 total -> s <> t ->
  pulled Ps s (pulled Ps t gs) = pulled Ps t (pulled Ps s gs).
Proof.
  intros Hss Ht Hsz Hs Hin Hne.
  destruct (shards_in ss n total s Hss Ht Hs) as (i & Hi & Hidx & _).
  destruct (shards_in ss n total t Hss Ht Hin) as (j & Hj & Hjdx & _).
  destruct (Forall2_lookup_l _ _ _ _ _ Hsz Hi) as (P & HPi & HPl).
  destruct (Forall2_lookup_l _ _ _ _ _ Hsz Hj) as (P' & HPj & HPl').
  cbn beta in HPl, HPl'.
  unfold pulled. rewrite Hidx, Hjdx, HPi, HPj. cbn [default].
  rewrite <- !list_fmap_compose. apply list_fmap_ext. intros k g _. cbn.
  destruct (Nat.lt_total i j) as [Hij | [-> | Hji]].
  - destruct (shards_ordered ss n total i j s t Hss Ht Hij Hi Hj)
      as (_ & _ & ? & ? & ? & ? & _).
    apply put_commute; lia.
  - rewrite Hi in Hj. by injection Hj.
  - destruct (shards_ordered ss n total j i t s Hss Ht Hji Hj Hi)
      as (_ & _ & ? & ? & ? & ? & _).
    apply put_commute; lia.
Qed.

Lemma NoDup_shards ss n (total : Z) :
  0 <= ss -> 0 <= total -> NoDup (shards ss n 0 0 total).
Proof.
  intros Hss Ht. apply NoDup_alt. intros i j s Hi Hj.
  destruct (shards_in ss n total s Hss Ht (list_elem_of_lookup_2 _ _ _ Hi))
    as (i' & _ & Hidx & _).
  pose proof (shards_middle _ _ _ _ _ _ _ Hi) as E1.
  pose proof (shards_middle _ _ _ _ _ _ _ Hj) as E2.
  cbn [Nat.add] in E1, E2. lia.
Qed.

(** X1.  The threads that [foreach] starts for [pullParams] can be
    scheduled in any order: the calls of the lambda for the shards, made
    one after the other in whatever order, leave the state that
    [pullParams] is modelled to leave, every replica holding the
    concatenation of the caller's tensors. *)
Theorem pullParams_any_order (Ps : list (list T)) st (total : Z)
    (order : list (nat * Z * Z)) :
  let R := length (graphs_ st) in
  let sh := shards (shardSize total (Z.of_nat R)) R 0 0 total in
  let st0 := {| graphs_ := graphs_ st; tmpTensors_ := tmpTensors_ st;
                params := Ps |} in
  (1 <= R)%nat -> 0 <= total <= 2 ^ 24 -> uniform total (graphs_ st) ->
  shard_sized sh Ps -> order ≡ₚ sh ->
  run_shards pull order st0 = pullParams Ps st /\
  pullParams Ps st =
    Done {| graphs_ := with_vals (concat Ps) <$> graphs_ st;
            tmpTensors_ := tmpTensors_ st; params := Ps |}.
Proof.
  intros R sh st0 HR Ht Hu Hsz Hperm.
  destruct (shardSize_bounds total R HR Ht) as (Hss & Hcov & Htb).
  pose proof (uniform_vals _ _ Hu) as Hv.
  pose proof (pullParams_Done Ps st total HR Ht Hu Hsz) as Hdone.
  split; [|exact Hdone].
  assert (Hrun : forall calls : list (nat * Z * Z), calls ≡ₚ sh ->
    run_shards pull calls st0
      = Done (set_graphs st0 (foldr (pulled Ps) (graphs_ st) (reverse calls)))).
  { intros calls Hl.
    apply (run_shards_pull Ps (shardSize total (Z.of_nat R)) R total calls st0);
      try done.
    apply Forall_forall. intros s Hs. change (s ∈ sh). by rewrite <- Hl. }
  rewrite (Hrun order Hperm).
  assert (Hsame : foldr (pulled Ps) (graphs_ st) (reverse order)
                  = foldr (pulled Ps) (graphs_ st) (reverse sh)).
  { apply (foldr_permutation eq (pulled Ps) (graphs_ st)).
    - intros j1 s j2 t gs Hne Hs Hj.
      assert (Hnd : NoDup (reverse order)).
      { rewrite reverse_Permutation, Hperm. apply NoDup_shards; lia. }
      apply (pulled_commute Ps (shardSize total (Z.of_nat R)) R total);
        try done; try lia.
      + change (s ∈ sh). rewrite <- Hperm, <- (reverse_Permutation order).
        by eapply list_elem_of_lookup_2.
      + change (t ∈ sh). rewrite <- Hperm, <- (reverse_Permutation order).
        by eapply list_elem_of_lookup_2.
      + intros ->. apply Hne. by eapply NoDup_lookup.
    - by rewrite !reverse_Permutation. }
  rewrite Hsame, <- (Hrun sh) by done.
  rewrite Hdone. unfold pullParams, foreach, graphs_size in Hdone.
  cbn [graphs_] in Hdone.
  rewrite (totalSize_Done _ total) in Hdone by (done || cbn; fold R; lia).
  cbn [mbind outcome_bind] in Hdone. fold R in Hdone.
  rewrite foreach_loop_shards in Hdone. exact Hdone.
Qed.

(** X2.  [pushParams] leaves the replicas as they are and puts shard [i] of
    the parameter values of replica [i] into [params[i]]. *)
Theorem pushParams_spec (Ps : list (list T)) st (total : Z) :
  let R := length (graphs_ st) in
  let sh := shards (shardSize total (Z.of_nat R)) R 0 0 total in
  (1 <= R)%nat -> 0 <= total <= 2 ^ 24 -> uniform total (graphs_ st) ->
  shard_sized sh Ps ->
  exists Ps',
    pushParams Ps st =
      Done {| graphs_ := graphs_ st; tmpTensors_ := tmpTensors_ st;
              params := Ps' |} /\
    length Ps' = R /\
    forall (i : nat) s g, sh !! i = Some s -> graphs_ st !! i = Some g ->
      Ps' !! i = Some (slice s.1.2 s.2 (vals g)).
Proof.
  intros R sh HR Ht Hu Hsz. exists (own_shard (graphs_ st) <$> sh).
  split; [by apply (pushParams_Done Ps st total)|]. split.
  - rewrite length_fmap. apply length_shards.
  - intros i s g. apply own_shard_lookup.
Qed.

(** X3.  [pullParams] puts [params[i]] into the shard [i] range of every
    replica, so that all replicas end with the same parameter values, leaves
    [params] as it is, and changes nothing when it is called again. *)
Theorem pullParams_spec (Ps : list (list T)) st (total : Z) :
  let R := length (graphs_ st) in
  let sh := shards (shardSize total (Z.of_nat R)) R 0 0 total in
  let st1 := {| graphs_ := with_vals (concat Ps) <$> graphs_ st;
                tmpTensors_ := tmpTensors_ st; params := Ps |} in
  (1 <= R)%nat -> 0 <= total <= 2 ^ 24 -> uniform total (graphs_ st) ->
  shard_sized sh Ps ->
  pullParams Ps st = Done st1 /\
  pullParams Ps st1 = Done st1 /\
  Z.of_nat (length (concat Ps)) = total /\
  forall (i : nat) s P, sh !! i = Some s -> Ps !! i = Some P ->
    slice s.1.2 s.2 (concat Ps) = P.
Proof.
  intros R sh st1 HR Ht Hu Hsz.
  destruct (shardSize_bounds total R HR Ht) as (Hss & Hcov & Htb).
  assert (Hlen : Z.of_nat (length (concat Ps)) = total).
  { eapply shard_sized_total; [| |exact Hsz]; [done | lia]. }
  split; [by apply (pullParams_Done Ps st total)|]. split; [|split; [done|]].
  - assert (HR1 : length (graphs_ st1) = R) by (cbn; by rewrite length_fmap).
    assert (Hu1 : uniform total (graphs_ st1)).
    { cbn. apply Forall_fmap. eapply Forall_impl; [exact Hu|].
      intros g [? ?]. cbn. split; lia. }
    pose proof (pullParams_Done Ps st1 total) as E. cbn zeta in E.
    rewrite HR1 in E. rewrite E by done. unfold st1. cbn. f_equal. f_equal.
    rewrite <- list_fmap_compose. by apply list_fmap_ext.
  - intros i s P. by apply (shard_sized_slice _ _ _ _ _ _ []).
Qed.

Lemma uniform_with_vals (total : Z) (C : list T) (gs : list (Graph T)) :
  uniform total gs -> Z.of_nat (length C) = total ->
  uniform total (with_vals C <$> gs).
Proof.
  intros Hu HC. apply Forall_fmap. eapply Forall_impl; [exact Hu|].
  intros g [? ?]. cbn. split; lia.
Qed.


(** The shards of the concatenation of tensors sized like the shards are
    the tensors. *)
Lemma shard_slices_concat (ss : Z) (n : nat) (tot : Z) (Ps : list (list T)) :
  shard_sized (shards ss n 0 0 tot) Ps ->
  (fun s => slice s.1.2 s.2 (concat Ps)) <$> shards ss n 0 0 tot = Ps.
Proof.
  intros Hsz. apply list_eq. intros i. rewrite list_lookup_fmap.
  pose proof (Forall2_length _ _ _ Hsz) as Hl.
  destruct (shards ss n 0 0 tot !! i) as [s|] eqn:Hs; cbn.
  - destruct (lookup_lt_is_Some_2 Ps i) as [P HP].
    { rewrite <- Hl. by eapply lookup_lt_Some. }
    rewrite HP. f_equal.
    by apply (shard_sized_slice ss n 0 0 tot Ps [] i s P).
  - symmetry. apply lookup_ge_None. rewrite <- Hl. by apply lookup_ge_None.
Qed.

(** X4.  For at least one replica, every replica holding [total <= 2^24]
    parameter values and as many gradients, and [params[i]] sized like shard
    [i]: [pushParams] followed by [pullParams] gives every replica, in every
    shard range [i], the parameter values that replica [i] had there; where
    the replica count divides the vector this is the state [allGather(true)]
    leaves. *)
Theorem push_then_pull (Ps : list (list T)) st (total : Z) :
  let R := length (graphs_ st) in
  let sh := shards (shardSize total (Z.of_nat R)) R 0 0 total in
  (1 <= R)%nat -> 0 <= total <= 2 ^ 24 -> uniform total (graphs_ st) ->
  shard_sized sh Ps ->
  exists (C : list T) (Ps' : list (list T)),
    (st1 ← pushParams Ps st; pullParams (params st1) st1)
      = Done {| graphs_ := with_vals C <$> graphs_ st;
                tmpTensors_ := tmpTensors_ st; params := Ps' |} /\
    Z.of_nat (length C) = total /\
    (forall (i : nat) s g, sh !! i = Some s -> graphs_ st !! i = Some g ->
       slice s.1.2 s.2 C = slice s.1.2 s.2 (vals g)) /\
    ((Z.of_nat R | total) ->
     allGather true st = Done (set_graphs st (with_vals C <$> graphs_ st))).
Proof.
  intros R sh HR Ht Hu Hsz.
  destruct (shardSize_bounds total R HR Ht) as (Hss & Hcov & Htb).
  pose proof (uniform_vals _ _ Hu) as Hv.
  set (O := own_shard (graphs_ st) <$> sh).
  assert (HO : shard_sized sh O).
  { apply (shard_sized_own _ _ total); try done; lia. }
  assert (Hlen : Z.of_nat (length (concat O)) = total).
  { eapply shard_sized_total; [| |exact HO]; [done | lia]. }
  exists (concat O), O. split; [|split; [done|split]].
  - rewrite (pushParams_Done Ps st total) by done. cbn [mbind outcome_bind params].
    by rewrite (pullParams_Done O _ total).
  - intros i s g Hs Hg.
    apply (shard_sized_slice (shardSize total (Z.of_nat R)) R 0 0 total O [] i s
             (slice s.1.2 s.2 (vals g))); try done.
    by apply own_shard_lookup.
  - intros Hdiv.
    destruct (divisible_shardSize total R Ht HR Hdiv) as [_ Htot].
    destruct (allGather_even true st total HR Ht Hu Hdiv) as (E & _).
    rewrite E. do 3 f_equal. unfold O, sh. fold R.
    set (ss := shardSize total (Z.of_nat R)) in *.
    rewrite <- (concat_own_gathered ss (graphs_ st) R 0 0 Hss).
    by rewrite <- Htot.
Qed.

(** X5.  For at least one replica, every replica holding [total <= 2^24]
    parameter values and as many gradients, and [params[i]] sized like shard
    [i]: after [pullParams], [pushParams] reads back what was pulled: the
    state, [params] included, stays as it is. *)
Theorem pull_then_push (Ps : list (list T)) st (total : Z) :
  let R := length (graphs_ st) in
  let sh := shards (shardSize total (Z.of_nat R)) R 0 0 total in
  (1 <= R)%nat -> 0 <= total <= 2 ^ 24 -> uniform total (graphs_ st) ->
  shard_sized sh Ps ->
  exists st1,
    pullParams Ps st = Done st1 /\ params st1 = Ps /\
    pushParams (params st1) st1 = Done st1.
Proof.
  intros R sh HR Ht Hu Hsz.
  destruct (shardSize_bounds total R HR Ht) as (Hss & Hcov & Htb).
  assert (Hlen : Z.of_nat (length (concat Ps)) = total).
  { eapply shard_sized_total; [| |exact Hsz]; [done | lia]. }
  eexists. split; [by apply (pullParams_Done Ps st total)|]. split; [done|].
  cbn [params].
  set (st1 := {| graphs_ := with_vals (concat Ps) <$> graphs_ st;
                 tmpTensors_ := tmpTensors_ st; params := Ps |}).
  assert (HR1 : length (graphs_ st1) = R) by (cbn; by rewrite length_fmap).
  pose proof (pushParams_Done Ps st1 total) as E. cbn zeta in E.
  rewrite HR1 in E. rewrite E; [| done | done | by apply uniform_with_vals | done].
  unfold st1. cbn [graphs_ tmpTensors_]. do 2 f_equal.
  rewrite <- (shard_slices_concat _ _ _ _ Hsz) at 2.
  apply list_fmap_ext. intros i s Hs. apply own_shard_with_vals.
  rewrite (shards_middle _ _ _ _ _ _ _ Hs). cbn.
  apply lookup_lt_Some in Hs. by rewrite length_shards in Hs.
Qed.


Lemma init_loop_shards (ss : Z) (n idx : nat) (pos tot : Z)
    (tmp : list (list T)) :
  init_loop uninit ss n pos tot tmp
    = tmp ++ ((fun s => replicate (Z.to_nat s.2) uninit)
                <$> shards ss n idx pos tot).
Proof.
  revert idx pos tot tmp.
  induction n as [|n IH]; intros idx pos tot tmp;
    cbn [init_loop shards fmap list_fmap].
  - by rewrite app_nil_r.
  - rewrite (IH (S idx)). by rewrite <- app_assoc.
Qed.

Lemma shard_sized_replicate (ss : Z) (n idx : nat) (pos tot : Z) :
  0 <= ss -> 0 <= tot ->
  shard_sized (shards ss n idx pos tot)
    ((fun s => replicate (Z.to_nat s.2) uninit) <$> shards ss n idx pos tot).
Proof.
  intros Hss. unfold shard_sized. revert idx pos tot.
  induction n as [|n IH]; intros idx pos tot Htot;
    cbn [shards fmap list_fmap]; constructor.
  - cbn. rewrite length_replicate. lia.
  - apply IH. lia.
Qed.

(** X7.  For at least one replica, every replica holding [total <= 2^24]
    parameter values and as many gradients, and [tmpTensors_] still empty:
    the first [init] allocates one scratch tensor for every replica, of
    the size of its shard, so of [total] elements in all and of no more than
    [shardSize] each; a second [init] allocates nothing. *)
Theorem init_allocates st (total : Z) :
  let R := length (graphs_ st) in
  let ss := shardSize total (Z.of_nat R) in
  let sh := shards ss R 0 0 total in
  let st1 := {| graphs_ := graphs_ st;
                tmpTensors_ := (fun s => replicate (Z.to_nat s.2) uninit) <$> sh;
                params := params st |} in
  (1 <= R)%nat -> 0 <= total <= 2 ^ 24 -> uniform total (graphs_ st) ->
  tmpTensors_ st = [] ->
  init uninit st = Done st1 /\
  init uninit st1 = Done st1 /\
  length (tmpTensors_ st1) = R /\
  Z.of_nat (length (concat (tmpTensors_ st1))) = total /\
  Forall (fun t => Z.of_nat (length t) <= ss) (tmpTensors_ st1).
Proof.
  intros R ss sh st1 HR Ht Hu Hnil.
  destruct (shardSize_bounds total R HR Ht) as (Hss & Hcov & Htb).
  fold ss in Hss, Hcov.
  assert (Hl1 : length (tmpTensors_ st1) = R).
  { cbn. rewrite length_fmap. apply length_shards. }
  split; [|split; [|split; [done|split]]].
  - unfold init. rewrite Hnil. cbn [length Nat.eqb].
    rewrite (totalSize_Done _ total) by (done || by apply uniform_vals).
    cbn [mbind outcome_bind]. unfold graphs_size. fold R. fold ss.
    by rewrite (init_loop_shards ss R 0 0 total []).
  - unfold init. destruct (tmpTensors_ st1) eqn:E; [cbn in Hl1; lia | done].
  - apply (shard_sized_total ss R 0 0); [done | lia |].
    apply shard_sized_replicate; lia.
  - cbn. apply Forall_fmap, Forall_forall.
    intros s [i Hs]%list_elem_of_lookup.
    assert (Hi : (i < R)%nat).
    { apply lookup_lt_Some in Hs. unfold sh in Hs. by rewrite length_shards in Hs. }
    unfold sh in Hs. rewrite shards_lookup in Hs by lia. injection Hs as <-.
    cbn. rewrite length_replicate. lia.
Qed.

(** X8.  A communicator without replicas.  [allReduceGrads] and [reduceGrads]
    do nothing and [swapParams] stops in [ABORT_IF]; the other operations
    look at [graphs_[0]], which does not exist. *)
Theorem no_replicas st (Ps : list (list T)) (b : bool) (root : Z) :
  graphs_ st = [] ->
  allReduceGrads uninit st = Done st /\
  reduceGrads uninit root st = Done st /\
  swapParams Ps st = Abort "Swap requires at least two graphs" /\
  scatterReduce uninit st = OutOfBounds /\
  allGather b st = OutOfBounds /\
  pushParams Ps st = OutOfBounds /\
  pullParams Ps st = OutOfBounds.
Proof.
  intros Hg.
  assert (Htot : totalSize st = OutOfBounds) by (unfold totalSize; by rewrite Hg).
  repeat split.
  - unfold allReduceGrads, graphs_size. by rewrite Hg.
  - unfold reduceGrads, allReduceGrads, graphs_size. by rewrite Hg.
  - unfold swapParams, graphs_size. by rewrite Hg.
  - unfold scatterReduce, init. destruct (Nat.eqb _ _); [by rewrite Htot|].
    cbn. by rewrite Htot.
  - unfold allGather. by rewrite Htot.
  - unfold pushParams, foreach, totalSize. cbn. by rewrite Hg.
  - unfold pullParams, foreach, totalSize. cbn. by rewrite Hg.
Qed.

(** X9.  [allGather] when the replica count divides the vector.  The call
    finishes; element [k] of every replica becomes element [k] of the
    replica whose shard [k] lies in; the other buffer of each replica stays
    as it is; a second call changes nothing. *)
Theorem allGather_broadcast (b : bool) st (total : Z) :
  let R := length (graphs_ st) in
  let ss := shardSize total (Z.of_nat R) in
  (1 <= R)%nat -> 0 <= total <= 2 ^ 24 -> uniform total (graphs_ st) ->
  (Z.of_nat R | total) ->
  exists st1,
    allGather b st = Done st1 /\ allGather b st1 = Done st1 /\
    tmpTensors_ st1 = tmpTensors_ st /\ params st1 = params st /\
    length (graphs_ st1) = R /\
    forall (i : nat) gi', graphs_ st1 !! i = Some gi' ->
      (field (negb b) <$> graphs_ st !! i) = Some (field (negb b) gi') /\
      Z.of_nat (length (field b gi')) = total /\
      forall (j k : nat) gj, graphs_ st !! j = Some gj ->
        Z.of_nat j * ss <= Z.of_nat k < Z.of_nat j * ss + ss ->
        field b gi' !! k = field b gj !! k.
Proof.
  intros R ss HR Ht Hu Hdiv.
  destruct (allGather_even b st total HR Ht Hu Hdiv) as (E1 & E2 & HlG & Hsl).
  fold R in E1, E2, HlG, Hsl. fold ss in E1, E2, HlG, Hsl.
  set (G := gathered b ss (graphs_ st) R 0 0) in *.
  destruct (divisible_shardSize total R Ht HR Hdiv) as [Hss Htot].
  fold ss in Hss, Htot.
  eexists. split; [exact E1|]. split; [exact E2|].
  split; [done|]. split; [done|].
  split; [cbn; by rewrite length_fmap|].
  intros i gi' Hgi'. cbn in Hgi'. rewrite list_lookup_fmap in Hgi'.
  destruct (graphs_ st !! i) as [gi|] eqn:Hgi; [|done].
  injection Hgi' as <-. split; [by destruct b|].
  rewrite field_with_field. split; [done|].
  intros j k gj Hgj Hk.
  pose proof (lookup_lt_Some _ _ _ Hgj) as Hj. fold R in Hj.
  pose proof (Forall_lookup_1 _ _ _ _ Hu Hgj) as [Hvj Hgrj].
  pose proof (Hsl j gj Hgj) as Hs.
  assert (Ek : k = (Z.to_nat (Z.of_nat j * ss)
                    + (k - Z.to_nat (Z.of_nat j * ss)))%nat) by lia.
  rewrite Ek.
  rewrite <- !(lookup_slice (Z.of_nat j * ss) ss) by lia.
  by rewrite Hs.
Qed.
End CollectiveFacts.

Section ExactCollectives.
Context {T : Type} `{Scalar T} `{!ExactArithmetic T}.
Variable uninit : T.

(** X10.  [scatterReduce] when the replica count divides the vector, in exact
    arithmetic.  The call finishes; in replica [i] every gradient of shard
    [i] becomes the sum of that gradient over all replicas, and every other
    gradient, and every parameter value, stays as it is. *)
Theorem scatterReduce_sums (st : State T) (total : Z) :
  let R := length (graphs_ st) in
  let ss := shardSize total (Z.of_nat R) in
  (1 <= R)%nat -> 0 <= total <= 2 ^ 24 -> uniform total (graphs_ st) ->
  (Z.of_nat R | total) -> tmp_ready ss R (tmpTensors_ st) ->
  exists st',
    scatterReduce uninit st = Done st' /\
    params st' = params st /\
    forall (i : nat) gi, graphs_ st !! i = Some gi ->
      exists gi', graphs_ st' !! i = Some gi' /\ vals gi' = vals gi /\
        (forall k : nat, Z.of_nat i * ss <= Z.of_nat k < Z.of_nat i * ss + ss ->
           grads gi' !! k = Some (grad_sum (graphs_ st) k)) /\
        (forall k : nat,
           ~ (Z.of_nat i * ss <= Z.of_nat k < Z.of_nat i * ss + ss) ->
           grads gi' !! k = grads gi !! k).
Proof.
  intros R ss HR Ht Hu Hdiv Htmp.
  destruct (scatterReduce_even uninit st total HR Ht Hu Hdiv Htmp)
    as (st' & E & G & P & _).
  fold R in G. fold ss in G.
  destruct (divisible_shardSize total R Ht HR Hdiv) as [Hss Htot].
  fold ss in Hss, Htot.
  assert (Hgr : Forall (fun g => Z.of_nat (length (grads g)) = total) (graphs_ st)).
  { eapply Forall_impl; [exact Hu|]. by intros g [_ ?]. }
  exists st'. split; [done|]. split; [done|].
  intros i gi Hgi. exists (scattered ss (graphs_ st) i gi).
  split; [by rewrite G, list_lookup_imap, Hgi|].
  destruct (scattered_spec ss total (graphs_ st) i gi Hss Htot Hgr Hgi)
    as (Hv & Hl & Hs & Ho).
  split; [done|]. split; [|done].
  intros k Hk.
  assert (Ek : k = (Z.to_nat (Z.of_nat i * ss)
                    + (k - Z.to_nat (Z.of_nat i * ss)))%nat) by lia.
  rewrite Ek at 1.
  rewrite <- (lookup_slice (Z.of_nat i * ss) ss) by lia.
  rewrite Hs.
  rewrite (reduced_sum ss total _ _ gi); try done; [|lia].
  by rewrite <- Ek.
Qed.
End ExactCollectives.

(** Two replicas of two values: the call for shard 1 before the call for
    shard 0. *)
Lemma pullParams_any_order_witness :
  run_shards pull [(1%nat, 1, 1); (0%nat, 0, 1)]
    {| graphs_ := graphs_ two_replicas; tmpTensors_ := tmpTensors_ two_replicas;
       params := [[10]; [20]] |}
  = pullParams [[10]; [20]] two_replicas.
Proof.
  apply (pullParams_any_order [[10]; [20]] two_replicas 2
           [(1%nat, 1, 1); (0%nat, 0, 1)]).
  - cbn. lia.
  - lia.
  - repeat constructor.
  - repeat constructor.
  - vm_compute. apply perm_swap.
Defined.

Lemma pushParams_spec_witness :
  exists Ps',
    pushParams [[0]; [0]] two_replicas
      = Done {| graphs_ := graphs_ two_replicas; tmpTensors_ := [];
                params := Ps' |} /\
    Ps' !! 1%nat = Some [4].
Proof.
  destruct (pushParams_spec [[0]; [0]] two_replicas 2) as (Ps' & E & _ & Hl).
  - cbn. lia.
  - lia.
  - repeat constructor.
  - vm_compute. repeat constructor.
  - exists Ps'. split; [exact E|].
    apply (Hl 1%nat (1%nat, 1, 1) {| vals := [3; 4]; grads := [0; 0] |});
      reflexivity.
Defined.

Lemma pullParams_spec_witness :
  pullParams [[10]; [20]] two_replicas
    = Done {| graphs_ := [ {| vals := [10; 20]; grads := [0; 0] |};
                           {| vals := [10; 20]; grads := [0; 0] |} ];
              tmpTensors_ := []; params := [[10]; [20]] |}.
Proof.
  apply (pullParams_spec [[10]; [20]] two_replicas 2).
  - cbn. lia.
  - lia.
  - repeat constructor.
  - vm_compute. repeat constructor.
Defined.

Lemma push_then_pull_witness :
  exists C Ps',
    (st1 ← pushParams [[0]; [0]] two_replicas; pullParams (params st1) st1)
      = Done {| graphs_ := with_vals C <$> graphs_ two_replicas;
                tmpTensors_ := []; params := Ps' |} /\
    slice 1 1 C = [4].
Proof.
  destruct (push_then_pull [[0]; [0]] two_replicas 2) as (C & Ps' & E & _ & Hs & _).
  - cbn. lia.
  - lia.
  - repeat constructor.
  - vm_compute. repeat constructor.
  - exists C, Ps'. split; [exact E|].
    apply (Hs 1%nat (1%nat, 1, 1) {| vals := [3; 4]; grads := [0; 0] |});
      reflexivity.
Defined.

Lemma pull_then_push_witness :
  exists st1,
    pullParams [[10]; [20]] two_replicas = Done st1 /\
    params st1 = [[10]; [20]] /\
    pushParams (params st1) st1 = Done st1.
Proof.
  apply (pull_then_push [[10]; [20]] two_replicas 2).
  - cbn. lia.
  - lia.
  - repeat constructor.
  - vm_compute. repeat constructor.
Defined.


Lemma init_allocates_witness :
  init 0 uneven_replicas
    = Done {| graphs_ := graphs_ uneven_replicas;
              tmpTensors_ := [[0; 0]; [0]]; params := [] |}.
Proof.
  apply (init_allocates 0 uneven_replicas 3).
  - cbn. lia.
  - lia.
  - repeat constructor.
  - reflexivity.
Defined.

Lemma no_replicas_witness :
  allReduceGrads 0 {| graphs_ := []; tmpTensors_ := []; params := [] |}
    = Done {| graphs_ := []; tmpTensors_ := []; params := [] |} /\
  allGather true {| graphs_ := @nil (Graph Z); tmpTensors_ := []; params := [] |}
    = OutOfBounds.
Proof.
  destruct (no_replicas 0 {| graphs_ := []; tmpTensors_ := []; params := [] |}
              [] true 0 eq_refl) as (E1 & _ & _ & _ & E2 & _).
  split; [exact E1 | exact E2].
Defined.

Lemma allGather_broadcast_witness :
  exists st1,
    allGather true two_replicas = Done st1 /\ allGather true st1 = Done st1.
Proof.
  destruct (allGather_broadcast true two_replicas 2) as (st1 & E1 & E2 & _).
  - cbn. lia.
  - lia.
  - repeat constructor.
  - exists 1. reflexivity.
  - exists st1. split; [exact E1 | exact E2].
Defined.

Lemma scatterReduce_sums_witness :
  exists st', scatterReduce false bool_replicas = Done st' /\
    params st' = params bool_replicas.
Proof.
  destruct (scatterReduce_sums false bool_replicas 2) as (st' & E & P & _).
  - cbn. lia.
  - lia.
  - repeat constructor.
  - exists 1. reflexivity.
  - by left.
  - exists st'. split; [exact E | exact P].
Defined.

Lemma allReduceGrads_sums_witness :
  exists st' G, allReduceGrads false bool_replicas = Done st' /\
    graphs_ st' = with_grads G <$> graphs_ bool_replicas /\
    G !! 0%nat = Some (grad_sum (graphs_ bool_replicas) 0).
Proof.
  destruct (allReduceGrads_sums false bool_replicas 2) as (st' & G & E & Hg & _ & Hk).
  - cbn. lia.
  - lia.
  - repeat constructor.
  - exists 1. reflexivity.
  - by left.
  - exists st', G. split; [exact E|]. split; [exact Hg|]. apply Hk. lia.
Defined.

Lemma uneven_out_of_bounds_witness :
  scatterReduce 0 uneven_replicas = OutOfBounds /\
  allGather true uneven_replicas = OutOfBounds.
Proof.
  destruct (uneven_out_of_bounds 0 3 2 uneven_replicas) as (E1 & E2 & _).
  - split; [repeat constructor | reflexivity].
  - lia.
  - lia.
  - intros [x Hx]. cbn in Hx. lia.
  - split; [exact E1 | exact (E2 true)].
Defined.

(** ** [TMatrix]: construction, copies and capacity *)
Module TMatrixOps.
Import TMatrix.
Section Facts.
Context {T : Type} `{Scalar T} {device : Allocator}.
Implicit Types m : TMatrix T.

Lemma make_sound (rows cols : Z) :
  if allocates (to_size_t (cols * rows))
  then exists m', make (T:=T) rows cols = Done m' /\ sound m' /\
                  Rows m' = rows /\ Cols m' = cols /\
                  data_ m' = Some (replicate (Z.to_nat (to_size_t (cols * rows)))
                                             zero)
  else make (T:=T) rows cols = alloc_failure.
Proof.
  unfold make, VecType. destruct (allocates _); [|done].
  eexists. split; [reflexivity|]. split; [|done].
  pose proof (TMatrixFacts.to_size_t_range (cols * rows)) as [? _].
  unfold sound, size. cbn [rows_ cols_ arrSize_ data_].
  rewrite length_replicate. lia.
Qed.

Lemma Resize_sound m (rows cols : Z) :
  sound m ->
  (exists m', Resize rows cols m = Done m' /\ sound m') \/
  (Resize rows cols m = alloc_failure /\
   allocates (to_size_t (rows * cols)) = false).
Proof.
  intros Hs. pose proof (TMatrixFacts.size_nonneg m) as H0.
  pose proof (TMatrixFacts.to_size_t_range (rows * cols)) as [Hn _].
  assert (Hsz : forall a (d : option (list T)),
            size {| rows_ := rows; cols_ := cols;
                    arrSize_ := a; data_ := d |} = to_size_t (rows * cols)).
  { intros. unfold size. cbn. apply TMatrixFacts.to_size_t_comm. }
  unfold sound in Hs. destruct (data_ m) as [d|] eqn:Hd.
  - destruct (Z.lt_ge_cases (arrSize_ m) (to_size_t (rows * cols)))
      as [Hgrow | Hkeep].
    + destruct (allocates (to_size_t (rows * cols))) eqn:E.
      * left. rewrite (TMatrixFacts.Resize_grows m d) by done.
        eexists. split; [reflexivity|]. unfold sound. rewrite Hsz.
        cbn [arrSize_ data_].
        rewrite length_app, length_take, length_replicate. lia.
      * right. split; [|done].
        apply TMatrixFacts.Resize_refused; [by rewrite Hd | done].
    + left. rewrite (TMatrixFacts.Resize_within m d) by done.
      eexists. split; [reflexivity|]. unfold sound, Reshape. rewrite Hsz.
      cbn [arrSize_ data_]. rewrite Hd. lia.
  - destruct (allocates (to_size_t (rows * cols))) eqn:E.
    + left. rewrite TMatrixFacts.Resize_null by done.
      eexists. split; [reflexivity|]. unfold sound. rewrite Hsz.
      cbn [arrSize_ data_]. rewrite length_replicate. lia.
    + right. split; [|done].
      apply TMatrixFacts.Resize_refused; [by rewrite Hd | done].
Qed.

(** X13.  Every matrix made by the constructors, [Resize], the copy and move
    constructors, [swap] and [Clear] holds no more elements than its
    recorded capacity, and no more capacity than its buffer.  On such a
    matrix [Resize] never leaves a buffer: it finishes, always so when the
    device has room for [rows * cols] elements, or it throws because the
    device refuses the new buffer.  The constructor [TMatrix(rows, cols)]
    finishes exactly when the device has room. *)
Theorem sound_kept :
  sound (empty (T:=T)) /\
  (forall rows cols,
     if allocates (to_size_t (cols * rows))
     then exists m', make (T:=T) rows cols = Done m' /\ sound m'
     else make (T:=T) rows cols = alloc_failure) /\
  forall m, sound m ->
    (forall rows cols,
       (exists m', Resize rows cols m = Done m' /\ sound m') \/
       (Resize rows cols m = alloc_failure /\
        allocates (to_size_t (rows * cols)) = false)) /\
    (forall m', copy_of m = Done m' -> sound m') /\
    sound (Clear m) /\
    sound (move m).1 /\ sound (move m).2 /\
    forall other, sound other ->
      sound (swap m other).1 /\ sound (swap m other).2.
Proof.
  split; [done|]. split.
  { intros rows cols. pose proof (make_sound rows cols) as Hm.
    destruct (allocates _); [|done].
    destruct Hm as (m' & E & Hs & _). by exists m'. }
  intros m Hs. split; [intros; by apply Resize_sound|]. split.
  { intros m'. unfold copy_of, VecType_copy, sound in *.
    destruct (data_ m) as [d|] eqn:Hd; [|done].
    destruct (allocates _); [|done]. intros [= <-].
    unfold size in *. cbn [rows_ cols_ arrSize_ data_]. lia. }
  split; [done|]. split; [done|]. split; [done|]. done.
Qed.


(** X16.  The copy constructor makes a new vector from [*m.data_]: it is
    undefined on a matrix without a buffer and throws when the device
    refuses the vector.  Otherwise the copy has the counts and the elements
    of the buffer, but records the element count as its capacity.  A
    [Resize] of the copy beyond the element count therefore needs a new
    buffer, whatever the capacity of the original: it throws when the
    device refuses it, and otherwise carries over the first [size()]
    elements only. *)
Theorem copy_then_grow m :
  (data_ m = None -> copy_of m = OutOfBounds) /\
  forall (d : list T) (rows cols : Z),
    sound m -> data_ m = Some d -> size m < to_size_t (rows * cols) ->
    (allocates (Z.of_nat (length d)) = false -> copy_of m = alloc_failure) /\
    (allocates (Z.of_nat (length d)) = true ->
     exists m',
       copy_of m = Done m' /\
       Rows m' = Rows m /\ Cols m' = Cols m /\ data_ m' = Some d /\
       arrSize_ m' = size m /\
       (allocates (to_size_t (rows * cols)) = false ->
        Resize rows cols m' = alloc_failure) /\
       (allocates (to_size_t (rows * cols)) = true ->
        Resize rows cols m' =
          Done {| rows_ := rows; cols_ := cols;
                  arrSize_ := to_size_t (rows * cols);
                  data_ := Some (take (Z.to_nat (size m)) d ++
                                 replicate
                                   (Z.to_nat (to_size_t (rows * cols) - size m))
                                   zero) |})).
Proof.
  split; [intros Hd; unfold copy_of; by rewrite Hd|].
  intros d rows cols Hs Hd Hgrow. unfold sound in Hs. rewrite Hd in Hs.
  unfold copy_of, VecType_copy. rewrite Hd.
  split; [by intros ->|]. intros ->. cbn [mbind outcome_bind].
  set (m' := {| rows_ := rows_ m; cols_ := cols_ m;
                arrSize_ := to_size_t (cols_ m * rows_ m); data_ := Some d |}).
  assert (Hsz : size m' = size m) by done.
  exists m'. split; [done|].
  split; [done|]. split; [done|]. split; [done|]. split; [done|]. split.
  - intros E. apply TMatrixFacts.Resize_refused; [|done].
    cbn [m' data_ arrSize_]. fold (size m). lia.
  - intros E. rewrite (TMatrixFacts.Resize_grows m' d); try done.
    rewrite Hsz. cbn [m' arrSize_]. fold (size m). lia.
Qed.

End Facts.

(** A 1x2 matrix resized to 2x3 on a device with room for six elements, and
    on one with room for four. *)
Lemma sound_kept_witness :
  let m := {| rows_ := 1; cols_ := 2; arrSize_ := 2; data_ := Some [7; 8] |} in
  (exists m', Resize (device := limited 6) 2 3 m = Done m' /\ sound m') /\
  Resize (device := limited 4) 2 3 m = alloc_failure.
Proof.
  intros m.
  assert (Hm : sound m) by (vm_compute; split; discriminate).
  split.
  - destruct (sound_kept (T:=Z) (device := limited 6)) as (_ & _ & Hkept).
    destruct (proj1 (Hkept m Hm) 2 3) as [Hdone | [_ Hno]];
      [exact Hdone | discriminate Hno].
  - destruct (sound_kept (T:=Z) (device := limited 4)) as (_ & _ & Hkept).
    destruct (proj1 (Hkept m Hm) 2 3) as [(m' & Hdone & _) | [Hthrow _]];
      [discriminate Hdone | exact Hthrow].
Defined.


(** A 2x3 matrix shrunk to 1x2, copied, and the copy resized back: the
    capacity of six elements is not carried over. *)
Lemma copy_then_grow_witness :
  let m := {| rows_ := 1; cols_ := 2; arrSize_ := 6;
              data_ := Some [1; 2; 3; 4; 5; 6] |} in
  exists m', copy_of (device := unlimited) m = Done m' /\
    arrSize_ m' = 2 /\
    Resize (device := unlimited) 2 3 m' =
      Done {| rows_ := 2; cols_ := 3; arrSize_ := 6;
              data_ := Some [1; 2; 0; 0; 0; 0] |}.
Proof.
  intros m.
  destruct (proj2 (copy_then_grow (device := unlimited) m)
              [1; 2; 3; 4; 5; 6] 2 3) as (_ & Hcopy).
  - vm_compute. split; discriminate.
  - reflexivity.
  - vm_compute. reflexivity.
  - destruct (Hcopy eq_refl) as (m' & E & _ & _ & _ & Ha & _ & Hgrow).
    exists m'. split; [exact E|]. split; [exact Ha|]. exact (Hgrow eq_refl).
Defined.

End TMatrixOps.

(** ** [TransposeNodeOp]: the backward axes *)
Module TransposeInverse.
Import TransposeNodeOp.

(** The loop of the constructor over axes without repetition: position
    [axes[i']] gets [i'], for every [i'] the loop visits, and the other
    positions stay as they are. *)
Lemma axesBw_loop_spec (axes : list Z) (n i : nat) (bw : list Z) :
  axes_in_range (length axes) axes -> NoDup axes ->
  length bw = length axes -> (i + n = length axes)%nat ->
  exists bw', axesBw_loop axes n (Z.of_nat i) bw = Done bw' /\
    length bw' = length bw /\
    (forall (i' : nat) ax, (i <= i')%nat -> axes !! i' = Some ax ->
       bw' !! Z.to_nat ax = Some (Z.of_nat i')) /\
    (forall j : nat,
       (forall i' : nat, (i <= i')%nat -> axes !! i' <> Some (Z.of_nat j)) ->
       bw' !! j = bw !! j).
Proof.
  intros Hr Hnd. revert i bw.
  induction n as [|n IH]; intros i bw Hl Hn.
  - exists bw. split; [done|]. split; [done|]. split; [|done].
    intros i' ax Hi' Hax. apply lookup_lt_Some in Hax. lia.
  - destruct (lookup_lt_is_Some_2 axes i ltac:(lia)) as [ax Hax].
    pose proof (Forall_lookup_1 _ _ _ _ Hr Hax) as Hb. cbn beta in Hb.
    cbn [axesBw_loop]. rewrite (TransposeFacts.at_Done _ _ _ Hax). cbn [mbind outcome_bind].
    rewrite <- (Z2Nat.id ax) by lia.
    rewrite TransposeFacts.set_at_Done by lia. cbn [mbind outcome_bind].
    replace (Z.of_nat i + 1) with (Z.of_nat (S i)) by lia.
    destruct (IH (S i) (<[Z.to_nat ax := Z.of_nat i]> bw))
      as (bw' & E & Hlen & Hset & Hkeep); [by rewrite length_insert | lia |].
    exists bw'. split; [done|]. split; [by rewrite Hlen, length_insert|]. split.
    + intros i' ax' Hi' Hax'. destruct (decide (i' = i)) as [-> | Hne].
      * assert (ax' = ax) as -> by congruence.
        rewrite Hkeep.
        -- apply list_lookup_insert_eq. lia.
        -- intros i'' Hi'' Hax''. rewrite Z2Nat.id in Hax'' by lia.
           pose proof (NoDup_lookup _ _ _ _ Hnd Hax Hax''). lia.
      * apply Hset; [lia | done].
    + intros j Hj. rewrite Hkeep.
      * apply list_lookup_insert_ne. intros Heq.
        apply (Hj i); [lia|]. rewrite Hax. f_equal. lia.
      * intros i' Hi'. apply Hj. lia.
Qed.

Lemma permutation_NoDup (rank : nat) (axes : list Z) :
  axes ≡ₚ Z.of_nat <$> seq 0 rank -> NoDup axes.
Proof.
  intros Hp. rewrite Hp. apply NoDup_fmap_2; [|apply NoDup_seq].
  intros x y. lia.
Qed.

(** X17.  For a permutation the constructor makes [axesBw_] the inverse
    permutation, and the shape of the node transposed with [axesBw_] is the
    shape of the child again. *)
Theorem transpose_inverse (a_shape : Shape) (axes : list Z) :
  axes ≡ₚ Z.of_nat <$> seq 0 (length a_shape) ->
  exists node, new a_shape axes = Done node /\
    length (axesBw_ node) = length a_shape /\
    (forall (i : nat) ax, axes !! i = Some ax ->
       axesBw_ node !! Z.to_nat ax = Some (Z.of_nat i)) /\
    (forall (j : nat) i, axesBw_ node !! j = Some i ->
       axes !! Z.to_nat i = Some (Z.of_nat j)) /\
    newShape (shape node) (axesBw_ node) = Done a_shape.
Proof.
  intros Hp.
  assert (Hlen : length axes = length a_shape).
  { by rewrite Hp, length_fmap, length_seq. }
  pose proof (TransposeFacts.permutation_in_range _ _ Hp) as Hr.
  pose proof (permutation_NoDup _ _ Hp) as Hnd.
  unfold new, newShape at 1. rewrite Hlen, Nat.eqb_refl.
  cbn [negb ABORT_IF mbind outcome_bind].
  destruct (TransposeFacts.newShape_loop_spec a_shape axes (length a_shape) 0 a_shape)
    as (s' & Hs & Hl & Hlk); [done | done | lia |].
  change (Z.of_nat 0) with 0 in Hs. rewrite Hs. cbn [mbind outcome_bind].
  rewrite <- Hlen in Hr |- *.
  destruct (axesBw_loop_spec axes (length axes) 0 (replicate (length axes) 0))
    as (bw & Hbw & Hbl & Hset & _);
    [done | done | by rewrite length_replicate | lia |].
  change (Z.of_nat 0) with 0 in Hbw. rewrite Hbw. cbn [mbind outcome_bind].
  rewrite length_replicate in Hbl.
  assert (Hinv : forall (j : nat) i, bw !! j = Some i ->
            axes !! Z.to_nat i = Some (Z.of_nat j)).
  { intros j i Hj.
    assert (Hjr : (j < length axes)%nat).
    { apply lookup_lt_Some in Hj. lia. }
    assert (Hin : Z.of_nat j ∈ axes).
    { rewrite Hp. apply list_elem_of_fmap. exists j. split; [done|].
      apply elem_of_seq. lia. }
    apply list_elem_of_lookup in Hin as [i' Hi'].
    pose proof (Hset i' _ ltac:(lia) Hi') as Hb. rewrite Nat2Z.id in Hb.
    assert (i = Z.of_nat i') as -> by congruence. by rewrite Nat2Z.id. }
  eexists. split; [reflexivity|]. cbn [axesBw_ shape].
  split; [lia|]. split; [intros i ax Hax; by apply Hset; [lia|]|].
  split; [done|].
  (* transposing back *)
  assert (Hrb : axes_in_range (length s') bw).
  { apply Forall_lookup_2. intros j i Hj. cbn beta.
    pose proof (Hinv j i Hj) as Hi. apply lookup_lt_Some in Hi.
    assert (0 <= i).
    { apply list_elem_of_lookup_2 in Hj.
      destruct (decide (0 <= i)) as [?|Hneg]; [done|].
      exfalso. clear Hi.
      assert (exists j', bw !! j' = Some i) as [j' Hj']
        by (by apply list_elem_of_lookup).
      pose proof (Hinv j' i Hj') as Hi.
      pose proof (Forall_lookup_1 _ _ _ _ Hr Hi) as Hb. cbn beta in Hb.
      assert (Hjr : (j' < length axes)%nat).
      { apply lookup_lt_Some in Hj'. lia. }
      assert (Hin : Z.of_nat j' ∈ axes).
      { rewrite Hp. apply list_elem_of_fmap. exists j'. split; [done|].
        apply elem_of_seq. lia. }
      apply list_elem_of_lookup in Hin as [i' Hi'].
      pose proof (Hset i' _ ltac:(lia) Hi') as Hb'. rewrite Nat2Z.id in Hb'.
      assert (i = Z.of_nat i') by congruence. lia. }
    lia. }
  unfold newShape. rewrite Hl, Hbl, Hlen, Nat.eqb_refl.
  cbn [negb ABORT_IF mbind outcome_bind].
  destruct (TransposeFacts.newShape_loop_spec s' bw (length a_shape) 0 s')
    as (s'' & Hs'' & Hl'' & Hlk''); [done | lia | lia |].
  change (Z.of_nat 0) with 0 in Hs''. rewrite Hs''. f_equal.
  apply list_eq. intros j. rewrite Hlk''. rewrite decide_True by lia.
  destruct (bw !! j) as [i|] eqn:Hj; cbn.
  - pose proof (Hinv j i Hj) as Hi.
    rewrite Hlk, decide_True by lia. rewrite Hi. cbn. by rewrite Nat2Z.id.
  - apply lookup_ge_None in Hj. symmetry. apply lookup_ge_None. lia.
Qed.

(** X18.  The constructor checks the number of axes and nothing else.  A list
    of the right length whose entries name axes of the child is accepted
    also when it repeats an axis, and extent [i] of the new shape is the
    child's extent at [axes[i]]. *)
Theorem transpose_unchecked (a_shape : Shape) (axes : list Z) :
  length axes = length a_shape -> axes_in_range (length a_shape) axes ->
  exists node, new a_shape axes = Done node /\
    axes_ node = axes /\
    forall (i : nat) ax, axes !! i = Some ax ->
      shape node !! i = a_shape !! Z.to_nat ax.
Proof.
  intros Hlen Hr.
  unfold new, newShape. rewrite Hlen, Nat.eqb_refl.
  cbn [negb ABORT_IF mbind outcome_bind].
  destruct (TransposeFacts.newShape_loop_spec a_shape axes (length a_shape) 0 a_shape)
    as (s' & Hs & Hl & Hlk); [done | done | lia |].
  change (Z.of_nat 0) with 0 in Hs. rewrite Hs. cbn [mbind outcome_bind].
  rewrite <- Hlen in Hr |- *.
  destruct (TransposeFacts.axesBw_loop_ok axes (length axes) 0 (replicate (length axes) 0))
    as (bw & Hbw); [done | by rewrite length_replicate | lia |].
  change (Z.of_nat 0) with 0 in Hbw. rewrite Hbw. cbn [mbind outcome_bind].
  eexists. split; [done|]. cbn. split; [done|].
  intros i ax Hax. rewrite Hlk, decide_True by lia. by rewrite Hax.
Qed.

Lemma transpose_inverse_witness :
  exists node, new [2; 3; 4] [2; 0; 1] = Done node /\
    axesBw_ node !! 2%nat = Some 0 /\
    newShape (shape node) (axesBw_ node) = Done [2; 3; 4].
Proof.
  destruct (transpose_inverse [2; 3; 4] [2; 0; 1])
    as (node & Hn & _ & Hb & _ & Hback).
  - cbn. apply (Permutation_cons_append [0; 1] 2).
  - exists node. split; [exact Hn|]. split; [|exact Hback].
    exact (Hb 0%nat 2 eq_refl).
Defined.

(** Axis 0 twice: a 2x3 child gives a 2x2 node. *)
Lemma transpose_unchecked_witness :
  exists node, new [2; 3] [0; 0] = Done node /\
    shape node !! 1%nat = Some 2 /\ elements [2; 3] = 6.
Proof.
  destruct (transpose_unchecked [2; 3] [0; 0]) as (node & Hn & _ & Hs).
  - reflexivity.
  - repeat constructor; cbn; lia.
  - exists node. split; [exact Hn|]. split; [|reflexivity].
    exact (Hs 1%nat 0 eq_refl).
Defined.

End TransposeInverse.

(** ** [StepNodeOp]: views of different steps *)
Module StepViews.
Import Aliasing.
Section Facts.
Context {T : Type}.
Implicit Types (w : World T) (t : TensorBase).

(** X19.  Two step nodes over the same expression, with the same shape and
    different steps.  Their gradient accessors return two new tensors over
    the memory of the expression's gradient; an element written through one
    is never an element read through the other; and each memory piece has
    the size of the whole gradient, although it starts further in. *)
Theorem step_views_disjoint (s1 s2 : StepNodeOp) w (sg : TensorBase) :
  let n := elements (step_shape s1) in
  tensors w !! grad (stepNode_ s1) = Some sg ->
  stepNode_ s2 = stepNode_ s1 -> step_shape s2 = step_shape s1 ->
  0 <= step_ s1 -> 0 <= step_ s2 -> step_ s1 <> step_ s2 ->
  0 <= n -> step_ s1 * n < 2 ^ 31 -> step_ s2 * n < 2 ^ 31 ->
  exists p1 s1' w1 p2 s2' w2 v1 v2,
    step_grad s1 w = Done (p1, s1', w1) /\
    step_grad s2 w1 = Done (p2, s2', w2) /\
    p1 <> p2 /\
    tensors w2 !! p1 = Some v1 /\ tensors w2 !! p2 = Some v2 /\
    data (memory v1) = data (memory sg) + step_ s1 * n * sizeof_float /\
    data (memory v2) = data (memory sg) + step_ s2 * n * sizeof_float /\
    size (memory v1) = size (memory sg) /\
    size (memory v2) = size (memory sg) /\
    forall (w0 : World T) (i j : Z) (x : T), 0 <= i < n -> 0 <= j < n ->
      get (set w0 v1 j x) v2 i = get w0 v2 i /\
      get (set w0 v2 j x) v1 i = get w0 v1 i.
Proof.
  intros n Hsg He Hsh Hk1 Hk2 Hne Hn Hb1 Hb2.
  pose proof (AliasingFacts.step_offset_exact s1 Hk1 Hn Hb1) as Ho1.
  assert (Ho2 : step_offset s2 = step_ s2 * n * sizeof_float).
  { unfold n. rewrite <- Hsh. apply AliasingFacts.step_offset_exact; rewrite ?Hsh; done. }
  fold n in Ho1.
  set (v1 := view sg (step_shape s1) (step_offset s1)).
  set (v2 := view sg (step_shape s2) (step_offset s2)).
  set (w1 := (New v1 w).2). set (w2 := (New v2 w1).2).
  assert (Hsg1 : tensors w1 !! grad (stepNode_ s2) = Some sg).
  { rewrite He. by apply AliasingFacts.New_lookup. }
  assert (Hl1 : length (tensors w1) = S (length (tensors w)))
    by apply AliasingFacts.length_New.
  exists (length (tensors w)),
    {| stepNode_ := stepNode_ s1; step_ := step_ s1; axis_ := axis_ s1;
       step_shape := step_shape s1; step_val_ := step_val_ s1;
       step_adj_ := Some (length (tensors w)) |}, w1,
    (length (tensors w1)),
    {| stepNode_ := stepNode_ s2; step_ := step_ s2; axis_ := axis_ s2;
       step_shape := step_shape s2; step_val_ := step_val_ s2;
       step_adj_ := Some (length (tensors w1)) |}, w2, v1, v2.
  split; [unfold step_grad; by rewrite Hsg|].
  split; [unfold step_grad; by rewrite Hsg1|].
  split; [lia|]. split.
  { unfold w2. apply AliasingFacts.New_lookup. unfold w1. cbn.
    by rewrite lookup_app_r, Nat.sub_diag by lia. }
  split.
  { unfold w2. cbn [New snd tensors].
    by rewrite lookup_app_r, Nat.sub_diag by lia. }
  cbn [v1 v2 view memory data size]. rewrite Ho1, Ho2.
  split; [done|]. split; [done|]. split; [done|]. split; [done|].
  intros w0 i j x Hi Hj. unfold get, set, sizeof_float. cbn. rewrite Ho1, Ho2.
  unfold sizeof_float. split; apply lookup_insert_ne; nia.
Qed.
End Facts.

(** Steps 0 and 2 of a tensor of three rows of four elements. *)
Lemma step_views_disjoint_witness :
  let a := {| memory := {| data := 1000; size := 48 |}; shape := [3; 4];
              getBackend := 0 |} in
  let w : World Z := {| heap := ∅; tensors := [a; a] |} in
  let A := {| val := 0%nat; grad := 1%nat |} in
  let s1 := {| stepNode_ := A; step_ := 0; axis_ := 0; step_shape := [1; 4];
               step_val_ := None; step_adj_ := None |} in
  let s2 := {| stepNode_ := A; step_ := 2; axis_ := 0; step_shape := [1; 4];
               step_val_ := None; step_adj_ := None |} in
  exists p1 s1' w1 p2 s2' w2,
    step_grad s1 w = Done (p1, s1', w1) /\
    step_grad s2 w1 = Done (p2, s2', w2) /\ p1 <> p2.
Proof.
  intros a w A s1 s2.
  destruct (step_views_disjoint s1 s2 w a)
    as (p1 & s1' & w1 & p2 & s2' & w2 & v1 & v2 & E1 & E2 & Hp & _);
    try reflexivity; try (cbn; lia).
  exists p1, s1', w1, p2, s2', w2. split; [exact E1|]. split; [exact E2 | exact Hp].
Defined.

End StepViews.

(** ** Backward passes without broadcasting *)
Module ElementwiseFacts.
Import NodeOps.
Section Facts.
Context {T : Type} `{Scalar T} `{Functional T}.
Implicit Types (node : Node T) (graph : list (Expr T)) (c : Expr T).

(** X20.  The backward pass of an operator with one child of the shape of the
    node (nothing is broadcast) always finishes, and adds to element [j] of
    the child's gradient the functor of [backwardOps] at the elements [j] of
    its operands; every other expression of the graph stays as it is. *)
Theorem backward_elementwise (k : Kind T) node graph c (id : nat) :
  let n := Z.to_nat (elements (shape_ node)) in
  children_ node = [id] -> graph !! id = Some c ->
  shape c = shape_ node -> Forall (fun d => 0 < d) (shape_ node) ->
  length (adj_ node) = n -> length (val_ node) = n -> length (val c) = n ->
  length (grad c) = n ->
  exists op,
    backwardOps k node graph = Done [op] /\
    backward k node graph =
      Done (<[id := {| shape := shape c; val := val c;
                       grad := zip_with add (grad c) (elementwise node c op n) |}]>
              graph).
Proof. intros n. by apply NodeOpsFacts.backward_same_shape. Qed.

(** The gradient of [tanh] at the values of the node, times the adjoint. *)
Lemma tanh_elementwise node c (i : nat) :
  let n := Z.to_nat (elements (shape_ node)) in
  length (adj_ node) = n -> length (val_ node) = n ->
  elementwise node c
    {| target := i;
       functor := fun a => mul (arg 0 a) (sub one (mul (arg 1 a) (arg 1 a)));
       scale := None; operands := [Adj; Val] |} n
  = zip_with (fun a v => mul a (sub one (mul v v))) (adj_ node) (val_ node).
Proof.
  intros n Hadj Hval. unfold elementwise. apply list_eq. intros j.
  rewrite list_lookup_fmap, lookup_zip_with.
  destruct (decide (j < n)%nat) as [Hj | Hj].
  - rewrite lookup_seq_lt by done. cbn.
    destruct (lookup_lt_is_Some_2 (adj_ node) j ltac:(lia)) as [a Ha].
    destruct (lookup_lt_is_Some_2 (val_ node) j ltac:(lia)) as [v Hv].
    unfold arg, operand_value. cbn. by rewrite Ha, Hv.
  - rewrite lookup_seq_ge by lia. cbn.
    by rewrite (lookup_ge_None_2 (adj_ node)) by lia.
Qed.

(** X21.  The backward pass of [tanh] over any number of children of the shape
    of the node finishes and adds the same contribution, the adjoint times
    [1 - val^2], to the gradient of every child, once for every time the
    child is listed: a child that is listed twice receives it twice. *)
Theorem tanh_backward_children node graph :
  let n := Z.to_nat (elements (shape_ node)) in
  let K := zip_with (fun a v => mul a (sub one (mul v v)))
                    (adj_ node) (val_ node) in
  Forall (fun id => exists c, graph !! id = Some c /\
                      shape c = shape_ node /\ length (grad c) = n)
         (children_ node) ->
  Forall (fun d => 0 < d) (shape_ node) ->
  length (adj_ node) = n -> length (val_ node) = n ->
  backward TanhNodeOp node graph
    = Done (foldl accumulate graph ((fun id => (id, K)) <$> children_ node)).
Proof.
  intros n K Hch Hpos Hadj Hval.
  unfold backward. cbn [backwardOps mbind outcome_bind].
  set (mk := fun i : nat =>
         {| target := i;
            functor := fun a : list T => mul (arg 0 a) (sub one (mul (arg 1 a) (arg 1 a)));
            scale := None; operands := [Adj; Val] |}).
  assert (HK : length K = n).
  { unfold K. rewrite length_zip_with. lia. }
  assert (Hrun : forall (m i : nat) graph',
    (i + m = length (children_ node))%nat ->
    Forall (fun id => exists c, graph' !! id = Some c /\
                        shape c = shape_ node /\ length (grad c) = n)
           (children_ node) ->
    runBackward node (mk <$> seq i m) graph'
      = Done (foldl accumulate graph'
                ((fun id => (id, K)) <$> drop i (children_ node)))).
  { induction m as [|m IH]; intros i graph' Him Hinv.
    - by rewrite drop_ge by lia.
    - destruct (lookup_lt_is_Some_2 (children_ node) i ltac:(lia)) as [id Hid].
      destruct (proj1 (Forall_forall _ _) Hinv id
                  (list_elem_of_lookup_2 _ _ _ Hid)) as (c & Hc & Hshp & Hgr).
      cbn [seq fmap list_fmap runBackward].
      rewrite NodeOpsFacts.runOp_contribution.
      rewrite (NodeOpsFacts.op_contribution_resolved node graph' c (mk i) id);
        try done.
      2:{ repeat constructor; done. }
      cbn [mbind outcome_bind].
      assert (Et : elementwise node c (mk i) (Z.to_nat (elements (shape_ node)))
                   = K) by (by apply tanh_elementwise).
      rewrite Et.
      rewrite (IH (S i)); [| lia |].
      + by rewrite (drop_S _ _ _ Hid).
      + apply Forall_forall. intros id' Hin.
        destruct (proj1 (Forall_forall _ _) Hinv id' Hin)
          as (c' & Hc' & Hshp' & Hgr').
        unfold accumulate. cbn [fst snd].
        destruct (decide (id' = id)) as [-> | Hne].
        * rewrite list_lookup_alter_eq, Hc. eexists. split; [done|].
          cbn. split; [done|]. rewrite length_zip_with. lia.
        * exists c'. by rewrite list_lookup_alter_ne. }
  rewrite (Hrun (length (children_ node)) 0%nat graph); [| lia | done].
  by rewrite drop_0.
Qed.


End Facts.

(** An example over the field with two elements. *)
Lemma backward_elementwise_witness :
  let node := {| shape_ := [2]; val_ := [true; true]; adj_ := [true; false];
                 children_ := [0%nat] |} in
  let x := {| shape := [2]; val := [true; false]; grad := [true; true] |} in
  backward NegNodeOp node [x]
    = Done [{| shape := [2]; val := [true; false]; grad := [false; true] |}].
Proof.
  intros node x.
  destruct (backward_elementwise NegNodeOp node [x] x 0)
    as (op & Hop & E);
    [reflexivity | reflexivity | reflexivity | repeat constructor
    | reflexivity | reflexivity | reflexivity | reflexivity | ].
  injection Hop as <-. exact E.
Defined.

(** [tanh(x + x)] in single precision, the values of the node being 0: the
    child is listed twice and its gradient receives the adjoint twice. *)
Lemma tanh_backward_children_witness :
  let f := float32_of_Z in
  let node := {| shape_ := [2]; val_ := f <$> [0; 0]; adj_ := f <$> [1; 2];
                 children_ := [0%nat; 0%nat] |} in
  let x g := {| shape := [2]; val := f <$> [5; 6]; grad := f <$> g |} in
  backward TanhNodeOp node [x [10; 20]] = Done [x [12; 24]].
Proof.
  intros f node x.
  etransitivity;
    [ apply (tanh_backward_children node [x [10; 20]]);
      [ repeat constructor; exists (x [10; 20]); done | repeat constructor
      | reflexivity | reflexivity ]
    | vm_compute; reflexivity ].
Defined.


End ElementwiseFacts.

(** ** [PoolingWithMaskingOp]: the number of windows *)
Module PoolingShape.
Import PoolingWithMaskingOp.

(** X23.  The constructor of [PoolingWithMaskingOp] keeps the first two
    extents of the child's shape and sets the third to the number of windows
    of [width] positions needed to cover the [cols] positions pooled over
    ([cols] is the child's third extent, less one when [isEven] is set): the
    least [n] with [cols <= n * width], which is 0 for [cols = 0]. *)
Theorem pooling_windows (dimBatch dimWord x2 width_ : Z) (isEven_ : bool) :
  let cols := if isEven_ then x2 - 1 else x2 in
  0 < width_ -> 0 <= cols -> x2 < 2 ^ 31 ->
  exists n,
    new_shape [dimBatch; dimWord; x2] width_ isEven_
      = Done [dimBatch; dimWord; n] /\
    (n - 1) * width_ < cols <= n * width_.
Proof.
  intros cols Hw Hc Hx.
  unfold new_shape. cbn [at_ Z.leb Z.compare Z.to_nat lookup list_lookup
                         mbind outcome_bind].
  change (Z.to_nat 0) with 0%nat. change (Z.to_nat 1) with 1%nat.
  change (Z.to_nat 2) with 2%nat. cbn [lookup list_lookup mbind outcome_bind].
  assert (Ec : (if isEven_ then to_int (x2 - 1) else x2) = cols).
  { unfold cols. destruct isEven_; [|done].
    apply F32Facts.to_int_small. lia. }
  rewrite Ec.
  destruct (Z.eqb_spec width_ 0) as [|_]; [lia|].
  destruct (Z.eqb_spec width_ (-1)) as [|_]; [lia|]. rewrite andb_false_r.
  pose proof (Z.quot_rem' cols width_) as Hqr.
  pose proof (Z.rem_bound_pos cols width_ Hc Hw) as Hr.
  pose proof (Z.quot_pos cols width_ Hc Hw) as Hq0.
  assert (Hq : cols `quot` width_ <= cols).
  { rewrite Z.quot_div_nonneg by lia.
    apply Z.div_le_upper_bound; nia. }
  assert (Hcols : cols < 2 ^ 31) by (unfold cols; destruct isEven_; lia).
  rewrite (F32Facts.to_int_small (cols `quot` width_)) by lia.
  eexists. split; [reflexivity|].
  destruct (Z.eqb_spec (cols `rem` width_) 0) as [E0 | Ene].
  - rewrite F32Facts.to_int_small by lia. nia.
  - assert (cols `quot` width_ < cols) by nia.
    rewrite F32Facts.to_int_small by lia. nia.
Qed.

(** X24.  With [isEven] set on a child whose third extent is 0 the
    constructor of [PoolingWithMaskingOp] pools over [cols = -1] positions:
    the division truncates towards zero, and the node announces one window
    for a width of at least 2 and the extent -1 for the width 1. *)
Theorem pooling_no_position (dimBatch dimWord width_ : Z) :
  0 < width_ < 2 ^ 31 ->
  new_shape [dimBatch; dimWord; 0] width_ true
    = Done [dimBatch; dimWord; if width_ =? 1 then -1 else 1].
Proof.
  intros Hw. unfold new_shape.
  change (at_ [dimBatch; dimWord; 0] 0) with (Done dimBatch).
  change (at_ [dimBatch; dimWord; 0] 1) with (Done dimWord).
  change (at_ [dimBatch; dimWord; 0] 2) with (Done 0).
  cbn [mbind outcome_bind].
  change (to_int (0 - 1)) with (- (1)).
  destruct (Z.eqb_spec width_ 0) as [|_]; [lia|].
  destruct (Z.eqb_spec width_ (-1)) as [|_]; [lia|]. rewrite andb_false_r.
  rewrite Z.quot_opp_l, Z.rem_opp_l by lia.
  destruct (Z.eqb_spec width_ 1) as [-> | Hne]; [reflexivity|].
  rewrite Z.quot_small, Z.rem_small by lia. reflexivity.
Qed.

End PoolingShape.

Lemma pooling_windows_witness :
  PoolingWithMaskingOp.new_shape [8; 512; 11] 3 true = Done [8; 512; 4].
Proof.
  destruct (PoolingShape.pooling_windows 8 512 11 3 true)
    as (n & E & Hn); [lia | lia | lia |].
  cbn in Hn. assert (n = 4) as -> by lia. exact E.
Defined.

Lemma pooling_no_position_witness :
  PoolingWithMaskingOp.new_shape [8; 512; 0] 3 true = Done [8; 512; 1].
Proof. apply (PoolingShape.pooling_no_position 8 512 3). lia. Defined.

(** ** The shard size beyond [2^24] elements *)
Module ShardRounding.
Import F32.

Lemma ilog2_ratio_int z E :
  0 <= E -> 2 ^ E <= z < 2 ^ (E + 1) -> ilog2_ratio z 1 = E.
Proof.
  intros HE [Hl Hu].
  assert (Hz : 0 < z).
  { assert (0 < 2 ^ E) by (apply Z.pow_pos_nonneg; lia). lia. }
  pose proof (F32Facts.ilog2_ratio_spec z 1 Hz ltac:(lia)) as [Sp Sn].
  cbv zeta in *. set (E' := ilog2_ratio z 1) in *.
  destruct (Z.lt_trichotomy E' E) as [Hlt | [-> | Hgt]]; [exfalso | done | exfalso].
  - destruct (Z.le_gt_cases 0 E') as [H0 | H0].
    + destruct Sp as [_ Su]; [done|]. rewrite Z.mul_1_l in Su.
      assert (2 ^ (E' + 1) <= 2 ^ E) by (apply Z.pow_le_mono_r; lia). lia.
    + destruct Sn as [_ Su]; [done|].
      assert (0 < 2 ^ (- E' - 1)) by (apply Z.pow_pos_nonneg; lia). nia.
  - destruct Sp as [Sl _]; [lia|]. rewrite Z.mul_1_l in Sl.
    assert (2 ^ (E + 1) <= 2 ^ E') by (apply Z.pow_le_mono_r; lia). lia.
Qed.

(** [(float)total] for [2^24 <= total < 2^25]: the nearest even number. *)
Lemma of_Z_even total :
  2 ^ 24 <= total < 2 ^ 25 -> int_value (of_Z total) (2 * rne total 2).
Proof.
  intros Ht. unfold of_Z. rewrite F32Facts.round_pos_eq by lia.
  unfold round_pos. rewrite (ilog2_ratio_int total 24) by (done || lia).
  change (24 - 23) with 1. cbn [Z.leb Z.compare]. change (1 * 2 ^ 1) with 2.
  right. cbn [f32_m f32_e]. change (2 ^ 1) with 2. lia.
Qed.

(** An even number up to [2^25] is a float. *)
Lemma ceil_round_even m :
  2 ^ 23 <= m <= 2 ^ 24 -> ceil (round_pos (2 * m) 1) = 2 * m.
Proof.
  intros Hm. unfold round_pos.
  destruct (Z.eq_dec m (2 ^ 24)) as [-> | Hne].
  - reflexivity.
  - assert (Hr : 2 ^ 24 <= 2 * m < 2 ^ (24 + 1)).
    { change (2 ^ (24 + 1)) with 33554432. change (2 ^ 24) with 16777216 in *.
      change (2 ^ 23) with 8388608 in *. lia. }
    rewrite (ilog2_ratio_int (2 * m) 24) by (done || lia).
    change (24 - 23) with 1. cbn [Z.leb Z.compare]. change (1 * 2 ^ 1) with 2.
    rewrite (Z.mul_comm 2 m), F32Facts.rne_exact by lia.
    unfold ceil. cbn [f32_m f32_e Z.leb Z.compare]. done.
Qed.

Lemma rne_half_bounds total :
  2 ^ 24 <= total < 2 ^ 25 -> 2 ^ 23 <= rne total 2 <= 2 ^ 24.
Proof.
  intros Ht. split.
  - apply F32Facts.rne_ge; [lia|]. change (2 ^ 24) with (2 ^ 23 * 2) in Ht. lia.
  - apply F32Facts.rne_le; [lia|]. change (2 ^ 25) with (2 ^ 24 * 2) in Ht. lia.
Qed.

Lemma shardSize_one_replica total :
  2 ^ 24 <= total < 2 ^ 25 -> shardSize total 1 = 2 * rne total 2.
Proof.
  intros Ht. pose proof (rne_half_bounds total Ht) as Hm.
  unfold shardSize.
  rewrite (F32Facts.div_int_values _ _ (2 * rne total 2) 1);
    [| by apply of_Z_even | by left | lia | lia].
  rewrite ceil_round_even by done.
  apply F32Facts.to_int_small.
  change (2 ^ 24) with 16777216 in *. change (2 ^ 31) with 2147483648. lia.
Qed.

(** X15.  Between [2^24] and [2^25] elements the shard size of a single
    replica is [total] rounded to an even number, ties to a multiple of 4:
    an even [total] is kept and [total = 4k + 3] gives [total + 1], which
    [foreach] clips to [total]; [total = 4k + 1] gives [total - 1], and the
    one shard of [foreach] then ends before the last element, which no
    shard holds. *)
Theorem shardSize_rounds_to_even (total : Z) :
  2 ^ 24 <= total < 2 ^ 25 ->
  (total mod 2 = 0 -> shardSize total 1 = total) /\
  (total mod 4 = 3 -> shardSize total 1 = total + 1) /\
  (total mod 4 = 1 ->
     shardSize total 1 = total - 1 /\
     shards (shardSize total 1) 1 0 0 total = [(0%nat, 0, total - 1)] /\
     ~ exists s, s ∈ shards (shardSize total 1) 1 0 0 total /\
                 in_shard s (total - 1)).
Proof.
  intros Ht. rewrite shardSize_one_replica by done.
  pose proof (Z.div_mod total 2 ltac:(lia)) as E2.
  pose proof (Z.mod_pos_bound total 2 ltac:(lia)) as B2.
  assert (M4 : total mod 4 = 2 * ((total / 2) mod 2) + total mod 2).
  { change 4 with (2 * 2). rewrite Z.rem_mul_r by lia. lia. }
  pose proof (Z.mod_pos_bound (total / 2) 2 ltac:(lia)) as B4.
  assert (Ev : Z.even (total / 2) = ((total / 2) mod 2 =? 0)).
  { rewrite Zeven_mod. reflexivity. }
  unfold rne. rewrite Ev.
  split; [|split].
  - intros H0. rewrite H0. change (2 * 0 <? 2) with true. cbv iota. lia.
  - intros H3. assert (E1 : total mod 2 = 1) by lia.
    assert (E1' : (total / 2) mod 2 = 1) by lia.
    rewrite E1, E1'. change (2 * 1 <? 2) with false.
    change (2 <? 2 * 1) with false. change (1 =? 0) with false. cbv iota. lia.
  - intros H1. assert (E1 : total mod 2 = 1) by lia.
    assert (E0 : (total / 2) mod 2 = 0) by lia.
    rewrite E1, E0. change (2 * 1 <? 2) with false.
    change (2 <? 2 * 1) with false. change (0 =? 0) with true. cbv iota.
    assert (Es : 2 * (total / 2) = total - 1) by lia.
    rewrite Es. split; [done|].
    assert (Sh : shards (total - 1) 1 0 0 total = [(0%nat, 0, total - 1)]).
    { cbn [shards]. rewrite Z.min_l by lia. done. }
    rewrite Sh. split; [done|].
    intros (s & Hs & Hin). apply list_elem_of_singleton in Hs as ->.
    unfold in_shard in Hin. cbn in Hin. lia.
Qed.

End ShardRounding.

Lemma shardSize_rounds_to_even_witness :
  shardSize (2 ^ 24 + 5) 1 = 2 ^ 24 + 4 /\
  shards (shardSize (2 ^ 24 + 5) 1) 1 0 0 (2 ^ 24 + 5)
    = [(0%nat, 0, 2 ^ 24 + 4)].
Proof.
  destruct (ShardRounding.shardSize_rounds_to_even (2 ^ 24 + 5))
    as (_ & _ & H1); [lia|].
  destruct H1 as (E & S & _); [reflexivity|].
  split; [exact E | exact S].
Defined.
